(** * pgexporter: the query core (src/libpgexporter/queries.c)

    A shallow embedding of [queries.c] and the properties of its
    connection manager, simple-query codec, row decoder and tuple-list
    merge.

    Conventions of the embedding.
    - A byte is a [Z] in [0, 256); a [char] array or a raw buffer is a
      [list Z].  A [char*] string argument is the list of its bytes before
      the terminating NUL, so that [strlen] is [length].
    - A pointer is an [option positive]: [None] is [NULL].
    - The heap holds the two structs the file allocates, [struct tuples]
      (list nodes) and [struct tuple] (rows), one finite map for each.
      The byte buffers of [query_execute] ([content], [data]) are plain
      values: their allocation and release are not part of the heap.
    - Names are compared by [strcmp], which reads the end of an array as
      a NUL; [strcmp_c] is the comparison without a result past the end
      of an array.  The two agree on arrays that hold a NUL, and the
      theorems that rest on an answer of equality ask for such names.
    - A function that dereferences memory returns an [option]: [None]
      stands for undefined behaviour (a [NULL] or dangling dereference, a
      read or copy outside a buffer) and, for the loops that walk the
      heap, for running out of the [fuel] that bounds them. *)

From Stdlib Require Import ZArith List Lia String Ascii.
From stdpp Require Import base option list gmap.
From Equations Require Import Equations.

Open Scope Z_scope.
Set Warnings "-clear-no-such-hyp".

Abbreviation ptr := (option positive).

(** ** Data model *)

(** [struct tuple] (queries.h): the decoded row. *)
Record tuple := mk_tuple {
  t_server : Z;
  t_tag : list Z;
  t_columns : Z;
  t_name : list Z;
  t_value : list Z;
  t_desc : list Z
}.

(** [struct tuples] (queries.h): a node of the singly linked list. *)
Record tuples := mk_tuples {
  tuple_p : ptr;
  next : ptr
}.

Record heap := mk_heap {
  h_tuples : gmap positive tuples;
  h_tuple : gmap positive tuple
}.

(** [*p] for a [struct tuples* p]. *)
Definition load_tuples (h : heap) (p : ptr) : option tuples :=
  x ← p; h_tuples h !! x.

(** [*p] for a [struct tuple* p]. *)
Definition load_tuple (h : heap) (p : ptr) : option tuple :=
  x ← p; h_tuple h !! x.

(** [&p->tuple->name[0]], as the buffer it points to. *)
Definition name_at (h : heap) (p : ptr) : option (list Z) :=
  n ← load_tuples h p; t ← load_tuple h (tuple_p n); Some (t_name t).

(** [p->next]. *)
Definition next_at (h : heap) (p : ptr) : option ptr :=
  next <$> load_tuples h p.

(** [p->next = q]. *)
Definition store_next (h : heap) (p q : ptr) : option heap :=
  x ← p; n ← h_tuples h !! x;
  Some (mk_heap (<[x := mk_tuples (tuple_p n) q]> (h_tuples h)) (h_tuple h)).

(** [strcmp] of libc on two [char] arrays that hold C strings.  The end
    of an array reads as a NUL here; libc's would read on into what lies
    behind the array, which [strcmp_c] below leaves without a result.  The
    two agree on arrays that each hold a NUL ([strcmp_c_defined]). *)
Fixpoint strcmp (a b : list Z) : Z :=
  match a, b with
  | [], [] => 0
  | [], y :: _ => 0 - y
  | x :: _, [] => x
  | x :: a', y :: b' =>
      if x =? y then (if x =? 0 then 0 else strcmp a' b') else x - y
  end.

(** [!strcmp(a, b)]. *)
Definition streq (a b : list Z) : bool := strcmp a b =? 0.

(** [strcmp] as libc runs it on two [char] arrays: there is no result when
    the comparison reads past the end of an array before it has met a
    difference or a NUL. *)
Fixpoint strcmp_c (a b : list Z) : option Z :=
  match a, b with
  | x :: a', y :: b' =>
      if x =? y then (if x =? 0 then Some 0 else strcmp_c a' b') else Some (x - y)
  | _, _ => None
  end.

(** The C string a buffer holds: its bytes before the first NUL. *)
Fixpoint text (buf : list Z) : list Z :=
  match buf with
  | [] => []
  | x :: buf' => if x =? 0 then [] else x :: text buf'
  end.

(** The bytes of a string literal. *)
Definition chars (s : string) : list Z :=
  map (λ c, Z.of_N (N_of_ascii c)) (list_ascii_of_string s).

(** ** Tuple List Merge: [pgexporter_merge_tuples] *)

(** Lines 143-146: the inner [while], advancing [ct1] over the run of nodes
    whose name equals [ct2]'s.  [fuel] bounds the iterations. *)
Fixpoint merge_run (fuel : nat) (h : heap) (ct1 ct2 : ptr) {struct fuel}
  : option ptr :=
  nx ← next_at h ct1;
  match nx with
  | None => Some ct1
  | Some _ =>
      n1 ← name_at h nx; n2 ← name_at h ct2;
      if streq n1 n2 then
        match fuel with
        | O => None
        | S fuel' => merge_run fuel' h nx ct2
        end
      else Some ct1
  end.

(** Lines 139-158: the outer [while]; the result is the heap with the final
    [last] and [ct2]. *)
Fixpoint merge_walk (fuel : nat) (h : heap) (ct1 ct2 last : ptr) {struct fuel}
  : option (heap * ptr * ptr) :=
  match ct1 with
  | None => Some (h, last, ct2)
  | Some _ =>
      match fuel with
      | O => None
      | S fuel' =>
          hit ← match ct2 with
                | None => Some false
                | Some _ =>
                    n1 ← name_at h ct1; n2 ← name_at h ct2; Some (streq n1 n2)
                end;
          if hit : bool then
            ct1' ← merge_run fuel h ct1 ct2;
            tmp1 ← next_at h ct1';
            tmp2 ← next_at h ct2;
            h1 ← store_next h ct1' ct2;
            h2 ← store_next h1 ct2 tmp1;
            nx ← next_at h2 ct1';
            merge_walk fuel' h2 nx tmp2 ct1'
          else
            nx ← next_at h ct1;
            merge_walk fuel' h nx ct2 ct1
      end
  end.

(** Lines 160-166: the final [while], linking what is left of [t2]. *)
Fixpoint merge_tail (fuel : nat) (h : heap) (last ct2 : ptr) {struct fuel}
  : option heap :=
  match ct2 with
  | None => Some h
  | Some _ =>
      match fuel with
      | O => None
      | S fuel' =>
          h1 ← store_next h last ct2;
          last' ← next_at h1 last;
          ct2' ← next_at h1 ct2;
          merge_tail fuel' h1 last' ct2'
      end
  end.

(** Lines 117-169. *)
Definition pgexporter_merge_tuples (fuel : nat) (h : heap) (t1 t2 : ptr)
  : option (heap * ptr) :=
  match t1 with
  | None => Some (h, t2)
  | Some _ =>
      match t2 with
      | None => Some (h, t1)
      | Some _ =>
          '(h1, last, ct2) ← merge_walk fuel h t1 t2 None;
          h2 ← merge_tail fuel h1 last ct2;
          Some (h2, t1)
      end
  end.

(** ** [pgexporter_free_tuples] *)

(** [free(p)] of a [struct tuple*]: a no-op on [NULL], undefined on what is
    not allocated. *)
Definition free_tuple (h : heap) (p : ptr) : option heap :=
  match p with
  | None => Some h
  | Some x =>
      _ ← h_tuple h !! x; Some (mk_heap (h_tuples h) (delete x (h_tuple h)))
  end.

(** [free(p)] of a [struct tuples*]. *)
Definition free_tuples_node (h : heap) (p : ptr) : option heap :=
  match p with
  | None => Some h
  | Some x =>
      _ ← h_tuples h !! x; Some (mk_heap (delete x (h_tuples h)) (h_tuple h))
  end.

(** Lines 179-187. *)
Fixpoint free_loop (fuel : nat) (h : heap) (current : ptr) {struct fuel}
  : option heap :=
  match current with
  | None => Some h
  | Some _ =>
      match fuel with
      | O => None
      | S fuel' =>
          n ← load_tuples h current;
          h1 ← free_tuple h (tuple_p n);
          h2 ← free_tuples_node h1 current;
          free_loop fuel' h2 (next n)
      end
  end.

(** Lines 171-190. *)
Definition pgexporter_free_tuples (fuel : nat) (h : heap) (tuples : ptr)
  : option (heap * Z) :=
  h' ← free_loop fuel h tuples; Some (h', 0).

(** ** Connection Manager: [pgexporter_open_connections],
       [pgexporter_close_connections] *)

(** [struct server] and [struct user] (pgexporter.h), with the fields
    [queries.c] reads, and the part of [struct configuration] it walks:
    the two arrays with the number of entries configured in each. *)
Record server := mk_server {
  s_name : list Z;
  s_username : list Z;
  s_fd : Z
}.

Record user := mk_user {
  u_username : list Z;
  u_password : list Z
}.

Record configuration := mk_configuration {
  number_of_servers : nat;
  servers : list server;
  number_of_users : nat;
  users : list user
}.

(** What the connection manager does to the outside world, in order. *)
Inductive event :=
  | EvAuthenticate (srv : nat) (database : list Z) (cred : option user)
  | EvLogError (srv : nat)
  | EvWriteTerminate (fd : Z)
  | EvDisconnect (fd : Z).

(** [config->servers[srv].fd = fd]. *)
Definition set_fd (config : configuration) (srv : nat) (fd : Z) : configuration :=
  mk_configuration (number_of_servers config)
    (alter (λ s, mk_server (s_name s) (s_username s) fd) srv (servers config))
    (number_of_users config) (users config).

(** [config->users[i]] for an [int i]: outside the array (as for
    [i = -1]) there is no entry to point to. *)
Definition user_at (config : configuration) (i : Z) : option user :=
  if 0 <=? i then users config !! Z.to_nat i else None.

(** Lines 58-65: [n] iterations are left of the [for] over [usr], which
    also stops once [user] is set. *)
Fixpoint user_loop (n : nat) (config : configuration) (srv_username : list Z)
    (usr : nat) (user : Z) : option Z :=
  match n with
  | O => Some user
  | S n' =>
      if user =? -1 then
        u ← users config !! usr;
        user_loop n' config srv_username (S usr)
          (if streq (u_username u) srv_username then Z.of_nat usr else user)
      else Some user
  end.

Section Connections.
(** [AUTH_SUCCESS] (security.h) and the external authenticator, which
    answers with its status and with what it stores in [*fd]. *)
Variable AUTH_SUCCESS : Z.
Variable pgexporter_server_authenticate : nat → list Z → option user → Z * Z.

(** Lines 54-75: [n] iterations are left of the [for] over [server]. *)
Fixpoint open_loop (n : nat) (srv : nat) (config : configuration)
    (trace : list event) : option (configuration * list event) :=
  match n with
  | O => Some (config, trace)
  | S n' =>
      s ← servers config !! srv;
      if s_fd s =? -1 then
        user ← user_loop (number_of_users config) config (s_username s) 0 (-1);
        let cred := user_at config user in
        let '(ret, fd) := pgexporter_server_authenticate srv (chars "postgres") cred in
        let config1 := set_fd config srv fd in
        let trace1 := trace ++ [EvAuthenticate srv (chars "postgres") cred] in
        open_loop n' (S srv) config1
          (if ret =? AUTH_SUCCESS then trace1 else trace1 ++ [EvLogError srv])
      else open_loop n' (S srv) config trace
  end.

Definition pgexporter_open_connections (config : configuration)
  : option (configuration * list event) :=
  open_loop (number_of_servers config) 0 config [].

End Connections.

(** Lines 85-93. *)
Fixpoint close_loop (n : nat) (srv : nat) (config : configuration)
    (trace : list event) : option (configuration * list event) :=
  match n with
  | O => Some (config, trace)
  | S n' =>
      s ← servers config !! srv;
      if negb (s_fd s =? -1) then
        close_loop n' (S srv) (set_fd config srv (-1))
          (trace ++ [EvWriteTerminate (s_fd s); EvDisconnect (s_fd s)])
      else close_loop n' (S srv) config trace
  end.

Definition pgexporter_close_connections (config : configuration)
  : option (configuration * list event) :=
  close_loop (number_of_servers config) 0 config [].

(** ** Message Codec *)

(** [struct message] (message.h): [data] may be [NULL]. *)
Record message := mk_message {
  m_kind : Z;
  m_length : nat;
  m_data : option (list Z)
}.

(** [memcpy(buf + off, bytes, length bytes)]: undefined outside [buf]. *)
Definition write_at (buf : list Z) (off : nat) (bytes : list Z) : option (list Z) :=
  if decide (off + length bytes ≤ length buf)%nat
  then Some (take off buf ++ bytes ++ drop (off + length bytes) buf)
  else None.

(** The four bytes of a 32-bit word, most significant first. *)
Definition int32_bytes (v : Z) : list Z :=
  [(v / 2 ^ 24) mod 256; (v / 2 ^ 16) mod 256; (v / 2 ^ 8) mod 256; v mod 256].

(** Modelled from the spec: [pgexporter_write_byte] (utils.c, its source
    is not available) stores the one byte of the request kind. *)
Definition pgexporter_write_byte (data : list Z) (off : nat) (b : Z)
  : option (list Z) :=
  write_at data off [b].

(** Modelled from the spec: [pgexporter_write_int32] (utils.c, its source
    is not available) stores a four-byte big-endian word. *)
Definition pgexporter_write_int32 (data : list Z) (off : nat) (v : Z)
  : option (list Z) :=
  write_at data off (int32_bytes v).

(** Modelled from the spec: [pgexporter_write_string] (utils.c, its source
    is not available) stores the text; its terminating NUL is the zero
    the buffer already holds. *)
Definition pgexporter_write_string (data : list Z) (off : nat) (s : list Z)
  : option (list Z) :=
  write_at data off s.

(** Modelled from the spec: [pgexporter_read_int32] (utils.c, its source
    is not available) reads a four-byte big-endian word as a signed
    32-bit integer; undefined outside the buffer. *)
Definition pgexporter_read_int32 (data : list Z) (off : nat) : option Z :=
  match take 4 (drop off data) with
  | [b0; b1; b2; b3] =>
      let u := b0 * 2 ^ 24 + b1 * 2 ^ 16 + b2 * 2 ^ 8 + b3 in
      Some (if u <? 2 ^ 31 then u else u - 2 ^ 32)
  | _ => None
  end.

(** Lines 212-222 of [query_execute]: the simple-query frame, as the
    bytes [content] holds.  The buffer itself, which line 213 takes from
    [malloc] and no path of [query_execute] frees, is not a node or a row
    and has no place in [heap]. *)
Definition query_message (query : list Z) : option message :=
  let size := (1 + 4 + length query + 1)%nat in
  let content := replicate size 0 in
  content ← pgexporter_write_byte content 0 81;
  content ← pgexporter_write_int32 content 1 (Z.of_nat size - 1);
  content ← pgexporter_write_string content 5 query;
  Some (mk_message 81 size (Some content)).

(** ** Tuple Decoder: [create_D_tuple] *)

(** [memcpy(&dst[0], src + off, len)] into a [char] array [dst]: undefined
    when it reads outside [src] or writes outside [dst]. *)
Definition memcpy_into (dst src : list Z) (off len : nat) : option (list Z) :=
  if decide (off + len ≤ length src ∧ len ≤ length dst)%nat
  then Some (take len (drop off src) ++ drop len dst)
  else None.

(** [malloc] of a [struct tuples] and of a [struct tuple]: an address that
    is not in use. *)
Definition alloc_tuples (h : heap) (n : tuples) : heap * positive :=
  let x := fresh (dom (h_tuples h)) in
  (mk_heap (<[x := n]> (h_tuples h)) (h_tuple h), x).

Definition alloc_tuple (h : heap) (t : tuple) : heap * positive :=
  let y := fresh (dom (h_tuple h)) in
  (mk_heap (h_tuples h) (<[y := t]> (h_tuple h)), y).

Section Decoder.
(** [MISC_LENGTH] (pgexporter.h): the size of each [char] array of
    [struct tuple]. *)
Variable MISC_LENGTH : nat.

(** One column, as lines 328-335, 339-346 and 351-358 each do it: read the
    length word at [offset], step over it, and copy [length] bytes into the
    zeroed array when [length > 0]. *)
Definition D_column (data : list Z) (offset : nat) : option (list Z * nat) :=
  length ← pgexporter_read_int32 data offset;
  let offset := (offset + 4)%nat in
  if 0 <? length then
    field ← memcpy_into (replicate MISC_LENGTH 0) data offset (Z.to_nat length);
    Some (field, (offset + Z.to_nat length)%nat)
  else Some (replicate MISC_LENGTH 0, offset).

(** Lines 320-359: the row [d] as [create_D_tuple] fills it in. *)
Definition D_tuple (srv columns : Z) (tag : list Z) (msg : message)
  : option tuple :=
  data ← m_data msg;
  d_tag ← memcpy_into (replicate MISC_LENGTH 0) tag 0 (length tag);
  let offset := 7%nat in
  '(d_name, offset) ← D_column data offset;
  '(d_value, offset) ←
    (if 2 <=? columns then D_column data offset
     else Some (replicate MISC_LENGTH 0, offset));
  '(d_desc, offset) ←
    (if 3 <=? columns then D_column data offset
     else Some (replicate MISC_LENGTH 0, offset));
  Some (mk_tuple srv d_tag columns d_name d_value d_desc).

(** Lines 308-367: the result is the heap, [*tuples] and the status. *)
Definition create_D_tuple (h : heap) (srv columns : Z) (tag : list Z)
    (msg : message) : option (heap * ptr * Z) :=
  d ← D_tuple srv columns tag msg;
  let '(h1, y) := alloc_tuple h d in
  let '(h2, result) := alloc_tuples h1 (mk_tuples (Some y) None) in
  Some (h2, Some result, 0).

(** ** Query Executor: [query_execute] *)

Section Executor.
(** [MESSAGE_STATUS_OK] (message.h) and the collaborators of message.c and
    utils.c: the transport's send, and the two scans of the accumulated
    buffer, [pgexporter_has_message (type, data, data_size)] and
    [pgexporter_extract_message_offset (offset, data)], which answers with
    the next offset and with [*extracted]. *)
Variable MESSAGE_STATUS_OK : Z.
Variable pgexporter_write_message : Z → message → Z.
Variable pgexporter_has_message : Z → option (list Z) → nat → bool.
Variable pgexporter_extract_message_offset :
  nat → option (list Z) → nat * option message.

(** Lines 294-306: [NULL] when there is nothing to append.  The bytes a
    [realloc] of [NULL] leaves below [orig_size] are indeterminate, and so
    is a copy of more than [n] holds. *)
Definition data_append (orig : option (list Z)) (orig_size : nat)
    (n : option (list Z)) (n_size : nat) : option (option (list Z)) :=
  match n with
  | None => Some None
  | Some n =>
      if decide (n_size ≤ length n ∧ (orig = None → orig_size = 0))%nat
      then Some (Some (take orig_size (default [] orig) ++ take n_size n))
      else None
  end.

(** How the read loop ends: a read failed, or the ready message was seen
    in the buffer accumulated so far. *)
Inductive read_outcome :=
  | ReadFailed
  | ReadReady (data : option (list Z)) (data_size : nat).

(** Lines 230-252.  [reads] scripts the transport: what each call of
    [pgexporter_read_block_message] answers, its status with [msg]; when
    the script is over the call blocks for good. *)
Fixpoint read_loop (reads : list (Z * option message)) (data : option (list Z))
    (data_size : nat) : option read_outcome :=
  match reads with
  | [] => None
  | (status, msg) :: reads' =>
      if status =? MESSAGE_STATUS_OK then
        msg ← msg;
        data ← data_append data data_size (m_data msg) (m_length msg);
        let data_size := (data_size + m_length msg)%nat in
        if pgexporter_has_message 90 data data_size
        then Some (ReadReady data data_size)
        else read_loop reads' data data_size
      else Some ReadFailed
  end.

(** Lines 254-278. *)
Fixpoint decode_loop (fuel : nat) (h : heap) (srv columns : Z) (tag : list Z)
    (offset : nat) (data : option (list Z)) (data_size : nat)
    (root current : ptr) {struct fuel} : option (heap * ptr) :=
  if (offset <? data_size)%nat then
    match fuel with
    | O => None
    | S fuel' =>
        let '(offset, msg) := pgexporter_extract_message_offset offset data in
        match msg with
        | Some m =>
            if m_kind m =? 68 then
              '(h1, dtuples, _) ← create_D_tuple h srv columns tag m;
              match root with
              | None =>
                  decode_loop fuel' h1 srv columns tag offset data data_size
                    dtuples dtuples
              | Some _ =>
                  h2 ← store_next h1 current dtuples;
                  current ← next_at h2 current;
                  decode_loop fuel' h2 srv columns tag offset data data_size
                    root current
              end
            else
              decode_loop fuel' h srv columns tag offset data data_size
                root current
        | None =>
            decode_loop fuel' h srv columns tag offset data data_size
              root current
        end
    end
  else Some (h, root).

(** Lines 192-292: the result is the heap, [*tuples] and the status
    returned; [tuples] is what [*tuples] held at the call. *)
Definition query_execute (fuel : nat) (h : heap) (config : configuration)
    (reads : list (Z * option message)) (srv : nat) (query tag : list Z)
    (columns : Z) (tuples : ptr) : option (heap * ptr * Z) :=
  qmsg ← query_message query;
  s ← servers config !! srv;
  if pgexporter_write_message (s_fd s) qmsg =? MESSAGE_STATUS_OK then
    r ← read_loop reads None 0;
    match r with
    | ReadFailed => Some (h, tuples, 1)
    | ReadReady data data_size =>
        '(h', root) ← decode_loop fuel h (Z.of_nat srv) columns tag 0 data
                        data_size None None;
        Some (h', root, 0)
    end
  else Some (h, tuples, 1).

(** Lines 96-115: the three probes. *)
Definition pgexporter_query_database_size (fuel : nat) (h : heap)
    (config : configuration) (reads : list (Z * option message)) (srv : nat)
    (tuples : ptr) : option (heap * ptr * Z) :=
  query_execute fuel h config reads srv
    (chars "SELECT datname, pg_database_size(datname) FROM pg_database;")
    (chars "pg_database") 2 tuples.

Definition pgexporter_query_replication_slot_active (fuel : nat) (h : heap)
    (config : configuration) (reads : list (Z * option message)) (srv : nat)
    (tuples : ptr) : option (heap * ptr * Z) :=
  query_execute fuel h config reads srv
    (chars "SELECT slot_name,active FROM pg_replication_slots;")
    (chars "pg_replication_slots") 2 tuples.

Definition pgexporter_query_settings (fuel : nat) (h : heap)
    (config : configuration) (reads : list (Z * option message)) (srv : nat)
    (tuples : ptr) : option (heap * ptr * Z) :=
  query_execute fuel h config reads srv
    (chars "SELECT name,setting,short_desc FROM pg_settings;")
    (chars "pg_settings") 3 tuples.

(** [SplitMessages] of the specification: the messages
    [pgexporter_extract_message_offset] yields from [offset] up to the end
    of the buffer, in order. *)
Fixpoint split_messages (fuel : nat) (offset : nat) (data : option (list Z))
    (data_size : nat) {struct fuel} : option (list (option message)) :=
  if (offset <? data_size)%nat then
    match fuel with
    | O => None
    | S fuel' =>
        let '(offset, msg) := pgexporter_extract_message_offset offset data in
        l ← split_messages fuel' offset data data_size; Some (msg :: l)
    end
  else Some [].

End Executor.

(** The row-data messages among those split off a buffer. *)
Definition row_data (msgs : list (option message)) : list message :=
  omap (λ m, m ≫= λ m, if m_kind m =? 68 then Some m else None) msgs.

End Decoder.

(** ** The merge as the specification words it, on plain lists *)

Section MergeSpec.
Context {A : Type} (key : A → list Z).

(** Two nodes carry the same name. *)
Definition same_name (x y : A) : bool := streq (key x) (key y).

(** The contiguous run, at the head of [l], of nodes named as [bn], and
    what follows it. *)
Fixpoint run_of (bn : A) (l : list A) : list A :=
  match l with
  | y :: l' => if same_name y bn then y :: run_of bn l' else []
  | [] => []
  end.

Fixpoint after_run (bn : A) (l : list A) : list A :=
  match l with
  | y :: l' => if same_name y bn then after_run bn l' else l
  | [] => []
  end.

Definition walked (pre : list A) (r : list A * list A) : list A * list A :=
  (pre ++ r.1, r.2).

(** The single left-to-right pass over [a]: the pair of the list walked
    and of what is left of [b] when the cursor exhausts [a].  On a match
    the cursor runs to the end of the run, [bn] alone is spliced in after
    it, and the cursor resumes at [bn]; otherwise it moves on by one
    node without consuming [b]. *)
Equations? splice_walk (a b : list A) : list A * list A
  by wf (length a + length b)%nat lt :=
  splice_walk [] b := ([], b);
  splice_walk (x :: a') [] := walked [x] (splice_walk a' []);
  splice_walk (x :: a') (bn :: b') with same_name x bn := {
    | true := walked (x :: run_of bn a') (splice_walk (bn :: after_run bn a') b');
    | false := walked [x] (splice_walk a' (bn :: b')) }.
Proof.
  all: simpl; try lia.
  assert (length (after_run bn a') ≤ length a')%nat; [|lia].
  clear. induction a' as [|y a' IH]; simpl; [lia|].
  destruct (same_name y bn); simpl; lia.
Qed.

(** [Merge(a, b)]: either list empty gives the other; otherwise the pass
    over [a], then the remainder of [b] appended at the tail. *)
Definition merge_list (a b : list A) : list A :=
  match a, b with
  | [], _ => b
  | _, [] => a
  | _, _ => let r := splice_walk a b in r.1 ++ r.2
  end.

(** Grouped by name: nodes of equal name are contiguous. *)
Fixpoint grouped (l : list A) : bool :=
  match l with
  | [] => true
  | x :: l' => forallb (λ y, negb (same_name y x)) (after_run x l') && grouped l'
  end.

End MergeSpec.

(** The list a heap chain represents: [lseg h p l q] when the nodes from
    [p] up to [q] are at the addresses, and own the rows, that [l] lists. *)
Fixpoint lseg (h : heap) (p : ptr) (l : list (positive * tuple)) (q : ptr) : Prop :=
  match l with
  | [] => p = q
  | c :: l' =>
      p = Some c.1 ∧
      ∃ n, h_tuples h !! c.1 = Some n ∧ load_tuple h (tuple_p n) = Some c.2 ∧
           lseg h (next n) l' q
  end.

Definition cell_name (c : positive * tuple) : list Z := t_name c.2.

(** The address of the last node of the chain [x :: l]. *)
Fixpoint end_of (x : positive) (l : list (positive * tuple)) : positive :=
  match l with
  | [] => x
  | c :: l' => end_of c.1 l'
  end.

(** [last] after a walk over [l] that started with [last = d]. *)
Definition last_of (d : ptr) (l : list (positive * tuple)) : ptr :=
  match l with
  | [] => d
  | c :: l' => Some (end_of c.1 l')
  end.

(** [h'] differs from [h] in [next] links only. *)
Definition links_only (h h' : heap) : Prop :=
  h_tuple h' = h_tuple h ∧
  ∀ x, tuple_p <$> (h_tuples h' !! x) = tuple_p <$> (h_tuples h !! x).

(** [h'] agrees with [h] on every node outside [l]. *)
Definition same_outside (l : list (positive * tuple)) (h h' : heap) : Prop :=
  ∀ x, x ∉ l.*1 → h_tuples h' !! x = h_tuples h !! x.

(** The (name, value) pairs, as texts, of the rows of a list. *)
Definition texts (l : list (positive * tuple)) : list (list Z * list Z) :=
  map (λ c, (text (t_name c.2), text (t_value c.2))) l.

(** A NUL-terminated buffer holding a string literal. *)
Definition cstring (s : string) : list Z := chars s ++ [0].

(** A two-column row with the given name and value. *)
Definition row (n v : string) : tuple :=
  mk_tuple 0 (cstring "pg_database") 2 (cstring n) (cstring v) [].

(** The lists of the specification's example, laid out in a heap: [a] at
    nodes 1, 2, 3 and [b] at node 4, the rows at 11 to 14. *)
Definition example_a : list (positive * tuple) :=
  [(1%positive, row "db1" "10"); (2%positive, row "db1" "11");
   (3%positive, row "db2" "20")].

Definition example_b : list (positive * tuple) := [(4%positive, row "db1" "99")].

Definition example_heap : heap :=
  mk_heap
    (list_to_map
       [(1%positive, mk_tuples (Some 11%positive) (Some 2%positive));
        (2%positive, mk_tuples (Some 12%positive) (Some 3%positive));
        (3%positive, mk_tuples (Some 13%positive) None);
        (4%positive, mk_tuples (Some 14%positive) None)])
    (list_to_map
       [(11%positive, row "db1" "10"); (12%positive, row "db1" "11");
        (13%positive, row "db2" "20"); (14%positive, row "db1" "99")]).

(** What [pgexporter_close_connections] sends for one backend, and the
    entry it leaves. *)
Definition closing (s : server) : list event :=
  if s_fd s =? -1 then [] else [EvWriteTerminate (s_fd s); EvDisconnect (s_fd s)].

Definition disconnected (s : server) : server :=
  mk_server (s_name s) (s_username s) (-1).

(** A configuration in which no credential carries the username of the one
    backend, which is disconnected. *)
Definition config_unmatched : configuration :=
  mk_configuration
    1 [mk_server (cstring "primary") (cstring "alice") (-1)]
    1 [mk_user (cstring "bob") (cstring "secret")].

(** Two backends, the first connected on descriptor 7. *)
Definition config_two : configuration :=
  mk_configuration
    2 [mk_server (cstring "primary") (cstring "alice") 7;
       mk_server (cstring "replica") (cstring "alice") (-1)]
    1 [mk_user (cstring "alice") (cstring "secret")].

(** A chain as [pgexporter_free_tuples] needs it: [l] lists, node after
    node, the address of the node and the address of the row it owns. *)
Fixpoint owned (h : heap) (p : ptr) (l : list (positive * positive)) : Prop :=
  match l with
  | [] => p = None
  | c :: l' =>
      p = Some c.1 ∧
      ∃ n, h_tuples h !! c.1 = Some n ∧ tuple_p n = Some c.2 ∧
           is_Some (h_tuple h !! c.2) ∧ owned h (next n) l'
  end.

(** A column of a row-data message on the wire: the length word -1 when
    the column is absent ([None]), else the length of its bytes and then
    the bytes. *)
Definition field_bytes (f : option (list Z)) : list Z :=
  match f with
  | None => int32_bytes (-1)
  | Some bs => int32_bytes (Z.of_nat (length bs)) ++ bs
  end.

(** The column fits a [char] array of [cap] bytes. *)
Definition fits (cap : nat) (f : option (list Z)) : Prop :=
  match f with
  | None => True
  | Some bs => (length bs ≤ cap)%nat
  end.

(** A zeroed [char] array of [cap] bytes after the column is copied in:
    all zero when the column is absent. *)
Definition slot (cap : nat) (f : option (list Z)) : list Z :=
  match f with
  | None => replicate cap 0
  | Some bs => bs ++ replicate (cap - length bs) 0
  end.

(** A row of the settings probe on the wire: name and setting present, the
    description absent.  The seven bytes before the columns are the kind
    ['D'], the length word and the two-byte column count. *)
Definition example_row : list (option (list Z)) :=
  [Some (chars "port"); Some (chars "5432"); None].

Definition example_row_message : message :=
  mk_message 68 27
    (Some ([68; 0; 0; 0; 26; 0; 3] ++ concat (map field_bytes example_row))).

(** A row of the settings probe whose description is longer than the
    arrays of [struct tuple] (130 bytes for [MISC_LENGTH] 128): name and
    setting as before, [4 + 4 + 4 + 4 + 4 + 130] bytes of columns after the
    seven-byte header. *)
Definition example_long_row : list (option (list Z)) :=
  [Some (chars "port"); Some (chars "5432"); Some (replicate 130 110)].

Definition example_long_message : message :=
  mk_message 68 153
    (Some ([68; 0; 0; 0; 152; 0; 3] ++ concat (map field_bytes example_long_row))).

(** Modelled from the spec: [pgexporter_extract_message_offset] (utils.c,
    its source is not available) reads at [offset] a one-byte kind and
    a four-byte length, which counts itself and the payload but not the
    kind byte, and yields the message with the offset after it.  The
    message's [data] is the whole frame, kind byte and length word
    included: [create_D_tuple] finds the first column at offset 7. *)
Definition extract_message_offset (offset : nat) (data : option (list Z))
  : nat * option message :=
  match data with
  | None => (offset, None)
  | Some d =>
      match d !! offset, pgexporter_read_int32 d (offset + 1) with
      | Some k, Some m_length =>
          ((offset + 1 + Z.to_nat m_length)%nat,
           Some (mk_message k (1 + Z.to_nat m_length)
                   (Some (take (1 + Z.to_nat m_length) (drop offset d)))))
      | _, _ => (offset, None)
      end
  end.

(** Modelled from the spec: [pgexporter_has_message] (message.c, its
    source is not available) tells whether a message of kind [type] is
    among the frames of the buffer. *)
Fixpoint has_message_from (fuel : nat) (type : Z) (d : list Z)
    (offset data_size : nat) {struct fuel} : bool :=
  if (offset <? data_size)%nat then
    match fuel with
    | O => false
    | S fuel' =>
        match d !! offset, pgexporter_read_int32 d (offset + 1) with
        | Some t, Some m_length =>
            if t =? type then true
            else has_message_from fuel' type d (offset + 1 + Z.to_nat m_length)
                   data_size
        | _, _ => false
        end
    end
  else false.

Definition has_message (type : Z) (data : option (list Z)) (data_size : nat)
  : bool :=
  match data with
  | None => false
  | Some d => has_message_from data_size type d 0 data_size
  end.

(** A transport that accepts what is sent: [MESSAGE_STATUS_OK] is 1. *)
Definition send_ok (fd : Z) (msg : message) : Z := 1.

(** A second row of the settings probe, a command-complete and a
    ready-for-query message, as frames. *)
Definition example_row_message_2 : message :=
  mk_message 68 32
    (Some ([68; 0; 0; 0; 31; 0; 3] ++
           concat (map field_bytes
                     [Some (chars "ssl"); Some (chars "off");
                      Some (chars "Enables")]))).

Definition example_complete_message : message :=
  mk_message 67 14 (Some ([67; 0; 0; 0; 13] ++ cstring "SELECT 2")).

Definition example_ready_message : message :=
  mk_message 90 6 (Some [90; 0; 0; 0; 5; 73]).

(** What the backend answers to the settings probe, one message a read. *)
Definition example_reads : list (Z * option message) :=
  [(1, Some example_row_message); (1, Some example_row_message_2);
   (1, Some example_complete_message); (1, Some example_ready_message)].

(** ** [pgexporter_open_connections], backend by backend *)

Section ConnectionsSpec.
Variable AUTH_SUCCESS : Z.
Variable pgexporter_server_authenticate : nat → list Z → option user → Z * Z.

(** The credential the lookup of lines 58-65 leaves for a backend. *)
Definition resolved (config : configuration) (s : server) : option user :=
  user_at config
    (default (-1) (user_loop (number_of_users config) config (s_username s) 0 (-1))).

(** What one iteration of lines 54-75 does for backend [i]: the events, and
    the entry it leaves. *)
Definition opening (config : configuration) (i : nat) (s : server) : list event :=
  if s_fd s =? -1 then
    EvAuthenticate i (chars "postgres") (resolved config s) ::
    (if (pgexporter_server_authenticate i (chars "postgres") (resolved config s)).1
          =? AUTH_SUCCESS
     then [] else [EvLogError i])
  else [].

Definition opened (config : configuration) (i : nat) (s : server) : server :=
  if s_fd s =? -1 then
    mk_server (s_name s) (s_username s)
      (pgexporter_server_authenticate i (chars "postgres") (resolved config s)).2
  else s.

Fixpoint open_events (n : nat) (srv : nat) (config : configuration) : list event :=
  match n with
  | O => []
  | S n' =>
      match servers config !! srv with
      | Some s => opening config srv s ++ open_events n' (S srv) config
      | None => []
      end
  end.

End ConnectionsSpec.

(** An authenticator that accepts every credential it is handed, opening
    descriptor [10 + srv], and refuses when there is none; [AUTH_SUCCESS]
    is 0. *)
Definition auth_any (srv : nat) (database : list Z) (cred : option user) : Z * Z :=
  match cred with
  | Some _ => (0, 10 + Z.of_nat srv)
  | None => (1, -1)
  end.

(** Two lists with no name in common: [("x","1")] at node 1 and
    [("y","2"); ("z","3")] at nodes 2 and 3, the rows at 11 to 13. *)
Definition example_x : list (positive * tuple) := [(1%positive, row "x" "1")].

Definition example_yz : list (positive * tuple) :=
  [(2%positive, row "y" "2"); (3%positive, row "z" "3")].

Definition example_heap_xyz : heap :=
  mk_heap
    (list_to_map
       [(1%positive, mk_tuples (Some 11%positive) None);
        (2%positive, mk_tuples (Some 12%positive) (Some 3%positive));
        (3%positive, mk_tuples (Some 13%positive) None)])
    (list_to_map
       [(11%positive, row "x" "1"); (12%positive, row "y" "2");
        (13%positive, row "z" "3")]).

(** The bytes line 237 appends for one answer of the transport: the first
    [msg->length] bytes of [msg->data]. *)
Definition unit_bytes (r : Z * option message) : list Z :=
  match r.2 with
  | Some m => take (m_length m) (default [] (m_data m))
  | None => []
  end.

(* ================================================================== *)
(** * Properties *)

(** ** Heap chains *)

Lemma lseg_app h p l1 q l2 r :
  lseg h p l1 q → lseg h q l2 r → lseg h p (l1 ++ l2) r.
Proof.
  revert p. induction l1 as [|c l1 IH]; simpl; intros p.
  - by intros ->.
  - intros [-> (n & Hn & Ht & Hl)] H2. split; [done|]. eauto.
Qed.

Lemma lseg_split h p l1 l2 r :
  lseg h p (l1 ++ l2) r → ∃ q, lseg h p l1 q ∧ lseg h q l2 r.
Proof.
  revert p. induction l1 as [|c l1 IH]; simpl; intros p.
  - eauto.
  - intros [-> (n & Hn & Ht & Hl)]. destruct (IH _ Hl) as (q & H1 & H2).
    exists q. split; [|done]. split; [done|]. eauto.
Qed.

Lemma lseg_frame h h' p l q :
  h_tuple h ⊆ h_tuple h' →
  (∀ x, x ∈ l.*1 → h_tuples h' !! x = h_tuples h !! x) →
  lseg h p l q → lseg h' p l q.
Proof.
  intros Ht. revert p. induction l as [|c l IH]; simpl; intros p Hs; [done|].
  intros [-> (n & Hn & Hr & Hl)]. split; [done|]. exists n.
  split; [rewrite Hs; [done|left]|].
  split.
  { unfold load_tuple in *. destruct (tuple_p n) as [y|]; [|done]. simpl in *.
    by eapply lookup_weaken. }
  apply IH; [|done]. intros x Hx. apply Hs. by right.
Qed.

Lemma lseg_end h c l q :
  lseg h (Some c.1) (c :: l) q →
  ∃ n, h_tuples h !! end_of c.1 l = Some n ∧ next n = q.
Proof.
  revert c. induction l as [|d l IH]; intros c; simpl.
  - intros [_ (n & Hn & _ & <-)]. eauto.
  - intros [_ (n & Hn & _ & Hd & Hl)]. apply IH. simpl. by split.
Qed.

Lemma end_of_elem x l : end_of x l ∈ x :: l.*1.
Proof.
  revert x. induction l as [|c l IH]; intros x; simpl; [left|].
  right. apply IH.
Qed.

Lemma lseg_name h c l q :
  lseg h (Some c.1) (c :: l) q → name_at h (Some c.1) = Some (cell_name c).
Proof.
  simpl. intros [_ (n & Hn & Ht & _)].
  unfold name_at, load_tuples. simpl. rewrite Hn. simpl. by rewrite Ht.
Qed.

Lemma lseg_next h c l q :
  lseg h (Some c.1) (c :: l) q →
  ∃ p, next_at h (Some c.1) = Some p ∧ lseg h p l q.
Proof.
  simpl. intros [_ (n & Hn & Ht & Hl)]. exists (next n).
  unfold next_at, load_tuples. simpl. by rewrite Hn.
Qed.

Lemma lseg_head h p c l q : lseg h p (c :: l) q → p = Some c.1.
Proof. by intros [-> _]. Qed.

Lemma store_next_eq h x n q :
  h_tuples h !! x = Some n →
  store_next h (Some x) q =
    Some (mk_heap (<[x := mk_tuples (tuple_p n) q]> (h_tuples h)) (h_tuple h)).
Proof. intros H. unfold store_next. simpl. by rewrite H. Qed.

Lemma lseg_relink h c l q q' n :
  NoDup (c :: l).*1 →
  lseg h (Some c.1) (c :: l) q →
  h_tuples h !! end_of c.1 l = Some n →
  lseg (mk_heap (<[end_of c.1 l := mk_tuples (tuple_p n) q']> (h_tuples h)) (h_tuple h))
       (Some c.1) (c :: l) q'.
Proof.
  revert c. induction l as [|d l IH]; intros c Hnd Hl He.
  - simpl in *. destruct Hl as [_ (m & Hm & Ht & _)]. split; [done|].
    exists (mk_tuples (tuple_p n) q'). rewrite lookup_insert_eq.
    assert (m = n) as -> by congruence. done.
  - destruct Hl as [_ (m & Hm & Ht & Hl)].
    pose proof (lseg_head _ _ _ _ _ Hl) as Hd. rewrite Hd in Hl.
    split; [done|]. exists m. simpl.
    rewrite fmap_cons in Hnd. apply NoDup_cons in Hnd as [Hc Hnd].
    rewrite lookup_insert_ne; last first.
    { intros E. apply Hc. rewrite <- E. apply end_of_elem. }
    split; [done|]. split; [done|]. rewrite Hd. by apply IH.
Qed.

(** ** The pass of the specification *)

Section MergeSpecFacts.
Context {A : Type} (key : A → list Z).

Lemma run_after_app (bn : A) l : run_of key bn l ++ after_run key bn l = l.
Proof.
  induction l as [|y l IH]; simpl; [done|].
  destruct (same_name key y bn); simpl; [by rewrite IH|done].
Qed.

Lemma splice_walk_hit x a' bn b' :
  same_name key x bn = true →
  splice_walk key (x :: a') (bn :: b') =
    walked (x :: run_of key bn a') (splice_walk key (bn :: after_run key bn a') b').
Proof. intros H. simp splice_walk. by rewrite H. Qed.

Lemma splice_walk_miss x a' bn b' :
  same_name key x bn = false →
  splice_walk key (x :: a') (bn :: b') = walked [x] (splice_walk key a' (bn :: b')).
Proof. intros H. simp splice_walk. by rewrite H. Qed.

Lemma splice_walk_nil_r a : splice_walk key a [] = (a, []).
Proof.
  induction a as [|x a IH]; simp splice_walk; [done|].
  rewrite IH. done.
Qed.

End MergeSpecFacts.

(** ** The loops of [pgexporter_merge_tuples] against the pass *)

Lemma merge_run_spec h ct2 bn fuel c a' :
  name_at h ct2 = Some (cell_name bn) →
  lseg h (Some c.1) (c :: a') None →
  (length a' < fuel)%nat →
  merge_run fuel h (Some c.1) ct2 =
    Some (Some (end_of c.1 (run_of cell_name bn a'))).
Proof.
  intros Hb. revert c fuel. induction a' as [|d a' IH]; intros c fuel Hl Hf.
  - destruct fuel; [simpl in Hf; lia|].
    destruct (lseg_next _ _ _ _ Hl) as (p & Hp & Hl').
    simpl. rewrite Hp. simpl in *. by subst p.
  - destruct fuel; [simpl in Hf; lia|].
    destruct (lseg_next _ _ _ _ Hl) as (p & Hp & Hl').
    pose proof (lseg_head _ _ _ _ _ Hl') as ->.
    cbn [merge_run]. rewrite Hp. cbn [mbind option_bind].
    rewrite (lseg_name _ _ _ _ Hl'), Hb. cbn [mbind option_bind run_of].
    unfold same_name. destruct (streq (cell_name d) (cell_name bn)); [|done].
    cbn [end_of]. apply IH; [done|simpl in Hf; lia].
Qed.

Lemma last_of_end x l1 l2 :
  last_of (Some (end_of x l1)) l2 = Some (end_of x (l1 ++ l2)).
Proof.
  revert x. induction l1 as [|c l1 IH]; intros x; simpl.
  - by destruct l2.
  - apply IH.
Qed.

Lemma links_only_refl h : links_only h h.
Proof. by split. Qed.

Lemma links_only_trans h1 h2 h3 :
  links_only h1 h2 → links_only h2 h3 → links_only h1 h3.
Proof.
  intros [E1 F1] [E2 F2]. split; [congruence|].
  intros x. by rewrite F2, F1.
Qed.

Lemma links_only_store h x n q :
  h_tuples h !! x = Some n →
  links_only h (mk_heap (<[x := mk_tuples (tuple_p n) q]> (h_tuples h)) (h_tuple h)).
Proof.
  intros Hn. split; [done|]. intros y. simpl.
  destruct (decide (x = y)) as [->|Hne].
  - by rewrite lookup_insert_eq, Hn.
  - by rewrite lookup_insert_ne.
Qed.

Lemma merge_walk_spec fuel : ∀ a b h ct1 ct2 last,
  lseg h ct1 a None → lseg h ct2 b None → NoDup (a ++ b).*1 →
  (length a + length b < fuel)%nat →
  ∃ h' ct2',
    merge_walk fuel h ct1 ct2 last
      = Some (h', last_of last (splice_walk cell_name a b).1, ct2') ∧
    lseg h' ct1 (splice_walk cell_name a b).1 None ∧
    lseg h' ct2' (splice_walk cell_name a b).2 None ∧
    links_only h h' ∧ same_outside (a ++ b) h h'.
Proof.
  induction fuel as [|f IH]; intros a b h ct1 ct2 last Ha Hb Hnd Hf; [lia|].
  destruct a as [|c a'].
  { simpl in Ha. subst ct1. exists h, ct2. simp splice_walk. simpl.
    split; [done|]. split; [done|]. split; [done|].
    split; [apply links_only_refl|]. by intros x _. }
  pose proof (lseg_head _ _ _ _ _ Ha) as ->.
  (* a step that does not match: the cursor moves on by one node *)
  assert (splice_walk cell_name (c :: a') b = walked [c] (splice_walk cell_name a' b) →
          (match ct2 with
           | None => Some false
           | Some _ => n1 ← name_at h (Some c.1); n2 ← name_at h ct2;
                       Some (streq n1 n2)
           end) = Some false →
          ∃ h' ct2',
            merge_walk (S f) h (Some c.1) ct2 last
              = Some (h', last_of last (splice_walk cell_name (c :: a') b).1, ct2') ∧
            lseg h' (Some c.1) (splice_walk cell_name (c :: a') b).1 None ∧
            lseg h' ct2' (splice_walk cell_name (c :: a') b).2 None ∧
            links_only h h' ∧ same_outside ((c :: a') ++ b) h h') as Hmiss.
  { intros Hsw Hhit. rewrite Hsw.
    destruct (lseg_next _ _ _ _ Ha) as (p & Hp & Ha').
    simpl in Hnd. apply NoDup_cons in Hnd as [Hc Hnd].
    destruct (IH a' b h p ct2 (Some c.1) Ha' Hb Hnd) as
      (h' & ct2' & Hw & Hl1 & Hl2 & Hlk & Hso); [simpl in Hf; lia|].
    exists h', ct2'. cbn [merge_walk]. rewrite Hhit. cbn [mbind option_bind].
    rewrite Hp. cbn [mbind option_bind]. rewrite Hw.
    split; [unfold walked; simpl; by destruct (splice_walk cell_name a' b).1|].
    split.
    { unfold walked. simpl. split; [done|].
      destruct Ha as [_ (n & Hn & Ht & Hl)]. exists n.
      rewrite (Hso _ Hc). split; [done|].
      split; [unfold load_tuple in *; by rewrite (proj1 Hlk)|].
      unfold next_at, load_tuples in Hp. simpl in Hp. rewrite Hn in Hp.
      simpl in Hp. by injection Hp as ->. }
    split; [done|]. split; [done|].
    intros x Hx. apply Hso. simpl in Hx. set_solver. }
  destruct b as [|bn b'].
  { simpl in Hb. subst ct2. apply Hmiss; [|done]. by simp splice_walk. }
  pose proof (lseg_head _ _ _ _ _ Hb) as ->.
  pose proof (lseg_name _ _ _ _ Ha) as Hn1.
  pose proof (lseg_name _ _ _ _ Hb) as Hn2.
  destruct (same_name cell_name c bn) eqn:Hsame; last first.
  { apply Hmiss; [by apply splice_walk_miss|].
    rewrite Hn1, Hn2. simpl. by rewrite <- Hsame. }
  clear Hmiss.
  rewrite (splice_walk_hit _ _ _ _ _ Hsame).
  set (run := run_of cell_name bn a').
  set (rest := after_run cell_name bn a').
  set (W := splice_walk cell_name (bn :: rest) b').
  assert (a' = run ++ rest) as Ea by (symmetry; apply run_after_app).
  assert (length a' = length run + length rest)%nat as Elen
    by (rewrite Ea at 1; apply length_app).
  assert (Hrun : merge_run (S f) h (Some c.1) (Some bn.1) = Some (Some (end_of c.1 run))).
  { apply (merge_run_spec h _ bn); [done|done|simpl in Hf; lia]. }
  set (e := end_of c.1 run) in *.
  assert (He : e ∈ (c :: run).*1) by apply end_of_elem.
  (* the addresses are pairwise distinct *)
  rewrite Ea in Hnd. rewrite !fmap_app, !fmap_cons, !fmap_app in Hnd.
  change (c.1 :: (run.*1 ++ rest.*1) ++ bn.1 :: b'.*1)
    with (((c :: run).*1 ++ rest.*1) ++ (bn :: b').*1) in Hnd.
  pose proof (proj1 (NoDup_app ((c :: run).*1 ++ rest.*1) (bn :: b').*1) Hnd)
    as (Hnd1 & Hd1 & Hnd2).
  pose proof (proj1 (NoDup_app (c :: run).*1 rest.*1) Hnd1)
    as (Hnd11 & Hd11 & Hnd12).
  pose proof Hnd2 as Hnd2'. rewrite fmap_cons in Hnd2'.
  apply NoDup_cons in Hnd2' as [Hbn Hndb'].
  (* the chain of [a] splits at the end of the run *)
  rewrite Ea in Ha. change (c :: run ++ rest) with ((c :: run) ++ rest) in Ha.
  destruct (lseg_split _ _ _ _ _ Ha) as (q & Har & Hrest).
  destruct (lseg_end _ _ _ _ Har) as (ne & Hne & Hq). fold e in Hne.
  destruct Hb as [_ (nb & Hnb & Htb & Hb')].
  assert (Hebn : e ≠ bn.1).
  { intros E. apply (Hd1 e); [set_solver|]. rewrite E. set_solver. }
  set (h1 := mk_heap (<[e := mk_tuples (tuple_p ne) (Some bn.1)]> (h_tuples h)) (h_tuple h)).
  set (h2 := mk_heap (<[bn.1 := mk_tuples (tuple_p nb) q]> (h_tuples h1)) (h_tuple h)).
  assert (Hs1 : store_next h (Some e) (Some bn.1) = Some h1) by by apply store_next_eq.
  assert (Hs2 : store_next h1 (Some bn.1) q = Some h2).
  { rewrite (store_next_eq h1 bn.1 nb); [done|]. simpl. by rewrite lookup_insert_ne. }
  assert (Hlk2 : links_only h h2).
  { eapply links_only_trans; [by apply (links_only_store h e ne)|].
    apply (links_only_store h1 bn.1 nb). simpl. by rewrite lookup_insert_ne. }
  assert (Hout2 : ∀ x, x ≠ e → x ≠ bn.1 → h_tuples h2 !! x = h_tuples h !! x).
  { intros x ? ?. simpl. by rewrite !lookup_insert_ne. }
  (* the chains in the heap after the splice *)
  assert (Hbn2 : lseg h2 (Some bn.1) (bn :: rest) None).
  { split; [done|]. exists (mk_tuples (tuple_p nb) q). simpl.
    rewrite lookup_insert_eq. split; [done|]. split; [done|].
    eapply lseg_frame; [| |exact Hrest]; [done|].
    intros x Hx. apply Hout2.
    - intros ->. by apply (Hd11 e).
    - intros ->. apply (Hd1 bn.1); set_solver. }
  assert (Hb2 : lseg h2 (next nb) b' None).
  { eapply lseg_frame; [| |exact Hb']; [done|].
    intros x Hx. apply Hout2.
    - intros ->. apply (Hd1 e); set_solver.
    - intros ->. done. }
  assert (Har2 : lseg h2 (Some c.1) (c :: run) (Some bn.1)).
  { eapply (lseg_frame h1); [done| |by apply (lseg_relink h c run q)].
    intros x Hx. simpl. rewrite lookup_insert_ne; [done|].
    intros <-. apply (Hd1 bn.1); set_solver. }
  destruct (IH (bn :: rest) b' h2 (Some bn.1) (next nb) (Some e) Hbn2 Hb2) as
    (h' & ct2' & Hw & Hl1 & Hl2 & Hlk & Hso).
  { rewrite fmap_app, fmap_cons. apply NoDup_cons. split.
    - intros [Hx|Hx]%elem_of_app; [|done]. apply (Hd1 bn.1); set_solver.
    - apply NoDup_app. split; [done|]. split; [|done].
      intros x Hx Hx'. apply (Hd1 x); set_solver. }
  { simpl in Hf |- *. lia. }
  fold W in Hw, Hl1, Hl2.
  exists h', ct2'. cbn [merge_walk]. rewrite Hn1, Hn2. cbn [mbind option_bind].
  unfold same_name in Hsame. rewrite Hsame. rewrite Hrun. cbn [mbind option_bind].
  assert (next_at h (Some e) = Some q) as ->.
  { unfold next_at, load_tuples. simpl. rewrite Hne. simpl. by rewrite Hq. }
  assert (next_at h (Some bn.1) = Some (next nb)) as ->.
  { unfold next_at, load_tuples. simpl. by rewrite Hnb. }
  cbn [mbind option_bind]. rewrite Hs1. cbn [mbind option_bind].
  rewrite Hs2. cbn [mbind option_bind].
  assert (next_at h2 (Some e) = Some (Some bn.1)) as ->.
  { unfold next_at, load_tuples. simpl.
    by rewrite lookup_insert_ne, lookup_insert_eq. }
  cbn [mbind option_bind]. rewrite Hw.
  split.
  { unfold walked. cbn [fst snd]. do 3 f_equal.
    change (c :: run ++ W.1) with (c :: (run ++ W.1)). cbn [last_of].
    unfold e. apply last_of_end. }
  split.
  { unfold walked. cbn [fst]. change (c :: run ++ W.1) with ((c :: run) ++ W.1).
    eapply lseg_app; [|exact Hl1].
    eapply lseg_frame; [| |exact Har2]; [by rewrite (proj1 Hlk)|].
    intros x Hx. apply Hso. rewrite fmap_app, fmap_cons.
    intros [->|[Hx'|Hx']%elem_of_app]%elem_of_cons.
    - apply (Hd1 bn.1); set_solver.
    - by apply (Hd11 x).
    - apply (Hd1 x); set_solver. }
  split; [done|].
  split; [by eapply links_only_trans|].
  intros x Hx. rewrite Hso, Hout2; [done| | |].
  - intros ->. apply Hx. rewrite Ea. rewrite !fmap_app, !fmap_cons, !fmap_app.
    rewrite fmap_cons in He. set_solver.
  - intros ->. apply Hx. rewrite !fmap_app, !fmap_cons. set_solver.
  - intros Hx'. apply Hx. rewrite Ea. rewrite !fmap_app, !fmap_cons, !fmap_app.
    rewrite fmap_app, fmap_cons in Hx'. set_solver.
Qed.

Lemma store_next_id h x q :
  next_at h (Some x) = Some q → store_next h (Some x) q = Some h.
Proof.
  unfold next_at, load_tuples, store_next. simpl.
  destruct (h_tuples h !! x) as [n|] eqn:Hn; simpl; [|done].
  intros [= <-]. f_equal. destruct h as [hn ht]. simpl in *. f_equal.
  apply insert_id. by destruct n.
Qed.

Lemma merge_tail_linked fuel : ∀ r h e ct2,
  next_at h (Some e) = Some ct2 → lseg h ct2 r None → (length r < fuel)%nat →
  merge_tail fuel h (Some e) ct2 = Some h.
Proof.
  induction fuel as [|f IH]; intros r h e ct2 He Hr Hf; [lia|].
  destruct r as [|c r].
  - simpl in Hr. by subst ct2.
  - pose proof (lseg_head _ _ _ _ _ Hr) as ->.
    destruct (lseg_next _ _ _ _ Hr) as (p & Hp & Hr').
    cbn [merge_tail]. rewrite (store_next_id _ _ _ He). cbn [mbind option_bind].
    rewrite He, Hp. cbn [mbind option_bind].
    apply (IH r); [done|done|simpl in Hf; lia].
Qed.

Lemma merge_tail_spec fuel h e n c r :
  h_tuples h !! e = Some n → lseg h (Some c.1) (c :: r) None → e ∉ (c :: r).*1 →
  (length (c :: r) < fuel)%nat →
  merge_tail fuel h (Some e) (Some c.1) =
    Some (mk_heap (<[e := mk_tuples (tuple_p n) (Some c.1)]> (h_tuples h)) (h_tuple h)).
Proof.
  intros Hn Hr He Hf.
  set (h' := mk_heap (<[e := mk_tuples (tuple_p n) (Some c.1)]> (h_tuples h)) (h_tuple h)).
  assert (Hs : store_next h (Some e) (Some c.1) = Some h') by by apply store_next_eq.
  assert (He' : next_at h' (Some e) = Some (Some c.1)).
  { unfold next_at, load_tuples. simpl. by rewrite lookup_insert_eq. }
  assert (Hr' : lseg h' (Some c.1) (c :: r) None).
  { eapply lseg_frame; [| |exact Hr]; [done|].
    intros x Hx. simpl. rewrite lookup_insert_ne; [done|]. by intros <-. }
  etrans; [|exact (merge_tail_linked fuel (c :: r) h' e (Some c.1) He' Hr' Hf)].
  destruct fuel as [|f]; [done|]. cbn [merge_tail].
  by rewrite Hs, (store_next_id _ _ _ He').
Qed.

Section MergeSpecPerm.
Context {A : Type} (key : A → list Z).

Lemma splice_walk_perm (a b : list A) :
  (splice_walk key a b).1 ++ (splice_walk key a b).2 ≡ₚ a ++ b.
Proof.
  funelim (splice_walk key a b); simp splice_walk.
  - done.
  - simpl. by rewrite H.
  - unfold walked. cbn [fst snd]. rewrite <- app_assoc, H.
    transitivity ((x :: run_of key bn a' ++ after_run key bn a') ++ bn :: b');
      [|by rewrite run_after_app].
    simpl. constructor.
    rewrite <- app_assoc. apply Permutation_app_head, Permutation_middle.
  - simpl. by rewrite H.
Qed.

Lemma splice_walk_cons x a b : (splice_walk key (x :: a) b).1 ≠ [].
Proof.
  destruct b as [|bn b]; simp splice_walk; [done|].
  by destruct (same_name key x bn).
Qed.

End MergeSpecPerm.

(** The whole of [pgexporter_merge_tuples] refines [merge_list]: on two
    separate chains it returns, within the fuel their lengths ask for, the
    head of a chain that holds [merge_list] of the two lists, having
    changed [next] links of their nodes only. *)
Lemma merge_refines fuel h t1 t2 a b :
  lseg h t1 a None → lseg h t2 b None → NoDup (a ++ b).*1 →
  (length a + length b < fuel)%nat →
  ∃ h', pgexporter_merge_tuples fuel h t1 t2
          = Some (h', match t1 with None => t2 | Some _ => t1 end) ∧
        lseg h' (match t1 with None => t2 | Some _ => t1 end)
             (merge_list cell_name a b) None ∧
        links_only h h' ∧ same_outside (a ++ b) h h'.
Proof.
  intros Ha Hb Hnd Hf.
  destruct a as [|c a'].
  { simpl in Ha. subst t1. exists h. simpl.
    split; [done|]. split; [done|]. split; [apply links_only_refl|]. by intros x _. }
  pose proof (lseg_head _ _ _ _ _ Ha) as ->.
  destruct b as [|bn b'].
  { simpl in Hb. subst t2. exists h. cbn [pgexporter_merge_tuples merge_list].
    split; [done|]. split; [done|]. split; [apply links_only_refl|]. by intros x _. }
  pose proof (lseg_head _ _ _ _ _ Hb) as ->.
  destruct (merge_walk_spec fuel _ _ _ _ _ None Ha Hb Hnd Hf)
    as (h1 & ct2' & Hw & Hl1 & Hl2 & Hlk & Hso).
  pose proof (splice_walk_perm cell_name (c :: a') (bn :: b')) as Hperm.
  pose proof (splice_walk_cons cell_name c a' (bn :: b')) as Hne.
  cbn [pgexporter_merge_tuples merge_list]. rewrite Hw. cbn [mbind option_bind].
  destruct (splice_walk cell_name (c :: a') (bn :: b')) as [w r]. cbn [fst snd] in *.
  destruct w as [|d w]; [done|]. clear Hne.
  pose proof (lseg_head _ _ _ _ _ Hl1) as Ed. rewrite Ed in Hl1 |- *.
  cbn [last_of].
  assert (Hlen : (length (d :: w) + length r < fuel)%nat).
  { apply Permutation_length in Hperm. rewrite !length_app in Hperm. lia. }
  assert (Hnd' : NoDup ((d :: w) ++ r).*1).
  { by rewrite Hperm. }
  assert (Hsub : ∀ x, x ∈ ((d :: w) ++ r).*1 → x ∈ ((c :: a') ++ bn :: b').*1).
  { intros x. by rewrite Hperm. }
  destruct r as [|r0 r].
  { simpl in Hl2. subst ct2'. exists h1.
    destruct fuel as [|f]; [lia|]. cbn [merge_tail mbind option_bind].
    rewrite app_nil_r. done. }
  pose proof (lseg_head _ _ _ _ _ Hl2) as ->.
  destruct (lseg_end _ _ _ _ Hl1) as (ne & Hne & _).
  rewrite fmap_app in Hnd'.
  apply NoDup_app in Hnd' as (Hndw & Hdis & Hndr).
  pose proof (end_of_elem d.1 w) as He.
  rewrite (merge_tail_spec fuel h1 _ ne r0 r Hne Hl2);
    [|by apply Hdis|simpl in Hlen |- *; lia].
  cbn [mbind option_bind]. eexists. split; [done|].
  split.
  { eapply lseg_app.
    - by apply (lseg_relink h1 d w None).
    - eapply lseg_frame; [| |exact Hl2]; [done|].
      intros x Hx. simpl. rewrite lookup_insert_ne; [done|].
      intros <-. by apply (Hdis (end_of d.1 w)). }
  split.
  { eapply links_only_trans; [exact Hlk|]. by apply links_only_store. }
  intros x Hx. simpl. rewrite lookup_insert_ne; [by apply Hso|].
  intros <-. apply Hx, Hsub. rewrite fmap_app. apply elem_of_app. by left.
Qed.

(** ** Names are compared as C strings *)

Lemma strcmp_text a b : strcmp (text a) (text b) = strcmp a b.
Proof.
  revert b. induction a as [|x a IH]; intros [|y b]; cbn [strcmp text]; try done.
  - destruct (Z.eqb_spec y 0) as [->|?]; done.
  - destruct (Z.eqb_spec x 0) as [->|?]; done.
  - destruct (Z.eqb_spec x 0) as [->|Hx], (Z.eqb_spec y 0) as [->|Hy];
      cbn [strcmp].
    + done.
    + destruct (Z.eqb_spec 0 y); [lia|done].
    + destruct (Z.eqb_spec x 0); lia.
    + destruct (Z.eqb_spec x y); [|done].
      destruct (Z.eqb_spec x 0); [done|apply IH].
Qed.

Lemma streq_text a b : streq (text a) (text b) = streq a b.
Proof. unfold streq. by rewrite strcmp_text. Qed.

(** On two arrays that each hold a NUL, libc's comparison stays inside
    both and answers what [strcmp] answers. *)
Lemma strcmp_c_defined a b :
  0 ∈ a → 0 ∈ b → strcmp_c a b = Some (strcmp a b).
Proof.
  revert b. induction a as [|x a IH]; intros [|y b] Ha Hb;
    try (by apply elem_of_nil in Ha); try (by apply elem_of_nil in Hb).
  cbn [strcmp strcmp_c].
  destruct (Z.eqb_spec x y) as [->|Hne]; [|done].
  destruct (Z.eqb_spec y 0) as [->|Hy]; [done|].
  apply IH.
  - apply elem_of_cons in Ha as [?|?]; [lia|done].
  - apply elem_of_cons in Hb as [?|?]; [lia|done].
Qed.

Lemma strcmp_c_names {A} (key : A → list Z) (l : list A) :
  Forall (λ c, 0 ∈ key c) l →
  ∀ c d, c ∈ l → d ∈ l → strcmp_c (key c) (key d) = Some (strcmp (key c) (key d)).
Proof.
  intros Hall c d Hc Hd. rewrite Forall_forall in Hall.
  apply strcmp_c_defined; by apply Hall.
Qed.

(** ** The pass commutes with a view of the nodes that keeps names *)

Section MergeSpecMap.
Context {A B : Type} (f : A → B) (keyA : A → list Z) (keyB : B → list Z).
Hypothesis key_f : ∀ x y, same_name keyB (f x) (f y) = same_name keyA x y.

Lemma run_of_map bn l : run_of keyB (f bn) (map f l) = map f (run_of keyA bn l).
Proof.
  induction l as [|y l IH]; simpl; [done|]. rewrite key_f.
  destruct (same_name keyA y bn); simpl; by rewrite ?IH.
Qed.

Lemma after_run_map bn l :
  after_run keyB (f bn) (map f l) = map f (after_run keyA bn l).
Proof.
  induction l as [|y l IH]; simpl; [done|]. rewrite key_f.
  by destruct (same_name keyA y bn).
Qed.

Lemma splice_walk_map a b :
  splice_walk keyB (map f a) (map f b) =
    (map f (splice_walk keyA a b).1, map f (splice_walk keyA a b).2).
Proof.
  funelim (splice_walk keyA a b); simpl map.
  - by simp splice_walk.
  - simp splice_walk. simpl in H. by rewrite H.
  - rewrite splice_walk_hit by (by rewrite key_f).
    rewrite run_of_map, after_run_map.
    simpl in H. rewrite H. unfold walked. simpl. by rewrite map_app.
  - rewrite splice_walk_miss by (by rewrite key_f).
    simpl in H. rewrite H. done.
Qed.

Lemma merge_list_map a b :
  map f (merge_list keyA a b) = merge_list keyB (map f a) (map f b).
Proof.
  destruct a as [|x a]; [done|]. destruct b as [|bn b]; [done|].
  cbn [merge_list map].
  change (f x :: map f a) with (map f (x :: a)).
  change (f bn :: map f b) with (map f (bn :: b)).
  rewrite splice_walk_map. simpl. by rewrite map_app.
Qed.

End MergeSpecMap.

Lemma merge_list_perm {A} (key : A → list Z) a b : merge_list key a b ≡ₚ a ++ b.
Proof.
  destruct a as [|x a]; [done|]. destruct b as [|bn b]; [by rewrite app_nil_r|].
  apply splice_walk_perm.
Qed.

Lemma texts_merge_list a b :
  texts (merge_list cell_name a b) = merge_list fst (texts a) (texts b).
Proof.
  apply (merge_list_map _ cell_name fst). intros x y.
  unfold same_name, cell_name. simpl. apply streq_text.
Qed.

(** ** Claims on [pgexporter_merge_tuples] *)

(** C2.  On two non-empty lists, each grouped by name and held in separate
    chains, whose names are C strings (each [name] array holds a NUL, so
    that every [strcmp] of lines 141 and 143 stays inside the two arrays it
    is given), [pgexporter_merge_tuples] returns the head of [a], whose
    chain now holds the single left-to-right pass over [a] ([splice_walk]:
    on a name match the cursor runs to the end of the run, the node of [b]
    is spliced in right after it with the rest of [a] behind, and [b]
    advances) followed by what is left of [b], in its order.  In
    particular [("db1","10"); ("db1","11"); ("db2","20")] merged with
    [("db1","99")] gives [("db1","10"); ("db1","11"); ("db1","99");
    ("db2","20")]. *)
Theorem merge_group_splice fuel h t1 t2 a b :
  a ≠ [] → b ≠ [] →
  grouped cell_name a = true → grouped cell_name b = true →
  Forall (λ c, 0 ∈ cell_name c) (a ++ b) →
  lseg h t1 a None → lseg h t2 b None → NoDup (a ++ b).*1 →
  (length a + length b < fuel)%nat →
  ∃ h',
    pgexporter_merge_tuples fuel h t1 t2 = Some (h', t1) ∧
    lseg h' t1 ((splice_walk cell_name a b).1 ++ (splice_walk cell_name a b).2) None ∧
    links_only h h' ∧
    (texts a = [(chars "db1", chars "10"); (chars "db1", chars "11");
                (chars "db2", chars "20")] →
     texts b = [(chars "db1", chars "99")] →
     texts ((splice_walk cell_name a b).1 ++ (splice_walk cell_name a b).2) =
       [(chars "db1", chars "10"); (chars "db1", chars "11");
        (chars "db1", chars "99"); (chars "db2", chars "20")]) ∧
    (∀ c d, c ∈ a ++ b → d ∈ a ++ b →
       strcmp_c (cell_name c) (cell_name d)
         = Some (strcmp (cell_name c) (cell_name d))).
Proof.
  intros Ha0 Hb0 _ _ Hnul Ha Hb Hnd Hf.
  destruct (merge_refines fuel h t1 t2 a b Ha Hb Hnd Hf) as (h' & Hm & Hl & Hlk & _).
  assert (E : merge_list cell_name a b =
              (splice_walk cell_name a b).1 ++ (splice_walk cell_name a b).2).
  { destruct a; [done|]. by destruct b. }
  assert (Et : match t1 with None => t2 | Some _ => t1 end = t1).
  { destruct a as [|c a]; [done|]. by rewrite (lseg_head _ _ _ _ _ Ha). }
  rewrite Et in Hm, Hl. rewrite E in Hl.
  exists h'. split; [done|]. split; [done|]. split; [done|].
  split; [|by apply strcmp_c_names].
  intros Ta Tb. rewrite <- E, texts_merge_list, Ta, Tb. reflexivity.
Qed.

Lemma merge_group_splice_witness :
  ∃ h',
    pgexporter_merge_tuples 5 example_heap (Some 1%positive) (Some 4%positive)
      = Some (h', Some 1%positive) ∧
    lseg h' (Some 1%positive)
      [(1%positive, row "db1" "10"); (2%positive, row "db1" "11");
       (4%positive, row "db1" "99"); (3%positive, row "db2" "20")] None.
Proof.
  destruct (merge_group_splice 5 example_heap (Some 1%positive) (Some 4%positive)
              example_a example_b) as (h' & Hm & Hl & _).
  - discriminate.
  - discriminate.
  - reflexivity.
  - reflexivity.
  - apply (bool_decide_unpack _). vm_compute. exact I.
  - simpl. repeat (split; [reflexivity|]; eexists; split; [reflexivity|];
                   split; [reflexivity|]). reflexivity.
  - simpl. repeat (split; [reflexivity|]; eexists; split; [reflexivity|];
                   split; [reflexivity|]). reflexivity.
  - apply (bool_decide_unpack _). vm_compute. exact I.
  - simpl. lia.
  - exists h'. split; [exact Hm|exact Hl].
Defined.

(** C7.  [Merge(empty, X) = X] and [Merge(X, empty) = X]: with either
    argument [NULL] the other is returned and the heap is left as it is. *)
Theorem merge_empty_identity (fuel : nat) (h : heap) (X : ptr) :
  pgexporter_merge_tuples fuel h None X = Some (h, X) ∧
  pgexporter_merge_tuples fuel h X None = Some (h, X).
Proof. split; [done|]. by destruct X. Qed.

(** C9.  The chain [pgexporter_merge_tuples] returns holds exactly the
    nodes of [a] and of [b], each once, with the rows they had: the list
    is a permutation of [a ++ b] without a repeated address, so its length
    is the sum of the two lengths. *)
Theorem merge_keeps_every_node fuel h t1 t2 a b :
  grouped cell_name a = true → grouped cell_name b = true →
  lseg h t1 a None → lseg h t2 b None → NoDup (a ++ b).*1 →
  (length a + length b < fuel)%nat →
  ∃ h' r l,
    pgexporter_merge_tuples fuel h t1 t2 = Some (h', r) ∧
    lseg h' r l None ∧
    l ≡ₚ a ++ b ∧ NoDup l.*1 ∧ length l = (length a + length b)%nat.
Proof.
  intros _ _ Ha Hb Hnd Hf.
  destruct (merge_refines fuel h t1 t2 a b Ha Hb Hnd Hf) as (h' & Hm & Hl & _).
  pose proof (merge_list_perm cell_name a b) as Hp.
  eexists _, _, _. split; [exact Hm|]. split; [exact Hl|].
  split; [exact Hp|]. split; [by rewrite Hp|].
  by rewrite Hp, length_app.
Qed.

Lemma merge_keeps_every_node_witness :
  ∃ h' r l,
    pgexporter_merge_tuples 5 example_heap (Some 1%positive) (Some 4%positive)
      = Some (h', r) ∧
    lseg h' r l None ∧ l ≡ₚ example_a ++ example_b ∧ NoDup l.*1 ∧ length l = 4%nat.
Proof.
  apply (merge_keeps_every_node 5 example_heap (Some 1%positive) (Some 4%positive)
           example_a example_b).
  - reflexivity.
  - reflexivity.
  - simpl. repeat (split; [reflexivity|]; eexists; split; [reflexivity|];
                   split; [reflexivity|]). reflexivity.
  - simpl. repeat (split; [reflexivity|]; eexists; split; [reflexivity|];
                   split; [reflexivity|]). reflexivity.
  - apply (bool_decide_unpack _). vm_compute. exact I.
  - simpl. lia.
Defined.

(** ** Claims on the connection manager *)

Lemma close_loop_spec n : ∀ srv config trace,
  (srv + n ≤ length (servers config))%nat →
  ∃ config',
    close_loop n srv config trace
      = Some (config', trace ++ concat (map closing (take n (drop srv (servers config))))) ∧
    number_of_servers config' = number_of_servers config ∧
    length (servers config') = length (servers config) ∧
    ∀ i, servers config' !! i =
           if decide (srv ≤ i < srv + n)%nat
           then disconnected <$> servers config !! i
           else servers config !! i.
Proof.
  induction n as [|n IH]; intros srv config trace Hlen.
  { exists config. simpl. rewrite app_nil_r. repeat split; try done.
    intros i. case_decide; [lia|done]. }
  destruct (lookup_lt_is_Some_2 (servers config) srv) as [s Hs]; [lia|].
  cbn [close_loop]. rewrite Hs. cbn [mbind option_bind].
  rewrite (drop_S _ _ _ Hs). cbn [take map concat].
  destruct (Z.eqb_spec (s_fd s) (-1)) as [Hfd|Hfd]; cbn [negb].
  - destruct (IH (S srv) config trace) as (config' & Hc & Hn & Hl & Hi); [lia|].
    exists config'. rewrite Hc. unfold closing at 2.
    destruct (Z.eqb_spec (s_fd s) (-1)); [|done]. simpl.
    repeat split; try done. intros i. rewrite Hi.
    destruct (decide (i = srv)) as [->|Hne].
    + rewrite decide_False by lia. rewrite decide_True by lia.
      rewrite Hs. simpl. unfold disconnected. rewrite <- Hfd. by destruct s.
    + repeat case_decide; try done; lia.
  - destruct (IH (S srv) (set_fd config srv (-1))
                (trace ++ [EvWriteTerminate (s_fd s); EvDisconnect (s_fd s)]))
      as (config' & Hc & Hn & Hl & Hi).
    { simpl. rewrite length_alter. lia. }
    exists config'. rewrite Hc. simpl servers.
    rewrite drop_alter, decide_False by lia.
    unfold closing at 2. destruct (Z.eqb_spec (s_fd s) (-1)); [done|].
    rewrite <- app_assoc. split; [done|]. split; [done|].
    split; [by rewrite Hl; simpl; rewrite length_alter|].
    intros i. rewrite Hi. simpl servers.
    destruct (decide (i = srv)) as [->|Hne].
    + rewrite decide_False by lia. rewrite decide_True by lia.
      rewrite list_lookup_alter_eq. by rewrite Hs.
    + rewrite list_lookup_alter_ne by lia.
      repeat case_decide; try done; lia.
Qed.

(** C8.  After [pgexporter_close_connections] every configured backend is
    disconnected ([fd = -1], its other fields as they were); what was sent
    is, backend after backend, a termination frame and then the close of
    the channel, on the live descriptor, for the connected backends only;
    the entries that were disconnected already are as they were. *)
Theorem close_connections_all_disconnected (config : configuration) :
  (number_of_servers config ≤ length (servers config))%nat →
  ∃ config' trace,
    pgexporter_close_connections config = Some (config', trace) ∧
    (∀ i s, (i < number_of_servers config)%nat → servers config !! i = Some s →
       servers config' !! i = Some (mk_server (s_name s) (s_username s) (-1))) ∧
    trace = concat (map (λ s, if s_fd s =? -1 then []
                              else [EvWriteTerminate (s_fd s); EvDisconnect (s_fd s)])
                        (take (number_of_servers config) (servers config))) ∧
    (∀ i s, servers config !! i = Some s → s_fd s = -1 →
       servers config' !! i = Some s).
Proof.
  intros Hlen.
  destruct (close_loop_spec (number_of_servers config) 0 config []) as
    (config' & Hc & _ & _ & Hi); [simpl; lia|].
  exists config'. eexists. split; [exact Hc|].
  split; [|split; [done|]].
  - intros i s Hlt Hs. rewrite Hi, decide_True by lia. by rewrite Hs.
  - intros i s Hs Hfd. rewrite Hi. case_decide; [|done].
    rewrite Hs. simpl. unfold disconnected. rewrite <- Hfd. by destruct s.
Qed.

Lemma close_connections_all_disconnected_witness :
  ∃ config' trace,
    pgexporter_close_connections config_two = Some (config', trace) ∧
    servers config' !! 0%nat
      = Some (mk_server (cstring "primary") (cstring "alice") (-1)) ∧
    trace = [EvWriteTerminate 7; EvDisconnect 7].
Proof.
  destruct (close_connections_all_disconnected config_two) as
    (config' & trace & Hc & Hall & Htr & _).
  - simpl. lia.
  - exists config', trace. split; [exact Hc|]. split.
    + apply (Hall 0%nat (mk_server (cstring "primary") (cstring "alice") 7)).
      * simpl. lia.
      * reflexivity.
    + exact Htr.
Defined.

Lemma user_loop_no_match n : ∀ config name usr,
  (usr + n ≤ length (users config))%nat →
  (∀ i u, users config !! i = Some u → streq (u_username u) name = false) →
  user_loop n config name usr (-1) = Some (-1).
Proof.
  induction n as [|n IH]; intros config name usr Hlen Hno; [done|].
  destruct (lookup_lt_is_Some_2 (users config) usr) as [u Hu]; [lia|].
  cbn [user_loop]. rewrite Z.eqb_refl, Hu. cbn [mbind option_bind].
  rewrite (Hno _ _ Hu). apply IH; [lia|done].
Qed.

Section ConnectionsFacts.
Variable AUTH_SUCCESS : Z.
Variable pgexporter_server_authenticate : nat → list Z → option user → Z * Z.

Lemma user_loop_total n : ∀ config name usr user,
  (usr + n ≤ length (users config))%nat →
  is_Some (user_loop n config name usr user).
Proof.
  induction n as [|n IH]; intros config name usr user Hlen; [by eexists|].
  destruct (lookup_lt_is_Some_2 (users config) usr) as [u Hu]; [lia|].
  cbn [user_loop]. destruct (user =? -1); [|by eexists].
  rewrite Hu. cbn [mbind option_bind]. apply IH. lia.
Qed.

(** The loop over the backends runs to its end and only adds to the trace. *)
Lemma open_loop_total n : ∀ srv config trace,
  (srv + n ≤ length (servers config))%nat →
  (number_of_users config ≤ length (users config))%nat →
  ∃ config' more,
    open_loop AUTH_SUCCESS pgexporter_server_authenticate n srv config trace
      = Some (config', trace ++ more).
Proof.
  induction n as [|n IH]; intros srv config trace Hs Hu.
  { exists config, []. by rewrite app_nil_r. }
  destruct (lookup_lt_is_Some_2 (servers config) srv) as [s Hsrv]; [lia|].
  cbn [open_loop]. rewrite Hsrv. cbn [mbind option_bind].
  destruct (s_fd s =? -1); [|apply IH; [lia|done]].
  destruct (user_loop_total (number_of_users config) config (s_username s) 0 (-1))
    as [user Huser]; [simpl; lia|].
  rewrite Huser. cbn [mbind option_bind].
  destruct (pgexporter_server_authenticate srv (chars "postgres") (user_at config user))
    as [ret fd].
  destruct (IH (S srv) (set_fd config srv fd)
              (if ret =? AUTH_SUCCESS
               then trace ++ [EvAuthenticate srv (chars "postgres") (user_at config user)]
               else (trace ++ [EvAuthenticate srv (chars "postgres") (user_at config user)])
                      ++ [EvLogError srv]))
    as (config' & more & Ho); [simpl; rewrite length_alter; lia|done|].
  rewrite Ho. destruct (ret =? AUTH_SUCCESS); rewrite <- ?app_assoc; by eexists _, _.
Qed.

(** Whatever the configuration: a disconnected backend whose username no
    credential carries is not skipped, the authenticator is called for it
    with [&config->users[-1]]. *)
Lemma open_connections_no_credential config srv s :
  (number_of_servers config ≤ length (servers config))%nat →
  (number_of_users config ≤ length (users config))%nat →
  (srv < number_of_servers config)%nat →
  servers config !! srv = Some s → s_fd s = -1 →
  (∀ i u, users config !! i = Some u → streq (u_username u) (s_username s) = false) →
  ∃ config' trace,
    pgexporter_open_connections AUTH_SUCCESS pgexporter_server_authenticate config
      = Some (config', trace) ∧
    EvAuthenticate srv (chars "postgres") None ∈ trace.
Proof.
  intros Hs Hu Hlt Hsrv Hfd Hno. unfold pgexporter_open_connections.
  assert (∀ n i cfg trace,
            (i + n ≤ length (servers cfg))%nat → (i ≤ srv < i + n)%nat →
            users cfg = users config → number_of_users cfg = number_of_users config →
            servers cfg !! srv = Some s →
            ∃ config' trace',
              open_loop AUTH_SUCCESS pgexporter_server_authenticate n i cfg trace
                = Some (config', trace') ∧
              EvAuthenticate srv (chars "postgres") None ∈ trace') as Hgen.
  { induction n as [|n IH]; intros i cfg trace Hlen Hi Eu En Hsrv'; [lia|].
    destruct (decide (i = srv)) as [->|Hne].
    - cbn [open_loop]. rewrite Hsrv'. cbn [mbind option_bind].
      rewrite Hfd, Z.eqb_refl.
      rewrite (user_loop_no_match (number_of_users cfg) cfg (s_username s) 0);
        [|rewrite Eu, En; simpl; lia|by rewrite Eu].
      cbn [mbind option_bind]. change (user_at cfg (-1)) with (@None user).
      destruct (pgexporter_server_authenticate srv (chars "postgres") None) as [ret fd].
      destruct (open_loop_total n (S srv) (set_fd cfg srv fd)
                  (if ret =? AUTH_SUCCESS
                   then trace ++ [EvAuthenticate srv (chars "postgres") None]
                   else (trace ++ [EvAuthenticate srv (chars "postgres") None])
                          ++ [EvLogError srv]))
        as (config' & more & Ho);
        [simpl; rewrite length_alter; lia|simpl; rewrite Eu, En; lia|].
      rewrite Ho. eexists _, _. split; [done|].
      destruct (ret =? AUTH_SUCCESS); set_solver.
    - destruct (lookup_lt_is_Some_2 (servers cfg) i) as [si Hsi]; [lia|].
      cbn [open_loop]. rewrite Hsi. cbn [mbind option_bind].
      destruct (s_fd si =? -1); [|apply IH; [lia|lia|done|done|done]].
      destruct (user_loop_total (number_of_users cfg) cfg (s_username si) 0 (-1))
        as [user Huser]; [rewrite Eu, En; simpl; lia|].
      rewrite Huser. cbn [mbind option_bind].
      destruct (pgexporter_server_authenticate i (chars "postgres") (user_at cfg user))
        as [ret fd].
      apply IH; [simpl; rewrite length_alter; lia|lia|done|done|].
      simpl. by rewrite list_lookup_alter_ne. }
  apply Hgen; [simpl; lia|lia|done|done|done].
Qed.

End ConnectionsFacts.

(** C1, at the failing input.  With one disconnected backend whose username
    no credential carries, [pgexporter_open_connections] does call the
    authenticator for that backend, with [&config->users[-1]] for the
    credential: it is not skipped. *)
Theorem open_connections_unmatched_authenticates
    (AUTH_SUCCESS : Z)
    (pgexporter_server_authenticate : nat → list Z → option user → Z * Z) :
  ∃ config' trace,
    pgexporter_open_connections AUTH_SUCCESS pgexporter_server_authenticate
      config_unmatched = Some (config', trace) ∧
    user_loop 1 config_unmatched (cstring "alice") 0 (-1) = Some (-1) ∧
    EvAuthenticate 0 (chars "postgres") None ∈ trace.
Proof.
  assert (E : pgexporter_open_connections AUTH_SUCCESS pgexporter_server_authenticate
                config_unmatched =
              let '(ret, fd) :=
                pgexporter_server_authenticate 0%nat (chars "postgres") None in
              Some (set_fd config_unmatched 0 fd,
                    if ret =? AUTH_SUCCESS
                    then [EvAuthenticate 0 (chars "postgres") None]
                    else [EvAuthenticate 0 (chars "postgres") None; EvLogError 0]))
    by reflexivity.
  rewrite E.
  destruct (pgexporter_server_authenticate 0%nat (chars "postgres") None) as [ret fd].
  eexists _, _. split; [reflexivity|]. split; [reflexivity|].
  destruct (ret =? AUTH_SUCCESS); [apply list_elem_of_singleton; reflexivity|left].
Qed.

(** ** Claims on [pgexporter_free_tuples] *)

Lemma owned_frame h h' p l :
  (∀ x, x ∈ l.*1 → h_tuples h' !! x = h_tuples h !! x) →
  (∀ y, y ∈ l.*2 → h_tuple h' !! y = h_tuple h !! y) →
  owned h p l → owned h' p l.
Proof.
  revert p. induction l as [|c l IH]; simpl; intros p H1 H2; [done|].
  intros [-> (n & Hn & Hp & Ht & Hl)]. split; [done|]. exists n.
  split; [rewrite H1; [done|left]|]. split; [done|].
  split; [rewrite H2; [done|left]|].
  apply IH; [| |done]; intros z Hz; [apply H1|apply H2]; by right.
Qed.

Lemma free_loop_spec : ∀ l fuel h p,
  owned h p l → NoDup l.*1 → NoDup l.*2 → (length l ≤ fuel)%nat →
  ∃ h', free_loop fuel h p = Some h' ∧
        (∀ x, h_tuples h' !! x = if decide (x ∈ l.*1) then None else h_tuples h !! x) ∧
        (∀ y, h_tuple h' !! y = if decide (y ∈ l.*2) then None else h_tuple h !! y).
Proof.
  induction l as [|c l IH]; intros fuel h p Ho Hn1 Hn2 Hf.
  { simpl in Ho. subst p. exists h. split; [by destruct fuel|].
    split; intros z; by rewrite decide_False by apply not_elem_of_nil. }
  destruct Ho as [-> (n & Hn & Hp & [t Ht] & Hl)].
  destruct fuel as [|fuel]; [simpl in Hf; lia|].
  rewrite fmap_cons in Hn1, Hn2.
  apply NoDup_cons in Hn1 as [Hc1 Hn1]. apply NoDup_cons in Hn2 as [Hc2 Hn2].
  set (h2 := mk_heap (delete c.1 (h_tuples h)) (delete c.2 (h_tuple h))).
  destruct (IH fuel h2 (next n)) as (h' & Hfree & H1 & H2); [|done|done|simpl in Hf; lia|].
  { eapply owned_frame; [| |exact Hl]; intros z Hz; simpl;
      rewrite lookup_delete_ne; try done; by intros <-. }
  exists h'. cbn [free_loop]. unfold load_tuples. cbn [mbind option_bind].
  rewrite Hn. cbn [mbind option_bind]. rewrite Hp. cbn [free_tuple].
  rewrite Ht. cbn [mbind option_bind free_tuples_node h_tuples h_tuple].
  rewrite Hn. cbn [mbind option_bind]. fold h2. split; [exact Hfree|].
  split; intros z; [rewrite H1|rewrite H2]; rewrite fmap_cons; simpl.
  - destruct (decide (z = c.1)) as [->|Hne].
    + rewrite (decide_True (P := c.1 ∈ c.1 :: l.*1)) by left.
      case_decide; [done|apply lookup_delete_eq].
    + rewrite lookup_delete_ne by done.
      destruct (decide (z ∈ l.*1)).
      * by rewrite decide_True by by right.
      * rewrite decide_False; [done|]. by intros [?|?]%elem_of_cons.
  - destruct (decide (z = c.2)) as [->|Hne].
    + rewrite (decide_True (P := c.2 ∈ c.2 :: l.*2)) by left.
      case_decide; [done|apply lookup_delete_eq].
    + rewrite lookup_delete_ne by done.
      destruct (decide (z ∈ l.*2)).
      * by rewrite decide_True by by right.
      * rewrite decide_False; [done|]. by intros [?|?]%elem_of_cons.
Qed.

(** C10.  On [NULL], [pgexporter_free_tuples] releases nothing (the heap
    is as it was) and returns 0; on every chain of nodes owning their rows
    it returns 0, having released each node and each row. *)
Theorem free_tuples_returns_zero :
  (∀ fuel h, pgexporter_free_tuples fuel h None = Some (h, 0)) ∧
  (∀ fuel h p l,
     owned h p l → NoDup l.*1 → NoDup l.*2 → (length l ≤ fuel)%nat →
     ∃ h', pgexporter_free_tuples fuel h p = Some (h', 0) ∧
           ∀ c, c ∈ l → h_tuples h' !! c.1 = None ∧ h_tuple h' !! c.2 = None).
Proof.
  split.
  - intros fuel h. unfold pgexporter_free_tuples. by destruct fuel.
  - intros fuel h p l Ho Hn1 Hn2 Hf.
    destruct (free_loop_spec l fuel h p Ho Hn1 Hn2 Hf) as (h' & Hfree & H1 & H2).
    exists h'. unfold pgexporter_free_tuples. rewrite Hfree. split; [done|].
    intros c Hc. rewrite H1, H2.
    rewrite !decide_True; [done| |]; apply list_elem_of_fmap; by exists c.
Qed.

Lemma free_tuples_returns_zero_witness :
  ∃ h', pgexporter_free_tuples 3 example_heap (Some 1%positive) = Some (h', 0) ∧
        h_tuples h' !! 2%positive = None ∧ h_tuple h' !! 12%positive = None.
Proof.
  destruct (proj2 free_tuples_returns_zero 3%nat example_heap (Some 1%positive)
              [(1%positive, 11%positive); (2%positive, 12%positive);
               (3%positive, 13%positive)]) as (h' & Hfree & Hgone).
  - simpl. repeat (split; [reflexivity|]; eexists; split; [reflexivity|];
                   split; [reflexivity|]; split; [by eexists|]). reflexivity.
  - apply (bool_decide_unpack _). vm_compute. exact I.
  - apply (bool_decide_unpack _). vm_compute. exact I.
  - simpl. lia.
  - exists h'. split; [exact Hfree|].
    apply (Hgone (2%positive, 12%positive)). right. left.
Defined.

(** ** Claims on the simple-query frame *)

Lemma read_int32_bytes pre v post :
  - 2 ^ 31 <= v < 2 ^ 31 →
  pgexporter_read_int32 (pre ++ int32_bytes v ++ post) (length pre) = Some v.
Proof.
  intros Hv. unfold pgexporter_read_int32.
  rewrite drop_app_length. unfold int32_bytes. cbn [app take].
  f_equal.
  destruct (Z.ltb_spec
    ((v / 2 ^ 24) mod 256 * 2 ^ 24 + (v / 2 ^ 16) mod 256 * 2 ^ 16 +
     (v / 2 ^ 8) mod 256 * 2 ^ 8 + v mod 256) (2 ^ 31)) as [H|H];
    revert H; Z.div_mod_to_equations; lia.
Qed.

Lemma query_message_frame (query : list Z) :
  query_message query =
    Some (mk_message 81 (1 + 4 + length query + 1)%nat
            (Some ([81] ++ int32_bytes (4 + Z.of_nat (length query) + 1)
                     ++ query ++ [0]))).
Proof.
  unfold query_message, pgexporter_write_byte, pgexporter_write_int32,
    pgexporter_write_string, write_at, int32_bytes.
  replace (1 + 4 + length query + 1)%nat with (S (S (S (S (S (length query + 1))))))
    by lia.
  cbn [replicate length].
  rewrite decide_True by (simpl; lia). cbn [mbind option_bind].
  rewrite decide_True by (simpl; lia). cbn [mbind option_bind].
  simpl take. simpl drop. simpl app. rewrite !drop_0. simpl length.
  rewrite decide_True by (rewrite length_replicate; lia).
  cbn [mbind option_bind].
  rewrite drop_replicate. replace (length query + 1 - length query)%nat with 1%nat by lia.
  do 4 f_equal.
  replace (Z.of_nat (S (S (S (S (S (length query + 1)))))) - 1)
    with (4 + Z.of_nat (length query) + 1) by lia.
  done.
Qed.

(** C5.  The frame [query_execute] builds is the kind byte ['Q'], then the
    four-byte big-endian word of value [4 + strlen(query) + 1] (the length
    word and the text with its NUL, not the kind byte), then the text and
    a NUL: [1 + 4 + strlen(query) + 1] bytes in all. *)
Theorem simple_query_frame (query : list Z) :
  4 + Z.of_nat (length query) + 1 < 2 ^ 31 →
  ∃ content,
    query_message query
      = Some (mk_message 81 (1 + 4 + length query + 1)%nat (Some content)) ∧
    content = [81] ++ int32_bytes (4 + Z.of_nat (length query) + 1) ++ query ++ [0] ∧
    pgexporter_read_int32 content 1 = Some (4 + Z.of_nat (length query) + 1) ∧
    length content = (1 + 4 + length query + 1)%nat.
Proof.
  intros Hlen. eexists. split; [apply query_message_frame|]. split; [done|].
  split.
  - apply (read_int32_bytes [81]). lia.
  - rewrite !length_app. simpl. lia.
Qed.

Lemma simple_query_frame_witness :
  ∃ content,
    query_message (chars "SELECT name,setting,short_desc FROM pg_settings;")
      = Some (mk_message 81 54 (Some content)) ∧
    take 5 content = [81; 0; 0; 0; 53] ∧
    pgexporter_read_int32 content 1 = Some 53 ∧
    length content = 54%nat.
Proof.
  destruct (simple_query_frame
              (chars "SELECT name,setting,short_desc FROM pg_settings;"))
    as (content & Hm & Hc & Hr & Hl).
  - reflexivity.
  - exists content. split; [exact Hm|]. split; [by rewrite Hc|].
    split; [exact Hr|exact Hl].
Defined.

(** ** Claims on the tuple decoder *)

Lemma length_int32_bytes v : length (int32_bytes v) = 4%nat.
Proof. done. Qed.

Lemma D_column_spec cap data offset pre f post :
  data = pre ++ field_bytes f ++ post → offset = length pre →
  fits cap f → Z.of_nat cap < 2 ^ 31 →
  D_column cap data offset
    = Some (slot cap f, (offset + length (field_bytes f))%nat).
Proof.
  intros -> -> Hfit Hcap. unfold D_column. destruct f as [bs|]; cbn [field_bytes].
  - simpl in Hfit. rewrite <- app_assoc.
    rewrite read_int32_bytes by lia. cbn [mbind option_bind].
    destruct (Z.ltb_spec 0 (Z.of_nat (length bs))) as [Hpos|Hz].
    + unfold memcpy_into. rewrite Nat2Z.id.
      rewrite decide_True; last first.
      { rewrite !length_app, length_replicate, length_int32_bytes. lia. }
      cbn [mbind option_bind]. rewrite length_app, length_int32_bytes.
      f_equal. f_equal; [|lia]. unfold slot. f_equal.
      * rewrite app_assoc.
        replace (length pre + 4)%nat with (length (pre ++ int32_bytes (Z.of_nat (length bs))))
          by (rewrite length_app; done).
        rewrite drop_app_length. by rewrite take_app_length.
      * by rewrite drop_replicate.
    + destruct bs; [|simpl in Hz; lia]. simpl. f_equal. f_equal. by rewrite Nat.sub_0_r.
  - rewrite read_int32_bytes by lia. simpl. done.
Qed.

Lemma slot_tag cap tag :
  (length tag ≤ cap)%nat →
  memcpy_into (replicate cap 0) tag 0 (length tag) = Some (slot cap (Some tag)).
Proof.
  intros Hlen. unfold memcpy_into.
  rewrite decide_True by (rewrite length_replicate; lia).
  simpl. rewrite drop_0. by rewrite firstn_all, drop_replicate.
Qed.

Lemma D_tuple_spec cap srv columns tag kind len hdr fields rest :
  1 <= columns <= 3 →
  length hdr = 7%nat →
  (Z.to_nat columns ≤ length fields)%nat →
  Forall (fits cap) (take (Z.to_nat columns) fields) →
  (length tag ≤ cap)%nat → Z.of_nat cap < 2 ^ 31 →
  D_tuple cap srv columns tag
      (mk_message kind len (Some (hdr ++ concat (map field_bytes fields) ++ rest)))
    = Some (mk_tuple srv (slot cap (Some tag)) columns
              (slot cap (default None (fields !! 0%nat)))
              (if 2 <=? columns then slot cap (default None (fields !! 1%nat))
               else replicate cap 0)
              (if 3 <=? columns then slot cap (default None (fields !! 2%nat))
               else replicate cap 0)).
Proof.
  intros Hcol Hhdr Hn Hfit Htag Hcap.
  unfold D_tuple. cbn [m_data mbind option_bind].
  rewrite slot_tag by done. cbn [mbind option_bind].
  destruct fields as [|f0 fields]; [simpl in Hn; lia|].
  assert (H0 : fits cap f0).
  { destruct (Z.to_nat columns) eqn:E; [lia|]. simpl in Hfit. by inversion Hfit. }
  cbn [map concat].
  rewrite (D_column_spec cap _ 7 hdr f0 (concat (map field_bytes fields) ++ rest));
    [|by rewrite <- app_assoc|done|done|done].
  cbn [mbind option_bind lookup list_lookup default].
  destruct (Z.leb_spec 2 columns) as [H2|H2]; last first.
  { destruct (Z.leb_spec 3 columns); [lia|]. done. }
  destruct fields as [|f1 fields]; [simpl in Hn; lia|].
  assert (H1 : fits cap f1).
  { destruct (Z.to_nat columns) as [|[|n]] eqn:E; [lia|lia|]. simpl in Hfit.
    inversion Hfit as [|? ? _ Hfit']. by inversion Hfit'. }
  cbn [map concat].
  rewrite (D_column_spec cap _ _ (hdr ++ field_bytes f0) f1
             (concat (map field_bytes fields) ++ rest));
    [|by rewrite <- !app_assoc|rewrite length_app; lia|done|done].
  cbn [mbind option_bind lookup list_lookup default].
  destruct (Z.leb_spec 3 columns) as [H3|H3]; [|done].
  destruct fields as [|f2 fields]; [simpl in Hn; lia|].
  assert (H2' : fits cap f2).
  { destruct (Z.to_nat columns) as [|[|[|n]]] eqn:E; [lia|lia|lia|]. simpl in Hfit.
    inversion Hfit as [|? ? _ Hfit']. inversion Hfit' as [|? ? _ Hfit''].
    by inversion Hfit''. }
  cbn [map concat].
  rewrite (D_column_spec cap _ _ ((hdr ++ field_bytes f0) ++ field_bytes f1) f2
             (concat (map field_bytes fields) ++ rest));
    [|by rewrite <- !app_assoc|rewrite !length_app; lia|done|done].
  done.
Qed.

Lemma create_D_tuple_alloc cap h srv columns tag msg d :
  D_tuple cap srv columns tag msg = Some d →
  ∃ r y,
    create_D_tuple cap h srv columns tag msg
      = Some (mk_heap (<[r := mk_tuples (Some y) None]> (h_tuples h))
                      (<[y := d]> (h_tuple h)), Some r, 0) ∧
    h_tuples h !! r = None ∧ h_tuple h !! y = None.
Proof.
  intros Hd. unfold create_D_tuple. rewrite Hd. cbn [mbind option_bind].
  exists (fresh (dom (h_tuples h))), (fresh (dom (h_tuple h))).
  split; [done|]. split; apply not_elem_of_dom, is_fresh.
Qed.

(** For an expected column count of 1 to 3 and a row-data message that
    carries at least that many columns after its seven-byte header, each
    fitting the [char] arrays of [struct tuple], [create_D_tuple] allocates
    one node (its [next] is [NULL]) with one row: [name] holds the first
    column, [value] the second when [columns >= 2], [desc] the third when
    [columns >= 3], copied from the payload when the length word is not
    negative and left zeroed when it is the absent sentinel; the arrays of
    the columns not asked for stay zeroed; and [server], [columns] and
    [tag] are the arguments given. *)
Theorem create_D_tuple_decodes MISC_LENGTH h srv columns tag kind len hdr fields rest :
  1 <= columns <= 3 →
  length hdr = 7%nat →
  (Z.to_nat columns ≤ length fields)%nat →
  Forall (fits MISC_LENGTH) (take (Z.to_nat columns) fields) →
  (length tag ≤ MISC_LENGTH)%nat → Z.of_nat MISC_LENGTH < 2 ^ 31 →
  ∃ h' r y,
    create_D_tuple MISC_LENGTH h srv columns tag
        (mk_message kind len (Some (hdr ++ concat (map field_bytes fields) ++ rest)))
      = Some (h', Some r, 0) ∧
    h_tuples h !! r = None ∧ h_tuple h !! y = None ∧
    h_tuples h' = <[r := mk_tuples (Some y) None]> (h_tuples h) ∧
    h_tuple h' =
      <[y := mk_tuple srv (slot MISC_LENGTH (Some tag)) columns
               (slot MISC_LENGTH (default None (fields !! 0%nat)))
               (if 2 <=? columns
                then slot MISC_LENGTH (default None (fields !! 1%nat))
                else replicate MISC_LENGTH 0)
               (if 3 <=? columns
                then slot MISC_LENGTH (default None (fields !! 2%nat))
                else replicate MISC_LENGTH 0)]> (h_tuple h).
Proof.
  intros Hcol Hhdr Hn Hfit Htag Hcap.
  destruct (create_D_tuple_alloc MISC_LENGTH h srv columns tag _ _
              (D_tuple_spec MISC_LENGTH srv columns tag kind len hdr fields rest
                 Hcol Hhdr Hn Hfit Htag Hcap)) as (r & y & Hc & Hr & Hy).
  eexists _, r, y. split; [exact Hc|]. done.
Qed.

Lemma create_D_tuple_decodes_witness :
  ∃ h' r y,
    create_D_tuple 128 example_heap 0 3 (chars "pg_settings") example_row_message
      = Some (h', Some r, 0) ∧
    t_name <$> h_tuple h' !! y = Some (chars "port" ++ replicate 124 0) ∧
    t_value <$> h_tuple h' !! y = Some (chars "5432" ++ replicate 124 0) ∧
    t_desc <$> h_tuple h' !! y = Some (replicate 128 0).
Proof.
  destruct (create_D_tuple_decodes 128 example_heap 0 3 (chars "pg_settings")
              68 27%nat [68; 0; 0; 0; 26; 0; 3] example_row [])
    as (h' & r & y & Hc & _ & _ & _ & Ht).
  - lia.
  - reflexivity.
  - simpl. lia.
  - repeat constructor; simpl; lia.
  - simpl. lia.
  - reflexivity.
  - exists h', r, y. split; [exact Hc|]. rewrite Ht, lookup_insert_eq. done.
Defined.

(** A present column longer than the array: the copy of lines 333, 344 and
    356 is not held back, and writes past the end of the array. *)
Lemma D_column_over cap data offset pre bs post :
  data = pre ++ field_bytes (Some bs) ++ post → offset = length pre →
  (cap < length bs)%nat → Z.of_nat (length bs) < 2 ^ 31 →
  D_column cap data offset = None.
Proof.
  intros -> -> Hover Hlen. unfold D_column. cbn [field_bytes].
  rewrite <- app_assoc. rewrite read_int32_bytes by lia. cbn [mbind option_bind].
  destruct (Z.ltb_spec 0 (Z.of_nat (length bs))) as [_|?]; [|lia].
  unfold memcpy_into. rewrite Nat2Z.id.
  rewrite decide_False; [done|]. rewrite length_replicate. lia.
Qed.

(** C3.  [create_D_tuple] copies a present column into its array without
    comparing its length with the size of the array.  On a row-data
    message that carries, among the columns asked for, one longer than
    [MISC_LENGTH] bytes (those before it fitting), the [memcpy] of line
    333, 344 or 356 writes past the end of [name], [value] or [desc]: the
    call has no defined result, where the row described has that column in
    its field and the other fields as their own columns say. *)
Theorem create_D_tuple_overruns MISC_LENGTH h srv columns tag kind len hdr fields
    rest i bs :
  1 <= columns <= 3 →
  length hdr = 7%nat →
  (i < Z.to_nat columns)%nat →
  fields !! i = Some (Some bs) →
  Forall (fits MISC_LENGTH) (take i fields) →
  (MISC_LENGTH < length bs)%nat → Z.of_nat (length bs) < 2 ^ 31 →
  (length tag ≤ MISC_LENGTH)%nat →
  create_D_tuple MISC_LENGTH h srv columns tag
      (mk_message kind len (Some (hdr ++ concat (map field_bytes fields) ++ rest)))
    = None.
Proof.
  intros Hcol Hhdr Hi Hbs Hfit Hover Hlen Htag.
  assert (Hcap : Z.of_nat MISC_LENGTH < 2 ^ 31) by lia.
  unfold create_D_tuple, D_tuple. cbn [m_data mbind option_bind].
  rewrite slot_tag by done. cbn [mbind option_bind].
  destruct fields as [|f0 fields]; [done|].
  destruct i as [|i].
  { injection Hbs as ->. cbn [map concat].
    rewrite (D_column_over MISC_LENGTH _ 7 hdr bs
               (concat (map field_bytes fields) ++ rest));
      [done|by rewrite <- app_assoc|done|done|done]. }
  cbn [take] in Hfit. apply Forall_cons in Hfit as [H0 Hfit].
  cbn [map concat].
  rewrite (D_column_spec MISC_LENGTH _ 7 hdr f0
             (concat (map field_bytes fields) ++ rest));
    [|by rewrite <- app_assoc|done|done|done].
  cbn [mbind option_bind].
  destruct (Z.leb_spec 2 columns) as [H2|H2]; [|lia].
  destruct fields as [|f1 fields]; [done|].
  destruct i as [|i].
  { injection Hbs as ->. cbn [map concat].
    rewrite (D_column_over MISC_LENGTH _ _ (hdr ++ field_bytes f0) bs
               (concat (map field_bytes fields) ++ rest));
      [done|by rewrite <- !app_assoc|rewrite length_app; lia|done|done]. }
  cbn [take] in Hfit. apply Forall_cons in Hfit as [H1 Hfit].
  cbn [map concat].
  rewrite (D_column_spec MISC_LENGTH _ _ (hdr ++ field_bytes f0) f1
             (concat (map field_bytes fields) ++ rest));
    [|by rewrite <- !app_assoc|rewrite length_app; lia|done|done].
  cbn [mbind option_bind].
  destruct (Z.leb_spec 3 columns) as [H3|H3]; [|lia].
  destruct fields as [|f2 fields]; [done|].
  destruct i as [|i]; [|lia].
  injection Hbs as ->. cbn [map concat].
  rewrite (D_column_over MISC_LENGTH _ _ ((hdr ++ field_bytes f0) ++ field_bytes f1) bs
             (concat (map field_bytes fields) ++ rest));
    [done|by rewrite <- !app_assoc|rewrite !length_app; lia|done|done].
Qed.

Lemma create_D_tuple_overruns_witness :
  create_D_tuple 128 example_heap 0 3 (chars "pg_settings") example_long_message
    = None.
Proof.
  apply (create_D_tuple_overruns 128 example_heap 0 3 (chars "pg_settings")
           68 153%nat [68; 0; 0; 0; 152; 0; 3] example_long_row [] 2
           (replicate 130 110)).
  - lia.
  - reflexivity.
  - simpl. lia.
  - reflexivity.
  - repeat constructor; simpl; lia.
  - simpl. lia.
  - reflexivity.
  - simpl. lia.
Defined.

(** ** Claims on [query_execute] *)

Lemma last_of_snoc d l c : last_of d (l ++ [c]) = Some c.1.
Proof.
  destruct l as [|x l]; [done|]. simpl.
  by rewrite <- (last_of_end x.1 l [c]).
Qed.

Lemma lseg_dom h p l q x :
  lseg h p l q → x ∈ l.*1 → is_Some (h_tuples h !! x).
Proof.
  revert p. induction l as [|c l IH]; intros p; simpl.
  - intros _ Hx. by apply elem_of_nil in Hx.
  - intros [_ (n & Hn & _ & Hl)] [->|Hx]%elem_of_cons; [by eexists|].
    by eapply IH.
Qed.

Lemma row_data_cons_row m msgs :
  m_kind m = 68 → row_data (Some m :: msgs) = m :: row_data msgs.
Proof. intros H. unfold row_data. simpl. by rewrite H. Qed.

Lemma row_data_cons_other m msgs :
  m_kind m ≠ 68 → row_data (Some m :: msgs) = row_data msgs.
Proof.
  intros H. unfold row_data. simpl. by destruct (Z.eqb_spec (m_kind m) 68).
Qed.

Section ExecutorFacts.
Variable MISC_LENGTH : nat.
Variable MESSAGE_STATUS_OK : Z.
Variable pgexporter_write_message : Z → message → Z.
Variable pgexporter_has_message : Z → option (list Z) → nat → bool.
Variable pgexporter_extract_message_offset :
  nat → option (list Z) → nat * option message.

Lemma decode_loop_spec srv columns tag data data_size fuel :
  ∀ h offset root current done msgs ts,
  split_messages pgexporter_extract_message_offset fuel offset data data_size
    = Some msgs →
  Forall2 (λ m t, D_tuple MISC_LENGTH srv columns tag m = Some t) (row_data msgs) ts →
  lseg h root done None → NoDup done.*1 → current = last_of None done →
  ∃ h' root' cells,
    decode_loop MISC_LENGTH pgexporter_extract_message_offset fuel h srv columns
      tag offset data data_size root current = Some (h', root') ∧
    lseg h' root' (done ++ cells) None ∧ NoDup (done ++ cells).*1 ∧
    cells.*2 = ts ∧ (done ≠ [] → root' = root).
Proof.
  induction fuel as [|f IH]; intros h offset root current done msgs ts Hsp Hts Hl Hnd Hcur.
  { simpl in *. destruct (offset <? data_size)%nat; [done|].
    injection Hsp as <-. inversion Hts; subst.
    exists h, root, []. rewrite app_nil_r. done. }
  cbn [split_messages decode_loop] in *.
  destruct (offset <? data_size)%nat.
  2:{ injection Hsp as <-. inversion Hts; subst.
      exists h, root, []. rewrite app_nil_r. done. }
  destruct (pgexporter_extract_message_offset offset data) as [offset' msg].
  destruct (split_messages pgexporter_extract_message_offset f offset' data data_size)
    as [l|] eqn:Hl'; [|done].
  cbn [mbind option_bind] in Hsp. injection Hsp as <-.
  destruct msg as [m|]; [|by eapply IH].
  destruct (Z.eqb_spec (m_kind m) 68) as [Hk|Hk];
    [|rewrite row_data_cons_other in Hts by done; by eapply IH].
  rewrite row_data_cons_row in Hts by done.
  inversion Hts as [|? t ? ts' Hd Hts']; subst.
  destruct (create_D_tuple_alloc MISC_LENGTH h srv columns tag m t Hd)
    as (r & y & Hc & Hr & Hy).
  rewrite Hc. cbn [mbind option_bind].
  set (h1 := mk_heap (<[r := mk_tuples (Some y) None]> (h_tuples h)) (<[y := t]> (h_tuple h))) in *.
  assert (Hsub : h_tuple h ⊆ h_tuple h1) by by apply insert_subseteq.
  assert (Hr' : r ∉ done.*1).
  { intros Hin. destruct (lseg_dom _ _ _ _ _ Hl Hin) as [? E]. congruence. }
  assert (Hnew : lseg h1 (Some r) [(r, t)] None).
  { split; [done|]. exists (mk_tuples (Some y) None). simpl.
    rewrite !lookup_insert_eq. done. }
  assert (Hl1 : lseg h1 root done None).
  { eapply lseg_frame; [exact Hsub| |exact Hl].
    intros x Hx. simpl. rewrite lookup_insert_ne; [done|]. by intros <-. }
  assert (Hnd1 : NoDup (done ++ [(r, t)]).*1).
  { rewrite fmap_app. apply NoDup_app. split; [done|]. split.
    - intros x Hx [->|Hx']%elem_of_cons; [done|]. by apply elem_of_nil in Hx'.
    - apply NoDup_singleton. }
  destruct done as [|c done].
  - simpl in Hl. subst root. simpl last_of.
    destruct (IH h1 offset' (Some r) (Some r) [(r, t)] l ts' Hl' Hts' Hnew)
      as (h' & root' & cells & Hdl & Hl2 & Hnd2 & Hcells & Hroot); [done|done|].
    exists h', root', ((r, t) :: cells). rewrite Hdl.
    split; [done|]. split; [done|]. split; [done|]. split; [|done].
    by rewrite fmap_cons, Hcells.
  - pose proof (lseg_head _ _ _ _ _ Hl) as ->.
    simpl last_of.
    destruct (lseg_end _ _ _ _ Hl1) as (ne & Hne & _).
    rewrite (store_next_eq h1 _ ne _ Hne). cbn [mbind option_bind].
    set (h2 := mk_heap (<[end_of c.1 done := mk_tuples (tuple_p ne) (Some r)]> (h_tuples h1))
                 (h_tuple h1)).
    assert (Hnx : next_at h2 (Some (end_of c.1 done)) = Some (Some r)).
    { unfold next_at, load_tuples. simpl. by rewrite lookup_insert_eq. }
    rewrite Hnx. cbn [mbind option_bind].
    assert (Hl2 : lseg h2 (Some c.1) ((c :: done) ++ [(r, t)]) None).
    { eapply lseg_app.
      - by apply (lseg_relink h1 c done None).
      - eapply lseg_frame; [| |exact Hnew]; [done|].
        intros x [->|Hx]%elem_of_cons; [|by apply elem_of_nil in Hx].
        simpl. rewrite lookup_insert_ne; [done|].
        intros E. apply Hr'. rewrite <- E. apply end_of_elem. }
    destruct (IH h2 offset' (Some c.1) (Some r) ((c :: done) ++ [(r, t)]) l ts' Hl' Hts' Hl2)
      as (h' & root' & cells & Hdl & Hl3 & Hnd3 & Hcells & Hroot);
      [done|by rewrite last_of_snoc|].
    exists h', root', ((r, t) :: cells). rewrite Hdl.
    rewrite <- app_assoc in Hl3, Hnd3.
    split; [done|]. split; [done|]. split; [done|]. split.
    + by rewrite fmap_cons, Hcells.
    + intros _. apply Hroot. done.
Qed.

Lemma decode_loop_inv srv columns tag data data_size fuel :
  ∀ h offset root current h' root',
  decode_loop MISC_LENGTH pgexporter_extract_message_offset fuel h srv columns
    tag offset data data_size root current = Some (h', root') →
  ∃ msgs ts,
    split_messages pgexporter_extract_message_offset fuel offset data data_size
      = Some msgs ∧
    Forall2 (λ m t, D_tuple MISC_LENGTH srv columns tag m = Some t) (row_data msgs) ts.
Proof.
  induction fuel as [|f IH]; intros h offset root current h' root' Hd.
  { simpl in *. destruct (offset <? data_size)%nat; [done|].
    exists [], []. split; [done|constructor]. }
  cbn [split_messages decode_loop] in *.
  destruct (offset <? data_size)%nat; [|exists [], []; split; [done|constructor]].
  destruct (pgexporter_extract_message_offset offset data) as [offset' msg].
  assert (Hskip : ∀ h1 root1 current1,
            decode_loop MISC_LENGTH pgexporter_extract_message_offset f h1 srv
              columns tag offset' data data_size root1 current1 = Some (h', root') →
            row_data (msg :: [])  = [] →
            ∃ msgs ts,
              (l ← split_messages pgexporter_extract_message_offset f offset' data
                     data_size; Some (msg :: l)) = Some msgs ∧
              Forall2 (λ m t, D_tuple MISC_LENGTH srv columns tag m = Some t)
                (row_data msgs) ts).
  { intros h1 root1 current1 Hrec Hnot.
    destruct (IH _ _ _ _ _ _ Hrec) as (msgs & ts & Hsp & Hts).
    exists (msg :: msgs), ts. rewrite Hsp. split; [done|].
    change (msg :: msgs) with ([msg] ++ msgs). unfold row_data in *.
    rewrite omap_app, Hnot. done. }
  destruct msg as [m|]; [|by eapply Hskip].
  destruct (Z.eqb_spec (m_kind m) 68) as [Hk|Hk];
    [|eapply Hskip; [done|by apply row_data_cons_other]].
  clear Hskip.
  destruct (create_D_tuple MISC_LENGTH h srv columns tag m) as [[[h1 dtuples] z]|] eqn:Hc;
    [|done].
  cbn [mbind option_bind] in Hd.
  assert (∃ d, D_tuple MISC_LENGTH srv columns tag m = Some d) as [d Hdt].
  { unfold create_D_tuple in Hc.
    destruct (D_tuple MISC_LENGTH srv columns tag m); [by eexists|done]. }
  assert (∃ h2 root2 current2,
            decode_loop MISC_LENGTH pgexporter_extract_message_offset f h2 srv
              columns tag offset' data data_size root2 current2 = Some (h', root'))
    as (h2 & root2 & current2 & Hrec).
  { destruct root; [|by eauto].
    destruct (store_next h1 current dtuples) as [h2|]; [|done].
    cbn [mbind option_bind] in Hd.
    destruct (next_at h2 current) as [c2|]; [|done]. by eauto. }
  destruct (IH _ _ _ _ _ _ Hrec) as (msgs & ts & Hsp & Hts).
  exists (Some m :: msgs), (d :: ts). rewrite Hsp. split; [done|].
  rewrite row_data_cons_row by done. by constructor.
Qed.

(** Under a transport that delivers, a buffer that splits and rows that
    decode, [query_execute] does return 0, with the rows in a chain. *)
Lemma query_execute_succeeds fuel h config reads srv query tag columns tuples
    s data data_size msgs ts :
  servers config !! srv = Some s →
  (∀ qmsg, query_message query = Some qmsg →
     pgexporter_write_message (s_fd s) qmsg = MESSAGE_STATUS_OK) →
  read_loop MESSAGE_STATUS_OK pgexporter_has_message reads None 0
    = Some (ReadReady data data_size) →
  split_messages pgexporter_extract_message_offset fuel 0 data data_size
    = Some msgs →
  Forall2 (λ m t, D_tuple MISC_LENGTH (Z.of_nat srv) columns tag m = Some t)
    (row_data msgs) ts →
  ∃ h' root cells,
    query_execute MISC_LENGTH MESSAGE_STATUS_OK pgexporter_write_message
      pgexporter_has_message pgexporter_extract_message_offset fuel h config
      reads srv query tag columns tuples = Some (h', root, 0) ∧
    lseg h' root cells None ∧ NoDup cells.*1 ∧ cells.*2 = ts.
Proof.
  intros Hs Hw Hr Hsp Hts. unfold query_execute.
  rewrite query_message_frame in *. cbn [mbind option_bind]. rewrite Hs.
  cbn [mbind option_bind]. rewrite (Hw _ eq_refl), Z.eqb_refl, Hr.
  cbn [mbind option_bind].
  destruct (decode_loop_spec (Z.of_nat srv) columns tag data data_size fuel h 0%nat
              None None [] msgs ts Hsp Hts) as (h' & root & cells & Hd & Hl & Hnd & Hc & _);
    [done|constructor|done|].
  rewrite Hd. cbn [mbind option_bind]. by exists h', root, cells.
Qed.

(** The read loop on a transport that delivers the messages of [pre], none
    of which brings the ready message, and then fails: the loop ends on
    the failed read. *)
Lemma read_loop_failed status msg post : ∀ pre data data_size acc,
  match data with
  | Some b => b = acc ∧ data_size = length acc
  | None => data_size = 0%nat ∧ acc = []
  end →
  Forall (λ r, r.1 = MESSAGE_STATUS_OK ∧
               ∃ m d, r.2 = Some m ∧ m_data m = Some d ∧
                      (m_length m ≤ length d)%nat) pre →
  (∀ k, (0 < k ≤ length pre)%nat →
     pgexporter_has_message 90
       (Some (acc ++ concat (map unit_bytes (take k pre))))
       (length (acc ++ concat (map unit_bytes (take k pre)))) = false) →
  status ≠ MESSAGE_STATUS_OK →
  read_loop MESSAGE_STATUS_OK pgexporter_has_message
    (pre ++ (status, msg) :: post) data data_size = Some ReadFailed.
Proof.
  induction pre as [|[st mo] pre IH]; intros data data_size acc Hinv Hpre Hz Hst.
  { cbn [app read_loop]. by destruct (Z.eqb_spec status MESSAGE_STATUS_OK). }
  apply Forall_cons in Hpre as [(Hok & m & d & Hm & Hd & Hlen) Hpre].
  simpl in Hok, Hm. subst st mo. cbn [app read_loop].
  rewrite Z.eqb_refl. cbn [mbind option_bind].
  set (u := unit_bytes (MESSAGE_STATUS_OK, Some m)).
  assert (Hu : u = take (m_length m) d) by (unfold u, unit_bytes; simpl; by rewrite Hd).
  assert (Hap : data_append data data_size (m_data m) (m_length m)
                = Some (Some (acc ++ u))).
  { unfold data_append. rewrite Hd. rewrite decide_True; last first.
    { split; [done|]. intros ->. by destruct Hinv. }
    do 2 f_equal. rewrite Hu. f_equal.
    destruct data as [b|]; simpl.
    - destruct Hinv as [-> ->]. by rewrite firstn_all.
    - destruct Hinv as [-> ->]. done. }
  assert (Hsz : (data_size + m_length m)%nat = length (acc ++ u)).
  { rewrite length_app, Hu, length_take.
    destruct data; destruct Hinv as [? ?]; subst; simpl; lia. }
  rewrite Hap. cbn [mbind option_bind]. rewrite Hsz.
  assert (H1 : pgexporter_has_message 90 (Some (acc ++ u)) (length (acc ++ u))
               = false).
  { specialize (Hz 1%nat). simpl in Hz. fold u in Hz.
    rewrite app_nil_r in Hz. apply Hz. lia. }
  rewrite H1. apply (IH _ _ (acc ++ u)); [done|done| |done].
  intros k Hk. specialize (Hz (S k)). simpl in Hz. fold u in Hz.
  rewrite <- app_assoc. apply Hz. lia.
Qed.

(** C4.  When the send of the query frame fails, or a read fails after the
    reads before it delivered their messages without the ready message
    among them, [query_execute] returns 1 and delivers nothing: [*tuples]
    is what it was at the call, and no node or row has been allocated,
    whatever had been accumulated. *)
Theorem query_execute_transport_failure fuel h config reads srv query tag
    columns tuples s qmsg :
  servers config !! srv = Some s →
  query_message query = Some qmsg →
  pgexporter_write_message (s_fd s) qmsg ≠ MESSAGE_STATUS_OK ∨
  (∃ pre status msg post,
     reads = pre ++ (status, msg) :: post ∧
     status ≠ MESSAGE_STATUS_OK ∧
     Forall (λ r, r.1 = MESSAGE_STATUS_OK ∧
                  ∃ m d, r.2 = Some m ∧ m_data m = Some d ∧
                         (m_length m ≤ length d)%nat) pre ∧
     ∀ k, (0 < k ≤ length pre)%nat →
       pgexporter_has_message 90
         (Some (concat (map unit_bytes (take k pre))))
         (length (concat (map unit_bytes (take k pre)))) = false) →
  query_execute MISC_LENGTH MESSAGE_STATUS_OK pgexporter_write_message
    pgexporter_has_message pgexporter_extract_message_offset fuel h config
    reads srv query tag columns tuples = Some (h, tuples, 1).
Proof.
  intros Hs Hq Hfail. unfold query_execute. rewrite Hq. cbn [mbind option_bind].
  rewrite Hs. cbn [mbind option_bind].
  destruct (Z.eqb_spec (pgexporter_write_message (s_fd s) qmsg) MESSAGE_STATUS_OK)
    as [Hok|Hno]; [|done].
  destruct Hfail as [Hw|(pre & status & msg & post & -> & Hst & Hpre & Hz)]; [done|].
  by rewrite (read_loop_failed status msg post pre None 0%nat []).
Qed.

(** C6.  When [query_execute] returns 0, [*tuples] heads a chain with one
    node per row-data message of the accumulated buffer and none for the
    other messages: node after node, its row is what [create_D_tuple]
    decodes, with the call's column count and tag, from the row-data
    message of the same rank among those [pgexporter_extract_message_offset]
    splits off the buffer; with no row-data message, [*tuples] is [NULL]. *)
Theorem query_execute_rows_in_order fuel h config reads srv query tag columns
    tuples h' root :
  query_execute MISC_LENGTH MESSAGE_STATUS_OK pgexporter_write_message
    pgexporter_has_message pgexporter_extract_message_offset fuel h config
    reads srv query tag columns tuples = Some (h', root, 0) →
  ∃ data data_size msgs cells,
    read_loop MESSAGE_STATUS_OK pgexporter_has_message reads None 0
      = Some (ReadReady data data_size) ∧
    split_messages pgexporter_extract_message_offset fuel 0 data data_size
      = Some msgs ∧
    lseg h' root cells None ∧ NoDup cells.*1 ∧
    Forall2 (λ m c, D_tuple MISC_LENGTH (Z.of_nat srv) columns tag m = Some c.2)
      (row_data msgs) cells ∧
    (row_data msgs = [] → root = None).
Proof.
  unfold query_execute. rewrite query_message_frame. cbn [mbind option_bind].
  destruct (servers config !! srv) as [s|]; [|done]. cbn [mbind option_bind].
  destruct (Z.eqb_spec (pgexporter_write_message (s_fd s)
    (mk_message 81 (1 + 4 + length query + 1)%nat
       (Some ([81] ++ int32_bytes (4 + Z.of_nat (length query) + 1) ++ query ++ [0]))))
    MESSAGE_STATUS_OK) as [Hok|Hno]; [|done].
  destruct (read_loop MESSAGE_STATUS_OK pgexporter_has_message reads None 0)
    as [[|data data_size]|]; [done| |done].
  cbn [mbind option_bind].
  destruct (decode_loop MISC_LENGTH pgexporter_extract_message_offset fuel h
              (Z.of_nat srv) columns tag 0 data data_size None None)
    as [[h1 root1]|] eqn:Hd; [|done].
  cbn [mbind option_bind]. intros [= -> ->].
  destruct (decode_loop_inv _ _ _ _ _ _ _ _ _ _ _ _ Hd) as (msgs & ts & Hsp & Hts).
  destruct (decode_loop_spec (Z.of_nat srv) columns tag data data_size fuel h 0%nat
              None None [] msgs ts Hsp Hts) as (h2 & root2 & cells & Hd2 & Hl & Hnd & Hc & _);
    [done|constructor|done|].
  rewrite Hd in Hd2. injection Hd2 as <- <-. simpl in Hl, Hnd.
  exists data, data_size, msgs, cells.
  split; [done|]. split; [done|]. split; [done|]. split; [done|]. split.
  - subst ts. by apply Forall2_fmap_r in Hts.
  - intros Hnone. rewrite Hnone in Hts. inversion Hts; subst.
    destruct cells; [done|discriminate].
Qed.

End ExecutorFacts.

Lemma query_execute_transport_failure_witness :
  query_execute 128 1 send_ok has_message extract_message_offset 10 example_heap
    config_two [(1, Some example_row_message); (2, None)] 0
    (chars "SELECT name,setting,short_desc FROM pg_settings;")
    (chars "pg_settings") 3 (Some 1%positive)
  = Some (example_heap, Some 1%positive, 1).
Proof.
  eapply (query_execute_transport_failure 128 1 send_ok has_message
            extract_message_offset).
  - reflexivity.
  - reflexivity.
  - right. exists [(1, Some example_row_message)], 2, None, [].
    split; [reflexivity|]. split; [lia|]. split.
    + repeat constructor. simpl. eexists _, _.
      split; [reflexivity|]. split; [reflexivity|]. simpl. lia.
    + intros k Hk. assert (k = 1%nat) as -> by (simpl in Hk; lia).
      vm_compute. reflexivity.
Defined.

Lemma query_execute_rows_in_order_witness :
  ∃ h' root data data_size msgs cells,
    query_execute 128 1 send_ok has_message extract_message_offset 10 example_heap
      config_two example_reads 0
      (chars "SELECT name,setting,short_desc FROM pg_settings;")
      (chars "pg_settings") 3 None = Some (h', root, 0) ∧
    split_messages extract_message_offset 10 0 data data_size = Some msgs ∧
    lseg h' root cells None ∧
    Forall2 (λ m c, D_tuple 128 0 3 (chars "pg_settings") m = Some c.2)
      (row_data msgs) cells.
Proof.
  pose proof (query_execute_rows_in_order 128 1 send_ok has_message
                extract_message_offset 10 example_heap config_two example_reads 0
                (chars "SELECT name,setting,short_desc FROM pg_settings;")
                (chars "pg_settings") 3 None) as H.
  destruct (query_execute 128 1 send_ok has_message extract_message_offset 10
              example_heap config_two example_reads 0
              (chars "SELECT name,setting,short_desc FROM pg_settings;")
              (chars "pg_settings") 3 None) as [[[h' root] z]|] eqn:E;
    [|vm_compute in E; discriminate].
  assert (z = 0) as -> by (vm_compute in E; congruence).
  destruct (H h' root eq_refl) as (data & data_size & msgs & cells & _ & Hsp & Hl & _ & Hf & _).
  exists h', root, data, data_size, msgs, cells. done.
Defined.

(* ================================================================== *)
(** * Further properties *)

(** ** The connection manager *)

Lemma user_loop_users n : ∀ c1 c2 name usr user,
  users c1 = users c2 → user_loop n c1 name usr user = user_loop n c2 name usr user.
Proof.
  induction n as [|n IH]; intros c1 c2 name usr user E; [done|].
  cbn [user_loop]. rewrite E. destruct (user =? -1); [|done].
  destruct (users c2 !! usr); [|done]. cbn [mbind option_bind]. by apply IH.
Qed.

Lemma user_loop_found n config name usr user :
  user ≠ -1 → user_loop n config name usr user = Some user.
Proof.
  intros H. destruct n; [done|]. cbn [user_loop].
  by destruct (Z.eqb_spec user (-1)).
Qed.

Lemma user_loop_first n : ∀ config name usr k u,
  (usr ≤ k < usr + n)%nat →
  users config !! k = Some u → streq (u_username u) name = true →
  (∀ j u', (usr ≤ j < k)%nat → users config !! j = Some u' →
     streq (u_username u') name = false) →
  user_loop n config name usr (-1) = Some (Z.of_nat k).
Proof.
  induction n as [|n IH]; intros config name usr k u Hk Hu Hm Hno; [lia|].
  cbn [user_loop]. rewrite Z.eqb_refl.
  destruct (decide (usr = k)) as [->|Hne].
  - rewrite Hu. cbn [mbind option_bind]. rewrite Hm.
    apply user_loop_found. lia.
  - destruct (lookup_lt_is_Some_2 (users config) usr) as [u' Hu'].
    { apply lookup_lt_Some in Hu. lia. }
    rewrite Hu'. cbn [mbind option_bind]. rewrite (Hno usr u') by (done || lia).
    apply (IH config name (S usr) k u); [lia|done|done|].
    intros j u'' Hj. apply Hno. lia.
Qed.

Section ConnectionsOpen.
Variable AUTH_SUCCESS : Z.
Variable pgexporter_server_authenticate : nat → list Z → option user → Z * Z.

Local Abbreviation opening_ := (opening AUTH_SUCCESS pgexporter_server_authenticate).
Local Abbreviation opened_ := (opened pgexporter_server_authenticate).
Local Abbreviation open_events_ :=
  (open_events AUTH_SUCCESS pgexporter_server_authenticate).

Lemma resolved_set_fd config i fd s :
  resolved (set_fd config i fd) s = resolved config s.
Proof.
  unfold resolved, user_at. simpl.
  by rewrite (user_loop_users _ (set_fd config i fd) config).
Qed.

Lemma open_events_set_fd n : ∀ srv config i fd,
  (i < srv)%nat →
  open_events_ n srv (set_fd config i fd) = open_events_ n srv config.
Proof.
  induction n as [|n IH]; intros srv config i fd Hi; [done|].
  cbn [open_events_]. simpl servers. rewrite list_lookup_alter_ne by lia.
  destruct (servers config !! srv) as [s|]; [|done].
  rewrite IH by lia. f_equal. unfold opening, opening_.
  by rewrite !resolved_set_fd.
Qed.

Lemma open_loop_spec n : ∀ srv config trace,
  (srv + n ≤ length (servers config))%nat →
  (number_of_users config ≤ length (users config))%nat →
  ∃ config',
    open_loop AUTH_SUCCESS pgexporter_server_authenticate n srv config trace
      = Some (config', trace ++ open_events_ n srv config) ∧
    users config' = users config ∧
    number_of_users config' = number_of_users config ∧
    number_of_servers config' = number_of_servers config ∧
    length (servers config') = length (servers config) ∧
    ∀ i, servers config' !! i =
           if decide (srv ≤ i < srv + n)%nat
           then opened_ config i <$> servers config !! i
           else servers config !! i.
Proof.
  induction n as [|n IH]; intros srv config trace Hs Hu.
  { exists config. simpl. rewrite app_nil_r. repeat split; try done.
    intros i. case_decide; [lia|done]. }
  destruct (lookup_lt_is_Some_2 (servers config) srv) as [s Hsrv]; [lia|].
  cbn [open_loop open_events]. rewrite Hsrv. cbn [mbind option_bind].
  unfold opening, opened.
  destruct (Z.eqb_spec (s_fd s) (-1)) as [Hfd|Hfd].
  - destruct (user_loop_total (number_of_users config) config (s_username s) 0 (-1))
      as [user Huser]; [simpl; lia|].
    rewrite Huser. cbn [mbind option_bind].
    assert (Hres : resolved config s = user_at config user).
    { unfold resolved. by rewrite Huser. }
    rewrite Hres.
    destruct (pgexporter_server_authenticate srv (chars "postgres") (user_at config user))
      as [ret fd] eqn:Hauth.
    destruct (IH (S srv) (set_fd config srv fd)
                (if ret =? AUTH_SUCCESS
                 then trace ++ [EvAuthenticate srv (chars "postgres") (user_at config user)]
                 else (trace ++ [EvAuthenticate srv (chars "postgres") (user_at config user)])
                        ++ [EvLogError srv]))
      as (config' & Ho & Eu & En & Ens & El & Hi);
      [simpl; rewrite length_alter; lia|done|].
    exists config'. rewrite Ho, open_events_set_fd by lia. cbn [fst].
    split; [destruct (ret =? AUTH_SUCCESS); by rewrite <- ?app_assoc|].
    split; [done|]. split; [done|]. split; [done|].
    split; [rewrite El; simpl; by rewrite length_alter|].
    intros i. rewrite Hi. simpl servers.
    destruct (decide (i = srv)) as [->|Hne].
    + rewrite decide_False by lia. rewrite decide_True by lia.
      rewrite list_lookup_alter_eq, Hsrv. simpl.
      destruct (Z.eqb_spec (s_fd s) (-1)); [|done]. by rewrite Hres, Hauth.
    + rewrite list_lookup_alter_ne by lia.
      repeat case_decide; try lia; [|done].
      destruct (servers config !! i) as [si|]; [|done]. simpl. f_equal.
      unfold opened. by rewrite resolved_set_fd.
  - destruct (IH (S srv) config trace) as (config' & Ho & Eu & En & Ens & El & Hi);
      [lia|done|].
    exists config'. rewrite Ho. split; [done|]. repeat (split; [done|]).
    intros i. rewrite Hi.
    destruct (decide (i = srv)) as [->|Hne].
    + rewrite decide_False by lia. rewrite decide_True by lia.
      rewrite Hsrv. simpl. by destruct (Z.eqb_spec (s_fd s) (-1)).
    + repeat case_decide; try done; lia.
Qed.

Lemma elem_of_open_events ev n : ∀ srv config,
  ev ∈ open_events_ n srv config ↔
  ∃ i s, (srv ≤ i < srv + n)%nat ∧ servers config !! i = Some s ∧
         (∀ j, (srv ≤ j < i)%nat → is_Some (servers config !! j)) ∧
         ev ∈ opening_ config i s.
Proof.
  induction n as [|n IH]; intros srv config.
  { simpl. split; [by intros ?%elem_of_nil|]. intros (i & s & Hi & _). lia. }
  cbn [open_events]. destruct (servers config !! srv) as [s|] eqn:Hs.
  - rewrite elem_of_app, IH. split.
    + intros [Hev|(i & si & Hi & Hsi & Hall & Hev)].
      * exists srv, s. split; [lia|]. split; [done|]. split; [|done]. intros j ?; lia.
      * exists i, si. split; [lia|]. split; [done|]. split; [|done].
        intros j Hj. destruct (decide (j = srv)) as [->|]; [by eexists|].
        apply Hall. lia.
    + intros (i & si & Hi & Hsi & Hall & Hev).
      destruct (decide (i = srv)) as [->|Hne].
      * left. by assert (si = s) as -> by congruence.
      * right. exists i, si. split; [lia|]. split; [done|]. split; [|done].
        intros j Hj. apply Hall. lia.
  - split; [by intros ?%elem_of_nil|].
    intros (i & si & Hi & Hsi & Hall & Hev).
    destruct (decide (i = srv)) as [->|Hne]; [congruence|].
    destruct (Hall srv) as [? E]; [lia|congruence].
Qed.

Lemma elem_of_opening ev config i s :
  ev ∈ opening_ config i s →
  s_fd s = -1 ∧
  (ev = EvAuthenticate i (chars "postgres") (resolved config s) ∨
   ev = EvLogError i ∧
   (pgexporter_server_authenticate i (chars "postgres") (resolved config s)).1
     ≠ AUTH_SUCCESS).
Proof.
  unfold opening. destruct (Z.eqb_spec (s_fd s) (-1)) as [Hfd|Hfd];
    [|by intros ?%elem_of_nil].
  intros [->|Hev]%elem_of_cons; [by auto|]. split; [done|]. right.
  destruct (Z.eqb_spec
    (pgexporter_server_authenticate i (chars "postgres") (resolved config s)).1
    AUTH_SUCCESS); [by apply elem_of_nil in Hev|].
  apply list_elem_of_singleton in Hev. done.
Qed.

(** X1.  [pgexporter_open_connections] leaves a connected backend alone: its
    entry is as it was and neither an authentication nor an error is
    recorded for it; when every configured backend is connected the call
    changes nothing and does nothing. *)
Theorem open_connections_connected_untouched (config : configuration) :
  (number_of_servers config ≤ length (servers config))%nat →
  (number_of_users config ≤ length (users config))%nat →
  ∃ config' trace,
    pgexporter_open_connections AUTH_SUCCESS pgexporter_server_authenticate config
      = Some (config', trace) ∧
    (∀ i s, servers config !! i = Some s → s_fd s ≠ -1 →
       servers config' !! i = Some s ∧
       (∀ db cred, EvAuthenticate i db cred ∉ trace) ∧ EvLogError i ∉ trace) ∧
    ((∀ i s, (i < number_of_servers config)%nat → servers config !! i = Some s →
        s_fd s ≠ -1) →
     config' = config ∧ trace = []).
Proof.
  intros Hs Hu. unfold pgexporter_open_connections.
  destruct (open_loop_spec (number_of_servers config) 0 config [] Hs Hu)
    as (config' & Ho & Eu & En & Ens & El & Hi).
  exists config', (open_events_ (number_of_servers config) 0 config).
  split; [exact Ho|]. split.
  - intros i s Hsi Hfd. split; [|split].
    + rewrite Hi, Hsi. case_decide; [|done]. simpl. unfold opened.
      by destruct (Z.eqb_spec (s_fd s) (-1)).
    + intros db cred (j & sj & _ & Hsj & _ & Hev)%elem_of_open_events.
      apply elem_of_opening in Hev as [Hfdj [E|[E _]]]; [|done].
      injection E as -> _ _. congruence.
    + intros (j & sj & _ & Hsj & _ & Hev)%elem_of_open_events.
      apply elem_of_opening in Hev as [Hfdj [E|[E _]]]; [done|].
      injection E as ->. congruence.
  - intros Hall.
    assert (Ht : open_events_ (number_of_servers config) 0 config = []).
    { destruct (open_events_ (number_of_servers config) 0 config) as [|ev l] eqn:E;
        [done|].
      assert (Hev : ev ∈ open_events_ (number_of_servers config) 0 config)
        by (rewrite E; left).
      apply elem_of_open_events in Hev as (j & sj & Hj & Hsj & _ & Hev).
      apply elem_of_opening in Hev as [Hfdj _].
      destruct (Hall j sj); [lia|done|done]. }
    split; [|done].
    assert (servers config' = servers config) as Es.
    { apply list_eq. intros i. rewrite Hi. case_decide; [|done].
      destruct (servers config !! i) as [s|] eqn:Hsi; [|done]. simpl.
      unfold opened. destruct (Z.eqb_spec (s_fd s) (-1)); [|done].
      destruct (Hall i s); [lia|done|done]. }
    destruct config', config. simpl in *. by subst.
Qed.

(** X2.  For a disconnected backend, [pgexporter_open_connections] hands
    the authenticator the first credential whose username is the
    backend's, stores in the backend's [fd] what the authenticator
    answered, whatever the status, and logs an error for the backend
    exactly when the status is not [AUTH_SUCCESS]. *)
Theorem open_connections_first_credential (config : configuration) srv s k u :
  (number_of_servers config ≤ length (servers config))%nat →
  (number_of_users config ≤ length (users config))%nat →
  (srv < number_of_servers config)%nat →
  servers config !! srv = Some s → s_fd s = -1 →
  (k < number_of_users config)%nat →
  users config !! k = Some u → streq (u_username u) (s_username s) = true →
  (∀ j u', (j < k)%nat → users config !! j = Some u' →
     streq (u_username u') (s_username s) = false) →
  ∃ config' trace,
    pgexporter_open_connections AUTH_SUCCESS pgexporter_server_authenticate config
      = Some (config', trace) ∧
    EvAuthenticate srv (chars "postgres") (Some u) ∈ trace ∧
    servers config' !! srv
      = Some (mk_server (s_name s) (s_username s)
                (pgexporter_server_authenticate srv (chars "postgres") (Some u)).2) ∧
    (EvLogError srv ∈ trace ↔
     (pgexporter_server_authenticate srv (chars "postgres") (Some u)).1
       ≠ AUTH_SUCCESS).
Proof.
  intros Hs Hu Hsrv Hsi Hfd Hk Huk Hm Hno. unfold pgexporter_open_connections.
  destruct (open_loop_spec (number_of_servers config) 0 config [] Hs Hu)
    as (config' & Ho & Eu & En & Ens & El & Hi).
  assert (Hres : resolved config s = Some u).
  { unfold resolved.
    rewrite (user_loop_first _ config (s_username s) 0 k u); [|lia|done|done|].
    - simpl. unfold user_at. destruct (Z.leb_spec 0 (Z.of_nat k)); [|lia].
      by rewrite Nat2Z.id.
    - intros j u' Hj. apply Hno. lia. }
  assert (Hin : ∀ ev, ev ∈ opening_ config srv s →
                ev ∈ open_events_ (number_of_servers config) 0 config).
  { intros ev Hev. apply elem_of_open_events. exists srv, s.
    split; [lia|]. split; [done|]. split; [|done].
    intros j Hj. apply lookup_lt_is_Some_2. lia. }
  exists config', (open_events_ (number_of_servers config) 0 config).
  split; [exact Ho|]. split; [|split; [|split]].
  - apply Hin. unfold opening. rewrite Hfd, Hres. simpl. left.
  - rewrite Hi, decide_True, Hsi by lia. simpl. unfold opened.
    by rewrite Hfd, Hres.
  - intros (j & sj & _ & Hsj & _ & Hev)%elem_of_open_events.
    apply elem_of_opening in Hev as [_ [E|[E Hne]]]; [done|].
    injection E as <-. assert (sj = s) as -> by congruence. by rewrite Hres in Hne.
  - intros Hne. apply Hin. unfold opening. rewrite Hfd, Hres. simpl. right.
    destruct (Z.eqb_spec
      (pgexporter_server_authenticate srv (chars "postgres") (Some u)).1 AUTH_SUCCESS);
      [done|left].
Qed.

End ConnectionsOpen.

Lemma close_loop_fields n : ∀ srv config trace config' trace',
  close_loop n srv config trace = Some (config', trace') →
  users config' = users config ∧ number_of_users config' = number_of_users config.
Proof.
  induction n as [|n IH]; intros srv config trace config' trace' Hc.
  { by injection Hc as <- _. }
  cbn [close_loop] in Hc. destruct (servers config !! srv) as [s|]; [|done].
  cbn [mbind option_bind] in Hc.
  destruct (negb (s_fd s =? -1)); apply IH in Hc as [? ?]; done.
Qed.

(** X3.  Closing is idempotent: after [pgexporter_close_connections], a
    second call sends nothing and leaves the configuration as it is. *)
Theorem close_connections_idempotent (config : configuration) :
  (number_of_servers config ≤ length (servers config))%nat →
  ∃ config' trace,
    pgexporter_close_connections config = Some (config', trace) ∧
    pgexporter_close_connections config' = Some (config', []).
Proof.
  intros Hlen. unfold pgexporter_close_connections.
  destruct (close_loop_spec (number_of_servers config) 0 config []) as
    (config' & Hc & Hn & Hl & Hi); [simpl; lia|].
  destruct (close_loop_fields _ _ _ _ _ _ Hc) as [Eu Enu].
  destruct (close_loop_spec (number_of_servers config') 0 config' []) as
    (config'' & Hc' & Hn' & Hl' & Hi'); [simpl; lia|].
  destruct (close_loop_fields _ _ _ _ _ _ Hc') as [Eu' Enu'].
  eexists _, _. split; [exact Hc|]. rewrite Hc'. f_equal.
  assert (Es : servers config'' = servers config').
  { apply list_eq. intros i. rewrite Hi'. case_decide as Hr; [|done].
    rewrite Hi. rewrite Hn in Hr. rewrite decide_True by lia.
    by destruct (servers config !! i). }
  f_equal.
  - destruct config'', config'. simpl in *. by subst.
  - simpl. apply concat_nil_Forall, Forall_forall. intros evs Hevs.
    apply list_elem_of_fmap in Hevs as (s & -> & Hs).
    apply list_elem_of_lookup in Hs as [i Hs]. apply lookup_take_Some in Hs as [Hs Hlt].
    rewrite Hi in Hs. rewrite Hn in Hlt. rewrite decide_True in Hs by lia.
    destruct (servers config !! i) as [s0|]; [|done]. injection Hs as <-. done.
Qed.

Lemma open_connections_connected_untouched_witness :
  ∃ config' trace,
    pgexporter_open_connections 0 auth_any config_two = Some (config', trace) ∧
    servers config' !! 0%nat
      = Some (mk_server (cstring "primary") (cstring "alice") 7) ∧
    EvLogError 0 ∉ trace.
Proof.
  destruct (open_connections_connected_untouched 0 auth_any config_two)
    as (config' & trace & Ho & Hkeep & _).
  - simpl. lia.
  - simpl. lia.
  - exists config', trace. split; [exact Ho|].
    destruct (Hkeep 0%nat (mk_server (cstring "primary") (cstring "alice") 7))
      as (Hs & _ & Hlog); [reflexivity|simpl; lia|].
    split; [exact Hs|exact Hlog].
Defined.

Lemma open_connections_first_credential_witness :
  ∃ config' trace,
    pgexporter_open_connections 0 auth_any config_two = Some (config', trace) ∧
    EvAuthenticate 1 (chars "postgres")
      (Some (mk_user (cstring "alice") (cstring "secret"))) ∈ trace ∧
    servers config' !! 1%nat
      = Some (mk_server (cstring "replica") (cstring "alice") 11).
Proof.
  destruct (open_connections_first_credential 0 auth_any config_two 1
              (mk_server (cstring "replica") (cstring "alice") (-1)) 0
              (mk_user (cstring "alice") (cstring "secret")))
    as (config' & trace & Ho & Hev & Hs & _).
  - simpl. lia.
  - simpl. lia.
  - simpl. lia.
  - reflexivity.
  - reflexivity.
  - simpl. lia.
  - reflexivity.
  - reflexivity.
  - intros j u' Hj. lia.
  - exists config', trace. split; [exact Ho|]. split; [exact Hev|exact Hs].
Defined.

Lemma close_connections_idempotent_witness :
  ∃ config' trace,
    pgexporter_close_connections config_two = Some (config', trace) ∧
    pgexporter_close_connections config' = Some (config', []).
Proof. apply (close_connections_idempotent config_two). simpl. lia. Defined.

(** ** Opening and closing write [fd] only *)

Section ConnectionsFrame.
Variable AUTH_SUCCESS : Z.
Variable pgexporter_server_authenticate : nat → list Z → option user → Z * Z.

(** X14.  Neither [pgexporter_open_connections] nor
    [pgexporter_close_connections] writes anything of the configuration
    but the [fd] of a backend: the credentials, the two counts, and the
    name and the username of every backend are as they were. *)
Theorem connections_write_fd_only (config : configuration) run :
  (number_of_servers config ≤ length (servers config))%nat →
  (number_of_users config ≤ length (users config))%nat →
  run = pgexporter_open_connections AUTH_SUCCESS pgexporter_server_authenticate ∨
  run = pgexporter_close_connections →
  ∃ config' trace,
    run config = Some (config', trace) ∧
    users config' = users config ∧
    number_of_users config' = number_of_users config ∧
    number_of_servers config' = number_of_servers config ∧
    Forall2 (λ s s', s_name s' = s_name s ∧ s_username s' = s_username s)
      (servers config) (servers config').
Proof.
  intros Hs Hu [->| ->].
  - unfold pgexporter_open_connections.
    destruct (open_loop_spec AUTH_SUCCESS pgexporter_server_authenticate
                (number_of_servers config) 0 config [] Hs Hu)
      as (config' & Ho & Eu & En & Ens & El & Hi).
    eexists _, _. split; [exact Ho|]. repeat (split; [done|]).
    apply Forall2_same_length_lookup_2; [done|].
    intros i s s' Hsi Hsi'. rewrite Hi, Hsi in Hsi'.
    case_decide; simpl in Hsi'; injection Hsi' as <-; [|done].
    unfold opened. by destruct (s_fd s =? -1).
  - unfold pgexporter_close_connections.
    destruct (close_loop_spec (number_of_servers config) 0 config []) as
      (config' & Hc & Hn & Hl & Hi); [simpl; lia|].
    destruct (close_loop_fields _ _ _ _ _ _ Hc) as [Eu Enu].
    eexists _, _. split; [exact Hc|]. repeat (split; [done|]).
    apply Forall2_same_length_lookup_2; [done|].
    intros i s s' Hsi Hsi'. rewrite Hi, Hsi in Hsi'.
    case_decide; simpl in Hsi'; by injection Hsi' as <-.
Qed.

Lemma open_events_imap n : ∀ srv config,
  (srv + n ≤ length (servers config))%nat →
  open_events AUTH_SUCCESS pgexporter_server_authenticate n srv config
    = concat (imap (λ j s, opening AUTH_SUCCESS pgexporter_server_authenticate
                             config (srv + j) s)
                (take n (drop srv (servers config)))).
Proof.
  induction n as [|n IH]; intros srv config Hlen; [done|].
  destruct (lookup_lt_is_Some_2 (servers config) srv) as [s Hs]; [lia|].
  cbn [open_events]. rewrite Hs, (drop_S _ _ _ Hs). cbn [take imap concat].
  rewrite Nat.add_0_r, IH by lia. do 2 f_equal.
  apply imap_ext. intros j x _. simpl. f_equal. lia.
Qed.

(** X15.  A close followed by an open tries every configured backend
    again, once each and in order: after [pgexporter_close_connections],
    what [pgexporter_open_connections] does is, backend after backend, one
    call of the authenticator with the credential the lookup resolves for
    the backend's username, followed by one error log when the status is
    not [AUTH_SUCCESS], and nothing else; each backend's [fd] is what the
    authenticator answered. *)
Theorem close_then_open_authenticates_all (config : configuration) :
  (number_of_servers config ≤ length (servers config))%nat →
  (number_of_users config ≤ length (users config))%nat →
  ∃ config1 trace1 config2 trace2,
    pgexporter_close_connections config = Some (config1, trace1) ∧
    pgexporter_open_connections AUTH_SUCCESS pgexporter_server_authenticate config1
      = Some (config2, trace2) ∧
    trace2 =
      concat (imap (λ i s,
                      EvAuthenticate i (chars "postgres") (resolved config s) ::
                      (if (pgexporter_server_authenticate i (chars "postgres")
                             (resolved config s)).1 =? AUTH_SUCCESS
                       then [] else [EvLogError i]))
                (take (number_of_servers config) (servers config))) ∧
    ∀ i s, (i < number_of_servers config)%nat → servers config !! i = Some s →
      EvAuthenticate i (chars "postgres") (resolved config s) ∈ trace2 ∧
      servers config2 !! i
        = Some (mk_server (s_name s) (s_username s)
                  (pgexporter_server_authenticate i (chars "postgres")
                     (resolved config s)).2).
Proof.
  intros Hs Hu. unfold pgexporter_close_connections.
  destruct (close_loop_spec (number_of_servers config) 0 config []) as
    (config1 & Hc & Hn & Hl & Hi); [simpl; lia|].
  destruct (close_loop_fields _ _ _ _ _ _ Hc) as [Eu Enu].
  unfold pgexporter_open_connections.
  destruct (open_loop_spec AUTH_SUCCESS pgexporter_server_authenticate
              (number_of_servers config1) 0 config1 [])
    as (config2 & Ho & _ & _ & _ & _ & Hi2); [simpl; lia|rewrite Eu, Enu; lia|].
  assert (Er : ∀ s, resolved config1 (disconnected s) = resolved config s).
  { intros s. unfold resolved, user_at. rewrite Eu, Enu. simpl.
    by rewrite (user_loop_users _ config1 config). }
  assert (Et : take (number_of_servers config) (servers config1)
               = disconnected <$> take (number_of_servers config) (servers config)).
  { apply list_eq. intros i. rewrite list_lookup_fmap.
    destruct (decide (i < number_of_servers config)%nat) as [Hlt|Hge].
    - rewrite !lookup_take_lt by done. by rewrite Hi, decide_True by lia.
    - rewrite !lookup_take_ge by lia. done. }
  eexists _, _, _, _. split; [exact Hc|]. split; [exact Ho|]. split.
  - simpl. rewrite open_events_imap by (simpl; lia).
    rewrite drop_0, Hn, Et, imap_fmap. f_equal. apply imap_ext.
    intros i s _. simpl. unfold opening. simpl. by rewrite Er.
  - intros i s Hlt Hsi.
    assert (Hs1 : servers config1 !! i = Some (disconnected s)).
    { rewrite Hi, decide_True by lia. by rewrite Hsi. }
    split.
    + simpl. apply elem_of_open_events. exists i, (disconnected s).
      split; [lia|]. split; [done|]. split.
      * intros j Hj. apply lookup_lt_is_Some_2. lia.
      * unfold opening. simpl. rewrite Er. left.
    + rewrite Hi2, decide_True by lia. rewrite Hs1. simpl.
      unfold opened. simpl. by rewrite Er.
Qed.

End ConnectionsFrame.

Lemma connections_write_fd_only_witness :
  ∃ config' trace,
    pgexporter_close_connections config_two = Some (config', trace) ∧
    users config' = users config_two ∧
    Forall2 (λ s s', s_name s' = s_name s ∧ s_username s' = s_username s)
      (servers config_two) (servers config').
Proof.
  destruct (connections_write_fd_only 0 auth_any config_two
              pgexporter_close_connections)
    as (config' & trace & Hc & Eu & _ & _ & Hf).
  - simpl. lia.
  - simpl. lia.
  - right. reflexivity.
  - exists config', trace. split; [exact Hc|]. split; [exact Eu|exact Hf].
Defined.

Lemma close_then_open_authenticates_all_witness :
  ∃ config1 trace1 config2,
    pgexporter_close_connections config_two = Some (config1, trace1) ∧
    pgexporter_open_connections 0 auth_any config1
      = Some (config2,
              [EvAuthenticate 0 (chars "postgres")
                 (Some (mk_user (cstring "alice") (cstring "secret")));
               EvAuthenticate 1 (chars "postgres")
                 (Some (mk_user (cstring "alice") (cstring "secret")))]).
Proof.
  destruct (close_then_open_authenticates_all 0 auth_any config_two)
    as (config1 & trace1 & config2 & trace2 & Hc & Ho & Ht & _).
  - simpl. lia.
  - simpl. lia.
  - exists config1, trace1, config2. split; [exact Hc|].
    rewrite Ho, Ht. reflexivity.
Defined.

(** ** The merge *)

Lemma strcmp_zero_text a b : strcmp a b = 0 → text a = text b.
Proof.
  revert b. induction a as [|x a IH]; intros [|y b]; cbn [strcmp text].
  - done.
  - intros H. destruct (Z.eqb_spec y 0); [done|lia].
  - intros H. destruct (Z.eqb_spec x 0); [done|lia].
  - destruct (Z.eqb_spec x y) as [->|Hne]; [|lia].
    destruct (Z.eqb_spec y 0); [done|]. intros H. by rewrite (IH b).
Qed.

Lemma streq_true_l a b c : streq a b = true → streq c a = streq c b.
Proof.
  unfold streq. intros H%Z.eqb_eq%strcmp_zero_text.
  by rewrite <- (strcmp_text c a), <- (strcmp_text c b), H.
Qed.

Section MergeSpecOrder.
Context {A : Type} (key : A → list Z).

Lemma splice_walk_head x a b :
  ∃ T, (splice_walk key (x :: a) b).1 = x :: T.
Proof.
  destruct b as [|bn b]; simp splice_walk; [by eexists|].
  destruct (same_name key x bn); by eexists.
Qed.

Lemma after_run_sublist bn (l : list A) : after_run key bn l `sublist_of` l.
Proof.
  induction l as [|y l IH]; simpl; [done|].
  destruct (same_name key y bn); [by apply sublist_cons|done].
Qed.

Lemma splice_walk_sublist_l (a b : list A) :
  a `sublist_of` (splice_walk key a b).1.
Proof.
  funelim (splice_walk key a b); simp splice_walk.
  - done.
  - simpl. by apply sublist_skip.
  - unfold walked. cbn [fst]. simpl. apply sublist_skip.
    rewrite <- (run_after_app key bn a') at 1.
    apply sublist_app; [done|].
    etrans; [|exact H]. by apply sublist_cons.
  - simpl. by apply sublist_skip.
Qed.

Lemma splice_walk_sublist_r (a b : list A) :
  b `sublist_of` tail (splice_walk key a b).1 ++ (splice_walk key a b).2.
Proof.
  funelim (splice_walk key a b); simp splice_walk.
  - done.
  - apply sublist_nil_l.
  - unfold walked. cbn [fst snd tail app].
    destruct (splice_walk_head bn (after_run key bn a') b') as [T HT].
    rewrite HT in H |- *. simpl in H. rewrite <- app_assoc.
    apply sublist_inserts_l. simpl. by apply sublist_skip.
  - simpl. etrans; [exact H|].
    apply sublist_app; [|done].
    destruct (splice_walk key a' (bn :: b')).1; [done|]. simpl. by apply sublist_cons.
Qed.

Lemma merge_list_sublist_l (a b : list A) : a `sublist_of` merge_list key a b.
Proof.
  destruct a as [|x a]; [apply sublist_nil_l|]. destruct b as [|bn b]; [done|].
  cbn [merge_list]. apply sublist_inserts_r, splice_walk_sublist_l.
Qed.

Lemma merge_list_sublist_r (a b : list A) : b `sublist_of` merge_list key a b.
Proof.
  destruct a as [|x a]; [done|]. destruct b as [|bn b]; [apply sublist_nil_l|].
  cbn [merge_list]. etrans; [apply (splice_walk_sublist_r (x :: a))|].
  apply sublist_app; [|done].
  destruct (splice_walk key (x :: a) (bn :: b)).1; [done|]. simpl. by apply sublist_cons.
Qed.

Lemma merge_list_head x (a b : list A) : head (merge_list key (x :: a) b) = Some x.
Proof.
  destruct b as [|bn b]; [done|]. cbn [merge_list].
  destruct (splice_walk_head x a (bn :: b)) as [T ->]. done.
Qed.

(** No node of [a] carries the name of the head of [b]: the pass consumes
    nothing of [b]. *)
Lemma splice_walk_unmatched (a : list A) bn b :
  (∀ x, x ∈ a → same_name key x bn = false) →
  splice_walk key a (bn :: b) = (a, bn :: b).
Proof.
  induction a as [|x a IH]; intros Hno; [by simp splice_walk|].
  rewrite splice_walk_miss by (apply Hno; left).
  rewrite IH; [done|]. intros y Hy. apply Hno. by right.
Qed.

Lemma merge_list_unmatched (a b : list A) :
  (∀ x bn, x ∈ a → head b = Some bn → same_name key x bn = false) →
  merge_list key a b = a ++ b.
Proof.
  intros Hno. destruct a as [|x a]; [done|].
  destruct b as [|bn b]; [by rewrite app_nil_r|].
  cbn [merge_list]. rewrite splice_walk_unmatched; [done|].
  intros y Hy. by apply Hno.
Qed.

End MergeSpecOrder.

Lemma strcmp_refl a : strcmp a a = 0.
Proof.
  induction a as [|x a IH]; cbn [strcmp]; [done|].
  rewrite Z.eqb_refl. by destruct (x =? 0).
Qed.

Lemma streq_sym a b : streq a b = true → streq b a = true.
Proof.
  unfold streq. intros H%Z.eqb_eq%strcmp_zero_text. apply Z.eqb_eq.
  by rewrite <- strcmp_text, H, strcmp_text, strcmp_refl.
Qed.

Section MergeSpecGroup.
Context {A : Type} (key : A → list Z).

Lemma run_of_all bn (grp post : list A) :
  (∀ x, x ∈ grp → same_name key x bn = true) →
  (∀ p, head post = Some p → same_name key p bn = false) →
  run_of key bn (grp ++ post) = grp ∧ after_run key bn (grp ++ post) = post.
Proof.
  intros Hg Hp. induction grp as [|x grp IH]; simpl.
  - destruct post as [|p post]; [done|]. simpl. by rewrite (Hp p).
  - rewrite (Hg x) by left. destruct IH as [-> ->]; [|done].
    intros y Hy. apply Hg. by right.
Qed.

Lemma splice_walk_group_tail (post b : list A) : ∀ bn,
  (∀ y, y ∈ b → same_name key y bn = true) →
  (∀ p, head post = Some p → same_name key p bn = false) →
  splice_walk key (bn :: post) b = (bn :: b ++ post, []).
Proof.
  induction b as [|b2 b IH]; intros bn Hb Hp; [apply splice_walk_nil_r|].
  assert (H2 : same_name key b2 bn = true) by (apply Hb; left).
  assert (Hsame : ∀ c, same_name key c b2 = same_name key c bn).
  { intros c. by apply streq_true_l. }
  rewrite splice_walk_hit by (by apply streq_sym).
  destruct (run_of_all b2 [] post) as [Hr Ha].
  { by intros x ?%elem_of_nil. }
  { intros p Hhd. rewrite Hsame. by apply Hp. }
  simpl in Hr, Ha. rewrite Hr, Ha, IH; [done| |].
  - intros y Hy. rewrite Hsame. apply Hb. by right.
  - intros p Hhd. rewrite Hsame. by apply Hp.
Qed.

Lemma splice_walk_absorb (pre grp post b : list A) g bn :
  (∀ x, x ∈ pre → same_name key x bn = false) →
  (∀ x, x ∈ g :: grp → same_name key x bn = true) →
  (∀ p, head post = Some p → same_name key p bn = false) →
  (∀ y, y ∈ b → same_name key y bn = true) →
  splice_walk key (pre ++ g :: grp ++ post) (bn :: b)
    = (pre ++ g :: grp ++ bn :: b ++ post, []).
Proof.
  intros Hpre Hg Hp Hb. induction pre as [|x pre IH].
  - simpl. rewrite splice_walk_hit by (apply Hg; left).
    destruct (run_of_all bn grp post) as [-> ->]; [|done|].
    { intros x Hx. apply Hg. by right. }
    rewrite splice_walk_group_tail by done. done.
  - simpl. rewrite splice_walk_miss by (apply Hpre; left).
    rewrite IH; [done|]. intros y Hy. apply Hpre. by right.
Qed.

End MergeSpecGroup.

(** X4.  [pgexporter_merge_tuples] keeps the order within each list: the
    nodes of [a] come in the chain returned in the order they had in [a],
    and so do the nodes of [b]; when [a] is not empty the chain starts
    with the head of [a]. *)
Theorem merge_keeps_order fuel h t1 t2 a b :
  lseg h t1 a None → lseg h t2 b None → NoDup (a ++ b).*1 →
  (length a + length b < fuel)%nat →
  ∃ h' r l,
    pgexporter_merge_tuples fuel h t1 t2 = Some (h', r) ∧
    lseg h' r l None ∧
    a `sublist_of` l ∧ b `sublist_of` l ∧ (a ≠ [] → head l = head a).
Proof.
  intros Ha Hb Hnd Hf.
  destruct (merge_refines fuel h t1 t2 a b Ha Hb Hnd Hf) as (h' & Hm & Hl & _).
  eexists _, _, _. split; [exact Hm|]. split; [exact Hl|].
  split; [apply merge_list_sublist_l|]. split; [apply merge_list_sublist_r|].
  destruct a as [|x a]; [done|]. intros _. apply merge_list_head.
Qed.

(** X5.  When no node of [a] carries the name of the first node of [b],
    nothing is spliced: the chain returned is [a] followed by [b]. *)
Theorem merge_unmatched_appends fuel h t1 t2 a b :
  lseg h t1 a None → lseg h t2 b None → NoDup (a ++ b).*1 →
  (length a + length b < fuel)%nat →
  (∀ c bn, c ∈ a → head b = Some bn →
     streq (cell_name c) (cell_name bn) = false) →
  ∃ h' r,
    pgexporter_merge_tuples fuel h t1 t2 = Some (h', r) ∧
    lseg h' r (a ++ b) None.
Proof.
  intros Ha Hb Hnd Hf Hno.
  destruct (merge_refines fuel h t1 t2 a b Ha Hb Hnd Hf) as (h' & Hm & Hl & _).
  rewrite (merge_list_unmatched cell_name a b Hno) in Hl.
  eexists _, _. split; [exact Hm|exact Hl].
Qed.

(** X6.  A group of [b] is absorbed whole by the group of [a] with its name:
    when the names are C strings (each [name] array holds a NUL) and [a] is
    [pre ++ grp ++ post] with [grp] the run named as the nodes of [b], no
    node of [pre] with that name and [post] starting with another name, the
    chain returned is [pre ++ grp ++ b ++ post]; every comparison of names
    stays inside the two arrays it is given. *)
Theorem merge_absorbs_group fuel h t1 t2 pre grp post bn b :
  grp ≠ [] →
  Forall (λ c, 0 ∈ cell_name c) ((pre ++ grp ++ post) ++ bn :: b) →
  lseg h t1 (pre ++ grp ++ post) None → lseg h t2 (bn :: b) None →
  NoDup ((pre ++ grp ++ post) ++ bn :: b).*1 →
  (length (pre ++ grp ++ post) + length (bn :: b) < fuel)%nat →
  (∀ c, c ∈ pre → streq (cell_name c) (cell_name bn) = false) →
  (∀ c, c ∈ grp ++ b → streq (cell_name c) (cell_name bn) = true) →
  (∀ c, head post = Some c → streq (cell_name c) (cell_name bn) = false) →
  ∃ h',
    pgexporter_merge_tuples fuel h t1 t2 = Some (h', t1) ∧
    lseg h' t1 (pre ++ grp ++ bn :: b ++ post) None ∧
    (∀ c d, c ∈ (pre ++ grp ++ post) ++ bn :: b →
       d ∈ (pre ++ grp ++ post) ++ bn :: b →
       strcmp_c (cell_name c) (cell_name d)
         = Some (strcmp (cell_name c) (cell_name d))).
Proof.
  intros Hg Hnul Ha Hb Hnd Hf Hpre Hgrp Hpost.
  destruct (merge_refines fuel h t1 t2 _ _ Ha Hb Hnd Hf) as (h' & Hm & Hl & _).
  destruct grp as [|g grp]; [done|].
  assert (Et : match t1 with None => t2 | Some _ => t1 end = t1).
  { destruct pre; by rewrite (lseg_head _ _ _ _ _ Ha). }
  rewrite Et in Hm, Hl. exists h'. split; [exact Hm|].
  assert (E : merge_list cell_name (pre ++ (g :: grp) ++ post) (bn :: b)
              = pre ++ (g :: grp) ++ bn :: b ++ post).
  { transitivity ((splice_walk cell_name (pre ++ g :: grp ++ post) (bn :: b)).1 ++
                  (splice_walk cell_name (pre ++ g :: grp ++ post) (bn :: b)).2).
    { by destruct pre. }
    rewrite (splice_walk_absorb cell_name pre grp post b g bn); try done.
    - simpl. by rewrite app_nil_r.
    - intros x Hx. apply Hgrp. rewrite elem_of_app. by left.
    - intros y Hy. apply Hgrp. rewrite elem_of_app. by right. }
  rewrite E in Hl. split; [done|]. by apply strcmp_c_names.
Qed.

(** ** Merging, then releasing *)

Lemma owned_lseg h p lo :
  owned h p lo → ∃ l, lseg h p l None ∧ l.*1 = lo.*1.
Proof.
  revert p. induction lo as [|c lo IH]; intros p; simpl.
  - intros ->. by exists [].
  - intros [-> (n & Hn & Hp & [t Ht] & Ho)].
    destruct (IH _ Ho) as (l & Hl & El).
    exists ((c.1, t) :: l). split; [|by rewrite !fmap_cons, El].
    simpl. split; [done|]. exists n. split; [done|]. split; [|done].
    unfold load_tuple. by rewrite Hp.
Qed.

Lemma owned_tuple_p h p lo c :
  owned h p lo → c ∈ lo → tuple_p <$> h_tuples h !! c.1 = Some (Some c.2).
Proof.
  revert p. induction lo as [|d lo IH]; intros p; simpl.
  - by intros _ ?%elem_of_nil.
  - intros [_ (n & Hn & Hp & _ & Ho)] [->|Hc]%elem_of_cons.
    + by rewrite Hn, <- Hp.
    + by eapply IH.
Qed.

Lemma lseg_owned h p l :
  lseg h p l None → ∃ lo, owned h p lo ∧ lo.*1 = l.*1.
Proof.
  revert p. induction l as [|c l IH]; intros p; simpl.
  - intros ->. by exists [].
  - intros [-> (n & Hn & Ht & Hl)]. destruct (IH _ Hl) as (lo & Ho & El).
    unfold load_tuple in Ht. destruct (tuple_p n) as [y|] eqn:Hp; [|done].
    simpl in Ht. exists ((c.1, y) :: lo). split; [|by rewrite !fmap_cons, El].
    simpl. split; [done|]. exists n. by rewrite Hp.
Qed.

(** X7.  What is merged can be released as one list: on two separate chains
    of nodes owning their rows, [pgexporter_free_tuples] on the pointer
    [pgexporter_merge_tuples] returns gives 0 and releases every node and
    every row of both lists. *)
Theorem merge_then_free fuel h t1 t2 la lb :
  owned h t1 la → owned h t2 lb →
  NoDup (la ++ lb).*1 → NoDup (la ++ lb).*2 →
  (length la + length lb < fuel)%nat →
  ∃ h' r h'',
    pgexporter_merge_tuples fuel h t1 t2 = Some (h', r) ∧
    pgexporter_free_tuples fuel h' r = Some (h'', 0) ∧
    ∀ c, c ∈ la ++ lb → h_tuples h'' !! c.1 = None ∧ h_tuple h'' !! c.2 = None.
Proof.
  intros Ha Hb Hn1 Hn2 Hf.
  destruct (owned_lseg _ _ _ Ha) as (a & Hla & Ea).
  destruct (owned_lseg _ _ _ Hb) as (b & Hlb & Eb).
  assert (Eab : (a ++ b).*1 = (la ++ lb).*1) by (by rewrite !fmap_app, Ea, Eb).
  assert (Hlen : (length a + length b = length la + length lb)%nat).
  { apply (f_equal length) in Ea, Eb. rewrite !length_fmap in Ea, Eb. lia. }
  destruct (merge_refines fuel h t1 t2 a b Hla Hlb) as (h' & Hm & Hl & Hlk & _);
    [by rewrite Eab|lia|].
  pose proof (merge_list_perm cell_name a b) as Hperm.
  destruct (lseg_owned _ _ _ Hl) as (lo & Ho & Elo).
  assert (Hlo1 : lo.*1 ≡ₚ (la ++ lb).*1) by (by rewrite Elo, Hperm, Eab).
  assert (Htp : ∀ c, c ∈ la ++ lb → tuple_p <$> h_tuples h' !! c.1 = Some (Some c.2)).
  { intros c Hc. rewrite (proj2 Hlk).
    apply elem_of_app in Hc as [Hc|Hc];
      [by apply (owned_tuple_p h t1 la)|by apply (owned_tuple_p h t2 lb)]. }
  assert (Hsame : ∀ c d, c ∈ lo → d ∈ la ++ lb → c.1 = d.1 → c = d).
  { intros [x y] [x' y'] Hc Hd E. simpl in E. subst x'.
    pose proof (owned_tuple_p _ _ _ _ Ho Hc) as H1. pose proof (Htp _ Hd) as H2.
    simpl in *. congruence. }
  assert (Hp : lo ≡ₚ la ++ lb).
  { apply NoDup_Permutation.
    - apply (NoDup_fmap_1 fst). by rewrite Hlo1.
    - by apply (NoDup_fmap_1 fst).
    - intros c. split; intros Hc.
      + assert (c.1 ∈ (la ++ lb).*1) as (d & E & Hd)%list_elem_of_fmap.
        { rewrite <- Hlo1. apply list_elem_of_fmap. by exists c. }
        by rewrite (Hsame c d).
      + assert (c.1 ∈ lo.*1) as (d & E & Hd)%list_elem_of_fmap.
        { rewrite Hlo1. apply list_elem_of_fmap. by exists c. }
        by rewrite <- (Hsame d c).
  }
  destruct (free_loop_spec lo fuel h' _ Ho) as (h'' & Hfree & H1 & H2).
  { by rewrite Hp. }
  { by rewrite Hp. }
  { rewrite Hp, length_app. lia. }
  eexists h', _, h''. split; [exact Hm|]. unfold pgexporter_free_tuples.
  rewrite Hfree. split; [done|].
  intros c Hc. rewrite H1, H2.
  rewrite !decide_True; [done| |]; apply list_elem_of_fmap; exists c; by rewrite Hp.
Qed.

Ltac solve_chain :=
  simpl;
  repeat (split; [reflexivity|]; eexists; split; [reflexivity|];
          split; [reflexivity|]);
  reflexivity.

Ltac solve_nodup := apply (bool_decide_unpack _); vm_compute; exact I.

Ltac solve_each Hc :=
  repeat (apply elem_of_cons in Hc as [->|Hc]; [reflexivity|]);
  by apply elem_of_nil in Hc.

Lemma merge_keeps_order_witness :
  ∃ h' r l,
    pgexporter_merge_tuples 5 example_heap (Some 1%positive) (Some 4%positive)
      = Some (h', r) ∧
    lseg h' r l None ∧
    example_a `sublist_of` l ∧ example_b `sublist_of` l ∧
    head l = Some (1%positive, row "db1" "10").
Proof.
  destruct (merge_keeps_order 5 example_heap (Some 1%positive) (Some 4%positive)
              example_a example_b) as (h' & r & l & Hm & Hl & Ha & Hb & Hh).
  - solve_chain.
  - solve_chain.
  - solve_nodup.
  - simpl. lia.
  - exists h', r, l. split; [exact Hm|]. split; [exact Hl|].
    split; [exact Ha|]. split; [exact Hb|]. apply Hh. discriminate.
Defined.

Lemma merge_unmatched_appends_witness :
  ∃ h' r,
    pgexporter_merge_tuples 4 example_heap_xyz (Some 1%positive) (Some 2%positive)
      = Some (h', r) ∧
    lseg h' r
      [(1%positive, row "x" "1"); (2%positive, row "y" "2");
       (3%positive, row "z" "3")] None.
Proof.
  apply (merge_unmatched_appends 4 example_heap_xyz (Some 1%positive)
           (Some 2%positive) example_x example_yz).
  - solve_chain.
  - solve_chain.
  - solve_nodup.
  - simpl. lia.
  - intros c bn Hc [= <-]. solve_each Hc.
Defined.

Lemma merge_absorbs_group_witness :
  ∃ h',
    pgexporter_merge_tuples 5 example_heap (Some 1%positive) (Some 4%positive)
      = Some (h', Some 1%positive) ∧
    lseg h' (Some 1%positive)
      [(1%positive, row "db1" "10"); (2%positive, row "db1" "11");
       (4%positive, row "db1" "99"); (3%positive, row "db2" "20")] None.
Proof.
  destruct (merge_absorbs_group 5 example_heap (Some 1%positive) (Some 4%positive)
              [] [(1%positive, row "db1" "10"); (2%positive, row "db1" "11")]
              [(3%positive, row "db2" "20")] (4%positive, row "db1" "99") [])
    as (h' & Hm & Hl & _); [..|by exists h'].
  - discriminate.
  - solve_nodup.
  - solve_chain.
  - solve_chain.
  - solve_nodup.
  - simpl. lia.
  - intros c Hc. by apply elem_of_nil in Hc.
  - intros c Hc. solve_each Hc.
  - intros c [= <-]. reflexivity.
Defined.

Lemma merge_then_free_witness :
  ∃ h' r h'',
    pgexporter_merge_tuples 5 example_heap (Some 1%positive) (Some 4%positive)
      = Some (h', r) ∧
    pgexporter_free_tuples 5 h' r = Some (h'', 0) ∧
    h_tuples h'' !! 4%positive = None ∧ h_tuple h'' !! 14%positive = None.
Proof.
  destruct (merge_then_free 5 example_heap (Some 1%positive) (Some 4%positive)
              [(1%positive, 11%positive); (2%positive, 12%positive);
               (3%positive, 13%positive)] [(4%positive, 14%positive)])
    as (h' & r & h'' & Hm & Hfree & Hgone).
  - simpl. repeat (split; [reflexivity|]; eexists; split; [reflexivity|];
                   split; [reflexivity|]; split; [by eexists|]). reflexivity.
  - simpl. repeat (split; [reflexivity|]; eexists; split; [reflexivity|];
                   split; [reflexivity|]; split; [by eexists|]). reflexivity.
  - solve_nodup.
  - solve_nodup.
  - simpl. lia.
  - exists h', r, h''. split; [exact Hm|]. split; [exact Hfree|].
    apply (Hgone (4%positive, 14%positive)). do 3 right. left.
Defined.

(** ** The query executor *)

Lemma D_tuple_stamp cap srv columns tag msg t :
  D_tuple cap srv columns tag msg = Some t →
  t_server t = srv ∧ t_columns t = columns ∧ t_tag t = slot cap (Some tag).
Proof.
  unfold D_tuple. destruct (m_data msg) as [data|]; [|done].
  cbn [mbind option_bind].
  destruct (memcpy_into (replicate cap 0) tag 0 (length tag)) as [d_tag|] eqn:Htag;
    [|done].
  cbn [mbind option_bind].
  destruct (D_column cap data 7) as [[d_name o1]|]; [|done]. cbn [mbind option_bind].
  destruct (if 2 <=? columns then D_column cap data o1 else Some (replicate cap 0, o1))
    as [[d_value o2]|]; [|done]. cbn [mbind option_bind].
  destruct (if 3 <=? columns then D_column cap data o2 else Some (replicate cap 0, o2))
    as [[d_desc o3]|]; [|done]. cbn [mbind option_bind].
  intros [= <-]. simpl. split; [done|]. split; [done|].
  assert (length tag ≤ cap)%nat as Hlen.
  { unfold memcpy_into in Htag. case_decide as Hd; [|done].
    rewrite length_replicate in Hd. lia. }
  rewrite slot_tag in Htag by done. by injection Htag as <-.
Qed.

Section ExecutorMore.
Variable MISC_LENGTH : nat.
Variable MESSAGE_STATUS_OK : Z.
Variable pgexporter_write_message : Z → message → Z.
Variable pgexporter_has_message : Z → option (list Z) → nat → bool.
Variable pgexporter_extract_message_offset :
  nat → option (list Z) → nat * option message.

Lemma decode_loop_alloc srv columns tag data data_size fuel :
  ∀ h0 h offset root current done msgs ts,
  split_messages pgexporter_extract_message_offset fuel offset data data_size
    = Some msgs →
  Forall2 (λ m t, D_tuple MISC_LENGTH srv columns tag m = Some t) (row_data msgs) ts →
  lseg h root done None → NoDup done.*1 → current = last_of None done →
  h_tuples h0 ⊆ h_tuples h → h_tuple h0 ⊆ h_tuple h →
  (∀ x, x ∈ done.*1 → h_tuples h0 !! x = None) →
  ∃ h' root' cells,
    decode_loop MISC_LENGTH pgexporter_extract_message_offset fuel h srv columns
      tag offset data data_size root current = Some (h', root') ∧
    lseg h' root' (done ++ cells) None ∧ NoDup (done ++ cells).*1 ∧
    cells.*2 = ts ∧
    h_tuples h0 ⊆ h_tuples h' ∧ h_tuple h0 ⊆ h_tuple h' ∧
    (∀ x, x ∈ (done ++ cells).*1 → h_tuples h0 !! x = None).
Proof.
  induction fuel as [|f IH];
    intros h0 h offset root current done msgs ts Hsp Hts Hl Hnd Hcur H1 H2 Hfr.
  { simpl in *. destruct (offset <? data_size)%nat; [done|].
    injection Hsp as <-. inversion Hts; subst.
    exists h, root, []. rewrite app_nil_r. done. }
  cbn [split_messages decode_loop] in *.
  destruct (offset <? data_size)%nat.
  2:{ injection Hsp as <-. inversion Hts; subst.
      exists h, root, []. rewrite app_nil_r. done. }
  destruct (pgexporter_extract_message_offset offset data) as [offset' msg].
  destruct (split_messages pgexporter_extract_message_offset f offset' data data_size)
    as [l|] eqn:Hl'; [|done].
  cbn [mbind option_bind] in Hsp. injection Hsp as <-.
  destruct msg as [m|]; [|by eapply IH].
  destruct (Z.eqb_spec (m_kind m) 68) as [Hk|Hk];
    [|rewrite row_data_cons_other in Hts by done; by eapply IH].
  rewrite row_data_cons_row in Hts by done.
  inversion Hts as [|? t ? ts' Hd Hts']; subst.
  destruct (create_D_tuple_alloc MISC_LENGTH h srv columns tag m t Hd)
    as (r & y & Hc & Hr & Hy).
  rewrite Hc. cbn [mbind option_bind].
  set (h1 := mk_heap (<[r := mk_tuples (Some y) None]> (h_tuples h)) (<[y := t]> (h_tuple h))) in *.
  assert (Hsub : h_tuple h ⊆ h_tuple h1) by by apply insert_subseteq.
  assert (Hr0 : h_tuples h0 !! r = None).
  { destruct (h_tuples h0 !! r) as [n|] eqn:E; [|done].
    by rewrite (lookup_weaken _ _ _ _ E H1) in Hr. }
  assert (Hy0 : h_tuple h0 !! y = None).
  { destruct (h_tuple h0 !! y) as [n|] eqn:E; [|done].
    by rewrite (lookup_weaken _ _ _ _ E H2) in Hy. }
  assert (H11 : h_tuples h0 ⊆ h_tuples h1) by by apply insert_subseteq_r.
  assert (H12 : h_tuple h0 ⊆ h_tuple h1) by by apply insert_subseteq_r.
  assert (Hr' : r ∉ done.*1).
  { intros Hin. destruct (lseg_dom _ _ _ _ _ Hl Hin) as [? E]. congruence. }
  assert (Hnew : lseg h1 (Some r) [(r, t)] None).
  { split; [done|]. exists (mk_tuples (Some y) None). simpl.
    rewrite !lookup_insert_eq. done. }
  assert (Hl1 : lseg h1 root done None).
  { eapply lseg_frame; [exact Hsub| |exact Hl].
    intros x Hx. simpl. rewrite lookup_insert_ne; [done|]. by intros <-. }
  assert (Hnd1 : NoDup (done ++ [(r, t)]).*1).
  { rewrite fmap_app. apply NoDup_app. split; [done|]. split.
    - intros x Hx [->|Hx']%elem_of_cons; [done|]. by apply elem_of_nil in Hx'.
    - apply NoDup_singleton. }
  assert (Hfr1 : ∀ x, x ∈ (done ++ [(r, t)]).*1 → h_tuples h0 !! x = None).
  { intros x. rewrite fmap_app. intros [Hx|Hx]%elem_of_app; [by apply Hfr|].
    apply list_elem_of_singleton in Hx. by subst x. }
  destruct done as [|c done].
  - simpl in Hl. subst root. simpl last_of.
    destruct (IH h0 h1 offset' (Some r) (Some r) [(r, t)] l ts' Hl' Hts' Hnew)
      as (h' & root' & cells & Hdl & Hl2 & Hnd2 & Hcells & E1 & E2 & Hfr2);
      [done|done|done|done|done|].
    exists h', root', ((r, t) :: cells). rewrite Hdl.
    split; [done|]. split; [done|]. split; [done|]. split; [|done].
    by rewrite fmap_cons, Hcells.
  - pose proof (lseg_head _ _ _ _ _ Hl) as ->.
    simpl last_of.
    destruct (lseg_end _ _ _ _ Hl1) as (ne & Hne & _).
    rewrite (store_next_eq h1 _ ne _ Hne). cbn [mbind option_bind].
    set (h2 := mk_heap (<[end_of c.1 done := mk_tuples (tuple_p ne) (Some r)]> (h_tuples h1))
                 (h_tuple h1)).
    assert (Hnx : next_at h2 (Some (end_of c.1 done)) = Some (Some r)).
    { unfold next_at, load_tuples. simpl. by rewrite lookup_insert_eq. }
    rewrite Hnx. cbn [mbind option_bind].
    assert (H21 : h_tuples h0 ⊆ h_tuples h2).
    { apply insert_subseteq_r; [|done]. apply Hfr, end_of_elem. }
    assert (Hl2 : lseg h2 (Some c.1) ((c :: done) ++ [(r, t)]) None).
    { eapply lseg_app.
      - by apply (lseg_relink h1 c done None).
      - eapply lseg_frame; [| |exact Hnew]; [done|].
        intros x [->|Hx]%elem_of_cons; [|by apply elem_of_nil in Hx].
        simpl. rewrite lookup_insert_ne; [done|].
        intros E. apply Hr'. rewrite <- E. apply end_of_elem. }
    destruct (IH h0 h2 offset' (Some c.1) (Some r) ((c :: done) ++ [(r, t)]) l ts' Hl' Hts' Hl2)
      as (h' & root' & cells & Hdl & Hl3 & Hnd3 & Hcells & E1 & E2 & Hfr2);
      [done|by rewrite last_of_snoc|done|done|done|].
    exists h', root', ((r, t) :: cells). rewrite Hdl.
    rewrite <- app_assoc in Hl3, Hnd3, Hfr2.
    split; [done|]. split; [done|]. split; [done|]. split; [|done].
    by rewrite fmap_cons, Hcells.
Qed.

(** What a call of [query_execute] that returns 0 has done. *)
Lemma query_execute_inv fuel h config reads srv query tag columns tuples h' root :
  query_execute MISC_LENGTH MESSAGE_STATUS_OK pgexporter_write_message
    pgexporter_has_message pgexporter_extract_message_offset fuel h config
    reads srv query tag columns tuples = Some (h', root, 0) →
  ∃ data data_size msgs cells,
    read_loop MESSAGE_STATUS_OK pgexporter_has_message reads None 0
      = Some (ReadReady data data_size) ∧
    split_messages pgexporter_extract_message_offset fuel 0 data data_size
      = Some msgs ∧
    lseg h' root cells None ∧ NoDup cells.*1 ∧
    Forall2 (λ m c, D_tuple MISC_LENGTH (Z.of_nat srv) columns tag m = Some c.2)
      (row_data msgs) cells ∧
    h_tuples h ⊆ h_tuples h' ∧ h_tuple h ⊆ h_tuple h' ∧
    (∀ x, x ∈ cells.*1 → h_tuples h !! x = None).
Proof.
  unfold query_execute. rewrite query_message_frame. cbn [mbind option_bind].
  destruct (servers config !! srv) as [s|]; [|done]. cbn [mbind option_bind].
  destruct (Z.eqb_spec (pgexporter_write_message (s_fd s)
    (mk_message 81 (1 + 4 + length query + 1)%nat
       (Some ([81] ++ int32_bytes (4 + Z.of_nat (length query) + 1) ++ query ++ [0]))))
    MESSAGE_STATUS_OK) as [Hok|Hno]; [|done].
  destruct (read_loop MESSAGE_STATUS_OK pgexporter_has_message reads None 0)
    as [[|data data_size]|]; [done| |done].
  cbn [mbind option_bind].
  destruct (decode_loop MISC_LENGTH pgexporter_extract_message_offset fuel h
              (Z.of_nat srv) columns tag 0 data data_size None None)
    as [[h1 root1]|] eqn:Hd; [|done].
  cbn [mbind option_bind]. intros [= -> ->].
  destruct (decode_loop_inv _ _ _ _ _ _ _ _ _ _ _ _ _ _ Hd) as (msgs & ts & Hsp & Hts).
  destruct (decode_loop_alloc (Z.of_nat srv) columns tag data data_size fuel h h 0%nat
              None None [] msgs ts Hsp Hts)
    as (h2 & root2 & cells & Hd2 & Hl & Hnd & Hc & E1 & E2 & Hfr);
    [done|constructor|done|done|done|by intros x ?%elem_of_nil|].
  rewrite Hd in Hd2. injection Hd2 as <- <-. simpl in Hl, Hnd, Hfr.
  exists data, data_size, msgs, cells.
  repeat (split; [done|]). split; [|done].
  subst ts. by apply Forall2_fmap_r in Hts.
Qed.

(** X8.  A call of [query_execute] that returns 0 only allocates: every
    node and row the heap held at the call is as it was, so every chain
    that was there is still there, and the nodes of the chain returned
    are all new. *)
Theorem query_execute_allocates_fresh fuel h config reads srv query tag columns
    tuples h' root :
  query_execute MISC_LENGTH MESSAGE_STATUS_OK pgexporter_write_message
    pgexporter_has_message pgexporter_extract_message_offset fuel h config
    reads srv query tag columns tuples = Some (h', root, 0) →
  h_tuples h ⊆ h_tuples h' ∧ h_tuple h ⊆ h_tuple h' ∧
  (∀ p l, lseg h p l None → lseg h' p l None) ∧
  ∃ cells, lseg h' root cells None ∧
           ∀ x, x ∈ cells.*1 → h_tuples h !! x = None.
Proof.
  intros Hq.
  destruct (query_execute_inv _ _ _ _ _ _ _ _ _ _ _ Hq)
    as (data & data_size & msgs & cells & _ & _ & Hl & _ & _ & E1 & E2 & Hfr).
  split; [done|]. split; [done|]. split; [|by exists cells].
  intros p l Hp. eapply lseg_frame; [exact E2| |exact Hp].
  intros x Hx. destruct (lseg_dom _ _ _ _ _ Hp Hx) as [n Hn].
  by rewrite Hn, (lookup_weaken _ _ _ _ Hn E1).
Qed.

(** X9.  The chains of two calls in a row can be merged: after a second
    successful [query_execute], the chain of the first is intact, the two
    chains share no node, and [pgexporter_merge_tuples] on them returns a
    chain holding exactly the nodes of both. *)
Theorem query_execute_twice_then_merge
    fuel1 h config1 reads1 srv1 query1 tag1 columns1 tuples1 h1 root1
    fuel2 config2 reads2 srv2 query2 tag2 columns2 tuples2 h2 root2 :
  query_execute MISC_LENGTH MESSAGE_STATUS_OK pgexporter_write_message
    pgexporter_has_message pgexporter_extract_message_offset fuel1 h config1
    reads1 srv1 query1 tag1 columns1 tuples1 = Some (h1, root1, 0) →
  query_execute MISC_LENGTH MESSAGE_STATUS_OK pgexporter_write_message
    pgexporter_has_message pgexporter_extract_message_offset fuel2 h1 config2
    reads2 srv2 query2 tag2 columns2 tuples2 = Some (h2, root2, 0) →
  ∃ cells1 cells2,
    lseg h2 root1 cells1 None ∧ lseg h2 root2 cells2 None ∧
    NoDup (cells1 ++ cells2).*1 ∧
    ∀ fuel, (length cells1 + length cells2 < fuel)%nat →
      ∃ h3 r l,
        pgexporter_merge_tuples fuel h2 root1 root2 = Some (h3, r) ∧
        lseg h3 r l None ∧ l ≡ₚ cells1 ++ cells2.
Proof.
  intros Hq1 Hq2.
  destruct (query_execute_inv _ _ _ _ _ _ _ _ _ _ _ Hq1)
    as (_ & _ & _ & cells1 & _ & _ & Hl1 & Hnd1 & _ & _ & _ & _).
  destruct (query_execute_inv _ _ _ _ _ _ _ _ _ _ _ Hq2)
    as (_ & _ & _ & cells2 & _ & _ & Hl2 & Hnd2 & _ & E1 & E2 & Hfr).
  assert (Hl1' : lseg h2 root1 cells1 None).
  { eapply lseg_frame; [exact E2| |exact Hl1].
    intros x Hx. destruct (lseg_dom _ _ _ _ _ Hl1 Hx) as [n Hn].
    by rewrite Hn, (lookup_weaken _ _ _ _ Hn E1). }
  assert (Hnd : NoDup (cells1 ++ cells2).*1).
  { rewrite fmap_app. apply NoDup_app. split; [done|]. split; [|done].
    intros x Hx1 Hx2. destruct (lseg_dom _ _ _ _ _ Hl1 Hx1) as [n Hn].
    rewrite (Hfr x Hx2) in Hn. done. }
  exists cells1, cells2. split; [done|]. split; [done|]. split; [done|].
  intros fuel Hf.
  destruct (merge_refines fuel h2 root1 root2 cells1 cells2 Hl1' Hl2 Hnd Hf)
    as (h3 & Hm & Hl & _).
  eexists _, _, _. split; [exact Hm|]. split; [exact Hl|].
  apply merge_list_perm.
Qed.

(** X10.  Every row of the chain a successful [query_execute] returns
    carries the server, the column count and the tag of the call. *)
Theorem query_execute_stamps_rows fuel h config reads srv query tag columns
    tuples h' root :
  query_execute MISC_LENGTH MESSAGE_STATUS_OK pgexporter_write_message
    pgexporter_has_message pgexporter_extract_message_offset fuel h config
    reads srv query tag columns tuples = Some (h', root, 0) →
  ∃ cells,
    lseg h' root cells None ∧
    Forall (λ c, t_server c.2 = Z.of_nat srv ∧ t_columns c.2 = columns ∧
                 t_tag c.2 = slot MISC_LENGTH (Some tag)) cells.
Proof.
  intros Hq.
  destruct (query_execute_inv _ _ _ _ _ _ _ _ _ _ _ Hq)
    as (_ & _ & msgs & cells & _ & _ & Hl & _ & Hf & _).
  exists cells. split; [done|].
  eapply Forall2_Forall_r; [exact Hf|].
  apply Forall_forall. intros m _ c Hd. by apply D_tuple_stamp in Hd.
Qed.

Lemma read_loop_acc reads : ∀ data data_size acc buf size,
  read_loop MESSAGE_STATUS_OK pgexporter_has_message reads data data_size
    = Some (ReadReady (Some buf) size) →
  match data with
  | Some b => b = acc ∧ data_size = length acc
  | None => data_size = 0%nat → acc = []
  end →
  ∃ k, (0 < k ≤ length reads)%nat ∧
       buf = acc ++ concat (map unit_bytes (take k reads)) ∧
       size = length buf ∧
       Forall (λ r, r.1 = MESSAGE_STATUS_OK) (take k reads) ∧
       pgexporter_has_message 90 (Some buf) size = true.
Proof.
  induction reads as [|[status msg] reads IH]; intros data data_size acc buf size Hr Hinv;
    [done|].
  cbn [read_loop] in Hr.
  destruct (Z.eqb_spec status MESSAGE_STATUS_OK) as [Hst|]; [|done].
  destruct msg as [m|]; [|done]. cbn [mbind option_bind] in Hr.
  destruct (data_append data data_size (m_data m) (m_length m)) as [data'|] eqn:Hap;
    [|done].
  cbn [mbind option_bind] in Hr.
  assert (Hinv' : match data' with
                  | Some b => b = acc ++ unit_bytes (status, Some m) ∧
                              (data_size + m_length m)%nat
                                = length (acc ++ unit_bytes (status, Some m))
                  | None => (data_size + m_length m)%nat = 0%nat →
                            acc ++ unit_bytes (status, Some m) = []
                  end).
  { unfold unit_bytes. cbn [snd]. unfold data_append in Hap.
    assert (Hsz : data_size = length acc ∨ data = None ∧ (data_size = 0%nat → acc = [])).
    { destruct data as [b|]; [left; by destruct Hinv|right; done]. }
    destruct (m_data m) as [nb|]; cbn [default].
    - case_decide as Hg; [|done]. injection Hap as <-. destruct Hg as [Hlen Hnull].
      assert (take data_size (default [] data) = acc) as ->.
      { destruct data as [b|]; simpl.
        - destruct Hinv as [-> ->]. by rewrite firstn_all.
        - rewrite Hinv by auto. by destruct data_size. }
      split; [done|]. rewrite length_app, length_take.
      unfold id. destruct Hsz as [->|[-> Hacc]]; [lia|].
      rewrite (Hnull eq_refl) in *. rewrite Hacc by done. simpl. lia.
    - injection Hap as <-. intros H0. rewrite take_nil, app_nil_r.
      destruct Hsz as [Hsz|[_ Hacc]]; [|apply Hacc; lia].
      destruct acc; [done|simpl in Hsz; lia]. }
  destruct (pgexporter_has_message 90 data' (data_size + m_length m)) eqn:Hhas.
  - injection Hr as Hd Hs. subst data' size. destruct Hinv' as [Hb Hsz].
    exists 1%nat.
    assert (E : concat (map unit_bytes (take 1 ((status, Some m) :: reads)))
                = unit_bytes (status, Some m)) by (simpl; by rewrite app_nil_r).
    rewrite E. split; [simpl; lia|]. split; [done|].
    split; [by rewrite Hb|]. split; [|done].
    simpl. by repeat constructor.
  - destruct (IH _ _ (acc ++ unit_bytes (status, Some m)) _ _ Hr Hinv')
      as (k & Hk & Hbuf & Hsz & Hok & Hh).
    exists (S k). simpl. split; [lia|]. split; [by rewrite Hbuf, <- app_assoc|].
    split; [done|]. split; [|done]. by constructor.
Qed.

(** X11.  The buffer [query_execute] goes on to split is the concatenation,
    in order, of what the reads up to the one that brought the ready
    message delivered, each with status [MESSAGE_STATUS_OK], and
    [data_size] is its length. *)
Theorem read_loop_accumulates reads buf size :
  read_loop MESSAGE_STATUS_OK pgexporter_has_message reads None 0
    = Some (ReadReady (Some buf) size) →
  ∃ k, (0 < k ≤ length reads)%nat ∧
       buf = concat (map unit_bytes (take k reads)) ∧
       size = length buf ∧
       Forall (λ r, r.1 = MESSAGE_STATUS_OK) (take k reads) ∧
       pgexporter_has_message 90 (Some buf) size = true.
Proof.
  intros Hr. destruct (read_loop_acc reads None 0%nat [] buf size Hr) as (k & H);
    [done|]. by exists k.
Qed.

Lemma read_loop_app reads more : ∀ data data_size r,
  read_loop MESSAGE_STATUS_OK pgexporter_has_message reads data data_size = Some r →
  read_loop MESSAGE_STATUS_OK pgexporter_has_message (reads ++ more) data data_size
    = Some r.
Proof.
  induction reads as [|[status msg] reads IH]; intros data data_size r Hr; [done|].
  cbn [read_loop app] in *.
  destruct (status =? MESSAGE_STATUS_OK); [|done].
  destruct msg as [m|]; [|done]. cbn [mbind option_bind] in *.
  destruct (data_append data data_size (m_data m) (m_length m)) as [data'|]; [|done].
  cbn [mbind option_bind] in *.
  destruct (pgexporter_has_message 90 data' (data_size + m_length m)); [done|].
  by apply IH.
Qed.

(** X12.  [query_execute] reads nothing past the read that ends its loop:
    whatever the transport would have answered afterwards, the outcome of
    the call is the same. *)
Theorem query_execute_ignores_later_reads fuel h config reads more srv query tag
    columns tuples res :
  query_execute MISC_LENGTH MESSAGE_STATUS_OK pgexporter_write_message
    pgexporter_has_message pgexporter_extract_message_offset fuel h config
    reads srv query tag columns tuples = Some res →
  query_execute MISC_LENGTH MESSAGE_STATUS_OK pgexporter_write_message
    pgexporter_has_message pgexporter_extract_message_offset fuel h config
    (reads ++ more) srv query tag columns tuples = Some res.
Proof.
  unfold query_execute. destruct (query_message query) as [qmsg|]; [|done].
  cbn [mbind option_bind]. destruct (servers config !! srv) as [s|]; [|done].
  cbn [mbind option_bind].
  destruct (pgexporter_write_message (s_fd s) qmsg =? MESSAGE_STATUS_OK); [|done].
  destruct (read_loop MESSAGE_STATUS_OK pgexporter_has_message reads None 0)
    as [r|] eqn:Hr; [|done].
  by rewrite (read_loop_app reads more _ _ _ Hr).
Qed.

End ExecutorMore.

Lemma query_execute_allocates_fresh_witness :
  ∃ h' root,
    query_execute 128 1 send_ok has_message extract_message_offset 10 example_heap
      config_two example_reads 0
      (chars "SELECT name,setting,short_desc FROM pg_settings;")
      (chars "pg_settings") 3 None = Some (h', root, 0) ∧
    lseg h' (Some 1%positive) example_a None.
Proof.
  pose proof (query_execute_allocates_fresh 128 1 send_ok has_message
                extract_message_offset 10 example_heap config_two example_reads 0
                (chars "SELECT name,setting,short_desc FROM pg_settings;")
                (chars "pg_settings") 3 None) as H.
  destruct (query_execute 128 1 send_ok has_message extract_message_offset 10
              example_heap config_two example_reads 0
              (chars "SELECT name,setting,short_desc FROM pg_settings;")
              (chars "pg_settings") 3 None) as [[[h' root] z]|] eqn:E;
    [|vm_compute in E; discriminate].
  assert (z = 0) as -> by (vm_compute in E; congruence).
  destruct (H h' root eq_refl) as (_ & _ & Hkeep & _).
  exists h', root. split; [reflexivity|]. apply Hkeep. solve_chain.
Defined.

Lemma query_execute_twice_then_merge_witness :
  ∃ h1 root1 h2 root2 h3 r l,
    pgexporter_query_settings 128 1 send_ok has_message extract_message_offset 10
      example_heap config_two example_reads 0 None = Some (h1, root1, 0) ∧
    pgexporter_query_settings 128 1 send_ok has_message extract_message_offset 10
      h1 config_two example_reads 1 None = Some (h2, root2, 0) ∧
    pgexporter_merge_tuples 5 h2 root1 root2 = Some (h3, r) ∧
    lseg h3 r l None ∧ length l = 4%nat.
Proof.
  unfold pgexporter_query_settings.
  destruct (query_execute 128 1 send_ok has_message extract_message_offset 10
              example_heap config_two example_reads 0
              (chars "SELECT name,setting,short_desc FROM pg_settings;")
              (chars "pg_settings") 3 None) as [[[h1 root1] z1]|] eqn:E1;
    [|vm_compute in E1; discriminate].
  assert (z1 = 0) as -> by (vm_compute in E1; congruence).
  destruct (query_execute 128 1 send_ok has_message extract_message_offset 10
              h1 config_two example_reads 1
              (chars "SELECT name,setting,short_desc FROM pg_settings;")
              (chars "pg_settings") 3 None) as [[[h2 root2] z2]|] eqn:E2;
    [|vm_compute in E1; injection E1 as <- <-; vm_compute in E2; discriminate].
  assert (z2 = 0) as ->
    by (vm_compute in E1; injection E1 as <- <-; vm_compute in E2; congruence).
  destruct (query_execute_twice_then_merge 128 1 send_ok has_message
              extract_message_offset _ _ _ _ _ _ _ _ _ _ _ _ _ _ _ _ _ _ _ _ _
              E1 E2) as (cells1 & cells2 & Hl1 & Hl2 & _ & Hmerge).
  assert (length cells1 = 2%nat ∧ length cells2 = 2%nat) as [Hc1 Hc2].
  { destruct (query_execute_inv _ _ _ _ _ _ _ _ _ _ _ _ _ _ _ _ E1)
      as (d1 & s1 & m1 & c1 & Hr1 & Hs1 & Hc1 & _ & Hf1 & _).
    destruct (query_execute_inv _ _ _ _ _ _ _ _ _ _ _ _ _ _ _ _ E2)
      as (d2 & s2 & m2 & c2 & Hr2 & Hs2 & Hc2 & _ & Hf2 & E21 & E22 & _).
    vm_compute in Hr1. injection Hr1 as <- <-. vm_compute in Hs1. injection Hs1 as <-.
    vm_compute in Hr2. injection Hr2 as <- <-. vm_compute in Hs2. injection Hs2 as <-.
    apply Forall2_length in Hf1, Hf2.
    assert (lseg h2 root1 c1 None) as Hc1'.
    { eapply lseg_frame; [exact E22| |exact Hc1].
      intros x Hx. destruct (lseg_dom _ _ _ _ _ Hc1 Hx) as [n Hn].
      by rewrite Hn, (lookup_weaken _ _ _ _ Hn E21). }
    clear -Hl1 Hl2 Hc1' Hc2 Hf1 Hf2.
    assert (∀ h p l l', lseg h p l None → lseg h p l' None → length l = length l')
      as Hdet.
    { clear. intros h p l. revert p. induction l as [|c l IH]; intros p [|c' l']; simpl.
      - done.
      - intros -> [? _]. done.
      - intros [-> _] ?. done.
      - intros [-> (n & Hn & _ & Hl)] [[= E] (n' & Hn' & _ & Hl')].
        rewrite <- E in Hn'. assert (n' = n) as -> by congruence.
        f_equal. by eapply IH. }
    rewrite (Hdet _ _ _ _ Hl1 Hc1'), (Hdet _ _ _ _ Hl2 Hc2), <- Hf1, <- Hf2.
    done. }
  destruct (Hmerge 5%nat) as (h3 & r & l & Hm & Hl & Hp); [lia|].
  exists h1, root1, h2, root2, h3, r, l.
  split; [reflexivity|]. split; [exact E2|]. split; [exact Hm|].
  split; [exact Hl|]. apply Permutation_length in Hp. rewrite Hp, length_app. lia.
Defined.

Lemma query_execute_stamps_rows_witness :
  ∃ h' root cells,
    pgexporter_query_settings 128 1 send_ok has_message extract_message_offset 10
      example_heap config_two example_reads 0 None = Some (h', root, 0) ∧
    lseg h' root cells None ∧
    Forall (λ c, t_server c.2 = 0 ∧ t_columns c.2 = 3 ∧
                 t_tag c.2 = chars "pg_settings" ++ replicate 117 0) cells.
Proof.
  unfold pgexporter_query_settings.
  pose proof (query_execute_stamps_rows 128 1 send_ok has_message
                extract_message_offset 10 example_heap config_two example_reads 0
                (chars "SELECT name,setting,short_desc FROM pg_settings;")
                (chars "pg_settings") 3 None) as H.
  destruct (query_execute 128 1 send_ok has_message extract_message_offset 10
              example_heap config_two example_reads 0
              (chars "SELECT name,setting,short_desc FROM pg_settings;")
              (chars "pg_settings") 3 None) as [[[h' root] z]|] eqn:E;
    [|vm_compute in E; discriminate].
  assert (z = 0) as -> by (vm_compute in E; congruence).
  destruct (H h' root eq_refl) as (cells & Hl & Hf).
  exists h', root, cells. split; [reflexivity|]. split; [exact Hl|exact Hf].
Defined.

Lemma read_loop_accumulates_witness :
  ∃ buf size k,
    read_loop 1 has_message example_reads None 0 = Some (ReadReady (Some buf) size) ∧
    buf = concat (map unit_bytes (take k example_reads)) ∧ size = length buf.
Proof.
  pose proof (read_loop_accumulates 1 has_message example_reads) as H.
  destruct (read_loop 1 has_message example_reads None 0) as [[|[buf|] size]|] eqn:E;
    try (vm_compute in E; discriminate).
  destruct (H buf size eq_refl) as (k & _ & Hb & Hs & _).
  exists buf, size, k. split; [reflexivity|]. split; [exact Hb|exact Hs].
Defined.

Lemma query_execute_ignores_later_reads_witness :
  ∃ res,
    pgexporter_query_settings 128 1 send_ok has_message extract_message_offset 10
      example_heap config_two example_reads 0 None = Some res ∧
    pgexporter_query_settings 128 1 send_ok has_message extract_message_offset 10
      example_heap config_two (example_reads ++ [(2, None)]) 0 None = Some res.
Proof.
  unfold pgexporter_query_settings.
  destruct (query_execute 128 1 send_ok has_message extract_message_offset 10
              example_heap config_two example_reads 0
              (chars "SELECT name,setting,short_desc FROM pg_settings;")
              (chars "pg_settings") 3 None) as [res|] eqn:E;
    [|vm_compute in E; discriminate].
  exists res. split; [reflexivity|].
  apply (query_execute_ignores_later_reads 128 1 send_ok has_message
           extract_message_offset 10 example_heap config_two example_reads
           [(2, None)] 0 _ _ 3 None res E).
Defined.

(** ** Releasing one list among others *)

(** X16.  [pgexporter_free_tuples] releases the nodes and the rows of its
    list and nothing else: every other node and row of the heap is as it
    was, so a list that shares no node and no row with the one released
    is still there. *)
Theorem free_tuples_keeps_the_rest fuel h p l q k :
  owned h p l → NoDup l.*1 → NoDup l.*2 → (length l ≤ fuel)%nat →
  owned h q k →
  (∀ x, x ∈ k.*1 → x ∉ l.*1) → (∀ y, y ∈ k.*2 → y ∉ l.*2) →
  ∃ h',
    pgexporter_free_tuples fuel h p = Some (h', 0) ∧
    (∀ x, x ∉ l.*1 → h_tuples h' !! x = h_tuples h !! x) ∧
    (∀ y, y ∉ l.*2 → h_tuple h' !! y = h_tuple h !! y) ∧
    owned h' q k.
Proof.
  intros Ho Hn1 Hn2 Hf Hk Hd1 Hd2.
  destruct (free_loop_spec l fuel h p Ho Hn1 Hn2 Hf) as (h' & Hfree & H1 & H2).
  exists h'. unfold pgexporter_free_tuples. rewrite Hfree. split; [done|].
  assert (E1 : ∀ x, x ∉ l.*1 → h_tuples h' !! x = h_tuples h !! x).
  { intros x Hx. by rewrite H1, decide_False. }
  assert (E2 : ∀ y, y ∉ l.*2 → h_tuple h' !! y = h_tuple h !! y).
  { intros y Hy. by rewrite H2, decide_False. }
  split; [done|]. split; [done|].
  eapply owned_frame; [| |exact Hk]; intros z Hz; [apply E1|apply E2]; auto.
Qed.

Lemma free_tuples_keeps_the_rest_witness :
  ∃ h', pgexporter_free_tuples 1 example_heap_xyz (Some 1%positive) = Some (h', 0) ∧
        owned h' (Some 2%positive)
          [(2%positive, 12%positive); (3%positive, 13%positive)].
Proof.
  destruct (free_tuples_keeps_the_rest 1 example_heap_xyz (Some 1%positive)
              [(1%positive, 11%positive)] (Some 2%positive)
              [(2%positive, 12%positive); (3%positive, 13%positive)])
    as (h' & Hfree & _ & _ & Hk).
  - simpl. split; [reflexivity|]. eexists. split; [reflexivity|].
    split; [reflexivity|]. split; [by eexists|reflexivity].
  - apply (bool_decide_unpack _). vm_compute. exact I.
  - apply (bool_decide_unpack _). vm_compute. exact I.
  - simpl. lia.
  - simpl. repeat (split; [reflexivity|]; eexists; split; [reflexivity|];
                   split; [reflexivity|]; split; [by eexists|]). reflexivity.
  - intros x Hx. apply (bool_decide_unpack _).
    simpl in Hx. apply elem_of_cons in Hx as [->|Hx];
      [|apply list_elem_of_singleton in Hx as ->]; vm_compute; exact I.
  - intros x Hx. apply (bool_decide_unpack _).
    simpl in Hx. apply elem_of_cons in Hx as [->|Hx];
      [|apply list_elem_of_singleton in Hx as ->]; vm_compute; exact I.
  - exists h'. split; [exact Hfree|exact Hk].
Defined.

(** ** The three probes *)

Lemma D_tuple_two_columns cap srv tag msg t :
  D_tuple cap srv 2 tag msg = Some t → t_desc t = replicate cap 0.
Proof.
  unfold D_tuple. destruct (m_data msg) as [data|]; [|done].
  cbn [mbind option_bind].
  destruct (memcpy_into (replicate cap 0) tag 0 (length tag)); [|done].
  cbn [mbind option_bind].
  destruct (D_column cap data 7) as [[d_name o1]|]; [|done].
  cbn [mbind option_bind]. simpl Z.leb.
  destruct (D_column cap data o1) as [[d_value o2]|]; [|done].
  cbn [mbind option_bind]. by intros [= <-].
Qed.

Section ExecutorProbes.
Variable MISC_LENGTH : nat.
Variable MESSAGE_STATUS_OK : Z.
Variable pgexporter_write_message : Z → message → Z.
Variable pgexporter_has_message : Z → option (list Z) → nat → bool.
Variable pgexporter_extract_message_offset :
  nat → option (list Z) → nat * option message.

(** X17.  What the three probes label their rows with: every row of the
    list a probe returns with status 0 carries the backend's index, and
    [pg_database] with two columns for the database sizes,
    [pg_replication_slots] with two columns for the replication slots,
    [pg_settings] with three columns for the settings; the rows of the
    two-column probes have an empty [desc]. *)
Theorem probes_stamp_rows probe tag columns fuel h config reads srv tuples h' root :
  probe = pgexporter_query_database_size MISC_LENGTH MESSAGE_STATUS_OK
            pgexporter_write_message pgexporter_has_message
            pgexporter_extract_message_offset ∧
    tag = chars "pg_database" ∧ columns = 2 ∨
  probe = pgexporter_query_replication_slot_active MISC_LENGTH MESSAGE_STATUS_OK
            pgexporter_write_message pgexporter_has_message
            pgexporter_extract_message_offset ∧
    tag = chars "pg_replication_slots" ∧ columns = 2 ∨
  probe = pgexporter_query_settings MISC_LENGTH MESSAGE_STATUS_OK
            pgexporter_write_message pgexporter_has_message
            pgexporter_extract_message_offset ∧
    tag = chars "pg_settings" ∧ columns = 3 →
  probe fuel h config reads srv tuples = Some (h', root, 0) →
  ∃ cells,
    lseg h' root cells None ∧
    Forall (λ c, t_server c.2 = Z.of_nat srv ∧ t_columns c.2 = columns ∧
                 t_tag c.2 = slot MISC_LENGTH (Some tag) ∧
                 (columns = 2 → t_desc c.2 = replicate MISC_LENGTH 0)) cells.
Proof.
  intros Hp Hq.
  assert (∃ query,
            query_execute MISC_LENGTH MESSAGE_STATUS_OK pgexporter_write_message
              pgexporter_has_message pgexporter_extract_message_offset fuel h
              config reads srv query tag columns tuples = Some (h', root, 0))
    as [query Hq'].
  { destruct Hp as [(-> & -> & ->)|[(-> & -> & ->)|(-> & -> & ->)]];
      by eexists. }
  destruct (query_execute_inv _ _ _ _ _ _ _ _ _ _ _ _ _ _ _ _ Hq')
    as (_ & _ & msgs & cells & _ & _ & Hl & _ & Hf & _).
  exists cells. split; [done|].
  eapply Forall2_Forall_r; [exact Hf|].
  apply Forall_forall. intros m _ c Hd.
  destruct (D_tuple_stamp _ _ _ _ _ _ Hd) as (E1 & E2 & E3).
  repeat (split; [done|]). intros ->. by eapply D_tuple_two_columns.
Qed.

End ExecutorProbes.

Lemma probes_stamp_rows_witness :
  ∃ h' root cells,
    pgexporter_query_database_size 128 1 send_ok has_message extract_message_offset
      10 example_heap config_two example_reads 0 None = Some (h', root, 0) ∧
    lseg h' root cells None ∧
    Forall (λ c, t_columns c.2 = 2 ∧ t_desc c.2 = replicate 128 0) cells.
Proof.
  pose proof (probes_stamp_rows 128 1 send_ok has_message extract_message_offset
                (pgexporter_query_database_size 128 1 send_ok has_message
                   extract_message_offset)
                (chars "pg_database") 2 10 example_heap config_two example_reads
                0%nat None) as H.
  destruct (pgexporter_query_database_size 128 1 send_ok has_message
              extract_message_offset 10 example_heap config_two example_reads 0
              None) as [[[h' root] z]|] eqn:E;
    [|vm_compute in E; discriminate].
  assert (z = 0) as -> by (vm_compute in E; congruence).
  destruct (H h' root) as (cells & Hl & Hf); [by left|reflexivity|].
  exists h', root, cells. split; [reflexivity|]. split; [exact Hl|].
  eapply Forall_impl; [exact Hf|]. intros c (_ & Hc & _ & Hd). split; [exact Hc|].
  by apply Hd.
Defined.

(** ** Querying, then releasing *)

Lemma lseg_row h p l q x :
  lseg h p l q → x ∈ l.*1 →
  ∃ n t, h_tuples h !! x = Some n ∧ load_tuple h (tuple_p n) = Some t.
Proof.
  revert p. induction l as [|c l IH]; intros p; simpl.
  - intros _ Hx. by apply elem_of_nil in Hx.
  - intros [_ (n & Hn & Ht & Hl)] [->|Hx]%elem_of_cons; [by eauto|].
    by eapply IH.
Qed.

Lemma owned_eq h p lo lo' :
  owned h p lo → lo'.*1 = lo.*1 →
  (∀ c, c ∈ lo' → tuple_p <$> h_tuples h !! c.1 = Some (Some c.2)) →
  lo' = lo.
Proof.
  revert p lo'. induction lo as [|c lo IH]; intros p [|c' lo']; simpl; try done.
  intros [-> (n & Hn & Hp & _ & Ho)] [= E1 E] Hall.
  f_equal.
  - pose proof (Hall c' ltac:(left)) as Hc. rewrite E1, Hn in Hc. simpl in Hc.
    destruct c, c'. simpl in *. congruence.
  - eapply IH; [exact Ho|done|]. intros d Hd. apply Hall. by right.
Qed.

Section ExecutorRelease.
Variable MISC_LENGTH : nat.
Variable MESSAGE_STATUS_OK : Z.
Variable pgexporter_write_message : Z → message → Z.
Variable pgexporter_has_message : Z → option (list Z) → nat → bool.
Variable pgexporter_extract_message_offset :
  nat → option (list Z) → nat * option message.

(** The decode loop allocates the nodes and the rows of its chain, and
    nothing else: [lo] lists them, node after node. *)
Lemma decode_loop_exact srv columns tag data data_size fuel :
  ∀ h0 h offset root current done lo msgs ts,
  split_messages pgexporter_extract_message_offset fuel offset data data_size
    = Some msgs →
  Forall2 (λ m t, D_tuple MISC_LENGTH srv columns tag m = Some t) (row_data msgs) ts →
  lseg h root done None → NoDup done.*1 → current = last_of None done →
  lo.*1 = done.*1 → NoDup lo.*2 →
  (∀ c, c ∈ lo → tuple_p <$> h_tuples h !! c.1 = Some (Some c.2)) →
  (∀ c, c ∈ lo → h_tuples h0 !! c.1 = None ∧ h_tuple h0 !! c.2 = None) →
  (∀ x, x ∉ lo.*1 → h_tuples h !! x = h_tuples h0 !! x) →
  (∀ y, y ∉ lo.*2 → h_tuple h !! y = h_tuple h0 !! y) →
  ∃ h' root' cells lo',
    decode_loop MISC_LENGTH pgexporter_extract_message_offset fuel h srv columns
      tag offset data data_size root current = Some (h', root') ∧
    lseg h' root' (done ++ cells) None ∧ NoDup (done ++ cells).*1 ∧
    lo'.*1 = (done ++ cells).*1 ∧ NoDup lo'.*2 ∧
    (∀ c, c ∈ lo' → tuple_p <$> h_tuples h' !! c.1 = Some (Some c.2)) ∧
    (∀ c, c ∈ lo' → h_tuples h0 !! c.1 = None ∧ h_tuple h0 !! c.2 = None) ∧
    (∀ x, x ∉ lo'.*1 → h_tuples h' !! x = h_tuples h0 !! x) ∧
    (∀ y, y ∉ lo'.*2 → h_tuple h' !! y = h_tuple h0 !! y).
Proof.
  induction fuel as [|f IH];
    intros h0 h offset root current done lo msgs ts Hsp Hts Hl Hnd Hcur
      Elo Hnd2 Htp Hfr Hx1 Hx2.
  { simpl in *. destruct (offset <? data_size)%nat; [done|].
    exists h, root, [], lo. rewrite app_nil_r. done. }
  cbn [split_messages decode_loop] in *.
  destruct (offset <? data_size)%nat.
  2:{ exists h, root, [], lo. rewrite app_nil_r. done. }
  destruct (pgexporter_extract_message_offset offset data) as [offset' msg].
  destruct (split_messages pgexporter_extract_message_offset f offset' data data_size)
    as [l|] eqn:Hl'; [|done].
  cbn [mbind option_bind] in Hsp. injection Hsp as <-.
  destruct msg as [m|]; [|by eapply IH].
  destruct (Z.eqb_spec (m_kind m) 68) as [Hk|Hk];
    [|rewrite row_data_cons_other in Hts by done; by eapply IH].
  rewrite row_data_cons_row in Hts by done.
  inversion Hts as [|? t ? ts' Hd Hts']; subst.
  destruct (create_D_tuple_alloc MISC_LENGTH h srv columns tag m t Hd)
    as (r & y & Hc & Hr & Hy).
  rewrite Hc. cbn [mbind option_bind].
  set (h1 := mk_heap (<[r := mk_tuples (Some y) None]> (h_tuples h)) (<[y := t]> (h_tuple h))) in *.
  assert (Hsub : h_tuple h ⊆ h_tuple h1) by by apply insert_subseteq.
  assert (Hr' : r ∉ done.*1).
  { intros Hin. destruct (lseg_dom _ _ _ _ _ Hl Hin) as [? E]. congruence. }
  assert (Hy' : y ∉ lo.*2).
  { intros (c & -> & Hc')%list_elem_of_fmap.
    assert (c.1 ∈ done.*1) as Hc1.
    { rewrite <- Elo. apply list_elem_of_fmap. by exists c. }
    destruct (lseg_row _ _ _ _ _ Hl Hc1) as (n & t' & Hn & Ht').
    pose proof (Htp c Hc') as Hp. rewrite Hn in Hp. simpl in Hp.
    injection Hp as Hp. rewrite Hp in Ht'. simpl in Ht'. congruence. }
  assert (Hr0 : h_tuples h0 !! r = None).
  { rewrite <- Hx1; [done|]. by rewrite Elo. }
  assert (Hy0 : h_tuple h0 !! y = None).
  { by rewrite <- Hx2. }
  assert (Hnew : lseg h1 (Some r) [(r, t)] None).
  { split; [done|]. exists (mk_tuples (Some y) None). simpl.
    rewrite !lookup_insert_eq. done. }
  assert (Hl1 : lseg h1 root done None).
  { eapply lseg_frame; [exact Hsub| |exact Hl].
    intros x Hx. simpl. rewrite lookup_insert_ne; [done|]. by intros <-. }
  assert (Hnd1 : NoDup (done ++ [(r, t)]).*1).
  { rewrite fmap_app. apply NoDup_app. split; [done|]. split.
    - intros x Hx [->|Hx']%elem_of_cons; [done|]. by apply elem_of_nil in Hx'.
    - apply NoDup_singleton. }
  set (lo1 := lo ++ [(r, y)]).
  assert (Elo1 : lo1.*1 = (done ++ [(r, t)]).*1).
  { unfold lo1. by rewrite !fmap_app, Elo. }
  assert (Hnd21 : NoDup lo1.*2).
  { unfold lo1. rewrite fmap_app. apply NoDup_app. split; [done|]. split.
    - intros x Hx [->|Hx']%elem_of_cons; [done|]. by apply elem_of_nil in Hx'.
    - apply NoDup_singleton. }
  assert (Htp1 : ∀ c, c ∈ lo1 → tuple_p <$> h_tuples h1 !! c.1 = Some (Some c.2)).
  { intros c [Hc'|Hc']%elem_of_app.
    - simpl. rewrite lookup_insert_ne; [by apply Htp|].
      intros E. apply Hr'. rewrite E, <- Elo. apply list_elem_of_fmap. by exists c.
    - apply list_elem_of_singleton in Hc'. subst c. simpl.
      by rewrite lookup_insert_eq. }
  assert (Hfr1 : ∀ c, c ∈ lo1 → h_tuples h0 !! c.1 = None ∧ h_tuple h0 !! c.2 = None).
  { intros c [Hc'|Hc']%elem_of_app; [by apply Hfr|].
    apply list_elem_of_singleton in Hc'. by subst c. }
  assert (Hx11 : ∀ x, x ∉ lo1.*1 → h_tuples h1 !! x = h_tuples h0 !! x).
  { intros x Hx. unfold lo1 in Hx. rewrite fmap_app in Hx.
    apply not_elem_of_app in Hx as [Hxa Hxb]. simpl.
    rewrite lookup_insert_ne; [by apply Hx1|].
    intros <-. apply Hxb. left. }
  assert (Hx21 : ∀ z, z ∉ lo1.*2 → h_tuple h1 !! z = h_tuple h0 !! z).
  { intros z Hz. unfold lo1 in Hz. rewrite fmap_app in Hz.
    apply not_elem_of_app in Hz as [Hza Hzb]. simpl.
    rewrite lookup_insert_ne; [by apply Hx2|].
    intros <-. apply Hzb. left. }
  destruct done as [|c done].
  - simpl in Hl. subst root. simpl last_of.
    destruct (IH h0 h1 offset' (Some r) (Some r) [(r, t)] lo1 l ts' Hl' Hts' Hnew)
      as (h' & root' & cells & lo' & Hdl & Hl2 & Hnd3 & Elo' & Hnd4 & Htp' & Hfr' & Hx1' & Hx2');
      try done.
    exists h', root', ((r, t) :: cells), lo'. rewrite Hdl. done.
  - pose proof (lseg_head _ _ _ _ _ Hl) as ->.
    simpl last_of.
    destruct (lseg_end _ _ _ _ Hl1) as (ne & Hne & _).
    rewrite (store_next_eq h1 _ ne _ Hne). cbn [mbind option_bind].
    set (h2 := mk_heap (<[end_of c.1 done := mk_tuples (tuple_p ne) (Some r)]> (h_tuples h1))
                 (h_tuple h1)).
    assert (Hnx : next_at h2 (Some (end_of c.1 done)) = Some (Some r)).
    { unfold next_at, load_tuples. simpl. by rewrite lookup_insert_eq. }
    rewrite Hnx. cbn [mbind option_bind].
    assert (Hl2 : lseg h2 (Some c.1) ((c :: done) ++ [(r, t)]) None).
    { eapply lseg_app.
      - by apply (lseg_relink h1 c done None).
      - eapply lseg_frame; [| |exact Hnew]; [done|].
        intros x [->|Hx]%elem_of_cons; [|by apply elem_of_nil in Hx].
        simpl. rewrite lookup_insert_ne; [done|].
        intros E. apply Hr'. rewrite <- E. apply end_of_elem. }
    destruct (links_only_store h1 (end_of c.1 done) ne (Some r) Hne) as [_ Hlk].
    fold h2 in Hlk.
    destruct (IH h0 h2 offset' (Some c.1) (Some r) ((c :: done) ++ [(r, t)]) lo1 l ts'
                Hl' Hts' Hl2)
      as (h' & root' & cells & lo' & Hdl & Hl3 & Hnd3 & Elo' & Hnd4 & Htp' & Hfr' & Hx1' & Hx2');
      try done.
    + by rewrite last_of_snoc.
    + intros d Hd'. rewrite Hlk. by apply Htp1.
    + intros x Hx. rewrite <- Hx11 by done. simpl.
      rewrite lookup_insert_ne; [done|].
      intros <-. apply Hx. rewrite Elo1, fmap_app. apply elem_of_app. left.
      apply end_of_elem.
    + exists h', root', ((r, t) :: cells), lo'. rewrite Hdl.
      rewrite <- app_assoc in Hl3, Hnd3, Elo'. done.
Qed.

(** X13.  No node and no row is lost by a query: the [struct tuples]
    and [struct tuple] objects a [query_execute] that returns 0 has
    allocated are those of the chain at [*tuples], so that
    [pgexporter_free_tuples] on it returns 0 and leaves the nodes and the
    rows allocated as they were before the query.  This is about nodes
    and rows, which [heap] holds; the byte buffers of the call are not
    among them ([content] of line 213 is still allocated when the call
    returns). *)
Theorem query_execute_then_free fuel h config reads srv query tag columns
    tuples h' root :
  query_execute MISC_LENGTH MESSAGE_STATUS_OK pgexporter_write_message
    pgexporter_has_message pgexporter_extract_message_offset fuel h config
    reads srv query tag columns tuples = Some (h', root, 0) →
  ∃ cells,
    lseg h' root cells None ∧
    ∀ fuel', (length cells ≤ fuel')%nat →
      pgexporter_free_tuples fuel' h' root = Some (h, 0).
Proof.
  unfold query_execute. rewrite query_message_frame. cbn [mbind option_bind].
  destruct (servers config !! srv) as [s|]; [|done]. cbn [mbind option_bind].
  destruct (Z.eqb_spec (pgexporter_write_message (s_fd s)
    (mk_message 81 (1 + 4 + length query + 1)%nat
       (Some ([81] ++ int32_bytes (4 + Z.of_nat (length query) + 1) ++ query ++ [0]))))
    MESSAGE_STATUS_OK) as [Hok|Hno]; [|done].
  destruct (read_loop MESSAGE_STATUS_OK pgexporter_has_message reads None 0)
    as [[|data data_size]|]; [done| |done].
  cbn [mbind option_bind].
  destruct (decode_loop MISC_LENGTH pgexporter_extract_message_offset fuel h
              (Z.of_nat srv) columns tag 0 data data_size None None)
    as [[h1 root1]|] eqn:Hd; [|done].
  cbn [mbind option_bind]. intros [= -> ->].
  destruct (decode_loop_inv _ _ _ _ _ _ _ _ _ _ _ _ _ _ Hd) as (msgs & ts & Hsp & Hts).
  destruct (decode_loop_exact (Z.of_nat srv) columns tag data data_size fuel h h 0%nat
              None None [] [] msgs ts Hsp Hts)
    as (h2 & root2 & cells & lo & Hd2 & Hl & Hnd & Elo & Hnd2 & Htp & Hfr & Hx1 & Hx2);
    try done; try (by intros ? ?%elem_of_nil); try constructor.
  rewrite Hd in Hd2. injection Hd2 as <- <-. simpl in Hl, Hnd, Elo.
  exists cells. split; [done|]. intros fuel' Hf.
  destruct (lseg_owned _ _ _ Hl) as (lo0 & Ho & Elo0).
  assert (lo = lo0) as <-.
  { eapply owned_eq; [exact Ho|congruence|done]. }
  destruct (free_loop_spec lo fuel' h' root Ho) as (h'' & Hfree & H1 & H2);
    [by rewrite Elo|done| |].
  { apply (f_equal length) in Elo. rewrite !length_fmap in Elo. lia. }
  unfold pgexporter_free_tuples. rewrite Hfree. cbn [mbind option_bind].
  f_equal. f_equal. destruct h'' as [m1 m2], h as [n1 n2]. simpl in *.
  f_equal; apply map_eq; intros z.
  - rewrite H1. case_decide as Hz; [|by apply Hx1].
    apply list_elem_of_fmap in Hz as (c & -> & Hc). symmetry. by apply Hfr.
  - rewrite H2. case_decide as Hz; [|by apply Hx2].
    apply list_elem_of_fmap in Hz as (c & -> & Hc). symmetry. by apply Hfr.
Qed.

End ExecutorRelease.

Lemma query_execute_then_free_witness :
  ∃ h' root cells,
    pgexporter_query_settings 128 1 send_ok has_message extract_message_offset 10
      example_heap config_two example_reads 0 None = Some (h', root, 0) ∧
    lseg h' root cells None ∧
    pgexporter_free_tuples (length cells) h' root = Some (example_heap, 0).
Proof.
  unfold pgexporter_query_settings.
  pose proof (query_execute_then_free 128 1 send_ok has_message
                extract_message_offset 10 example_heap config_two example_reads 0
                (chars "SELECT name,setting,short_desc FROM pg_settings;")
                (chars "pg_settings") 3 None) as H.
  destruct (query_execute 128 1 send_ok has_message extract_message_offset 10
              example_heap config_two example_reads 0
              (chars "SELECT name,setting,short_desc FROM pg_settings;")
              (chars "pg_settings") 3 None) as [[[h' root] z]|] eqn:E;
    [|vm_compute in E; discriminate].
  assert (z = 0) as -> by (vm_compute in E; congruence).
  destruct (H h' root eq_refl) as (cells & Hl & Hfree).
  exists h', root, cells. split; [reflexivity|]. split; [exact Hl|].
  apply Hfree. lia.
Defined.
